(** * ELECTRA pre-training objective of reformer-playground

    A shallow embedding of [src/model/electra.py]: the masking helpers
    ([prob_mask_like], [mask_with_tokens], [get_mask_subset_with_prob]),
    the Gumbel sampler and [Electra.forward].

    Conventions of the embedding.
    - A tensor of shape [B,T] is a list of [B] rows; token ids are [Z],
      positions are [nat], boolean tensors are lists of [bool].
    - Probabilities and the uniform draws they are compared with are
      rationals ([Q]), so that the masking engine and the corruption
      sampler evaluate.  Logits, losses and metrics are real numbers ([R]):
      an idealisation of the float32 arithmetic of the source, whose
      rounding is not modelled.  The mean of an empty tensor (NaN in the
      source) is [None].
    - The global random generator of torch is a stream [nat -> Q] of
      uniform draws carried in the state; every drawing operation consumes
      it in row-major order.
    - Exceptions are values of [error]; the state also records the calls to
      the two wrapped models and the random substitution, in order. *)

From Stdlib Require Import ZArith QArith Qround Reals Lra Lia List String.
From Stdlib Require Import Sorted.
From stdpp Require Import base gmap list strings pretty.
Import ListNotations.

Local Open Scope Z_scope.

(** ** Errors, events and the state-and-error monad *)

Inductive error : Type :=
| AssertionError (msg : string)
| RuntimeError (msg : string).

Inductive Event : Type :=
| CallGenerator (x : list (list Z))
| CallDiscriminator (x : list (list Z))
| RandomSubstitution.

Record World : Type := mkWorld {
  rng : nat -> Q;
  trace : list Event
}.

Inductive result (A : Type) : Type :=
| Ok (a : A)
| Raise (e : error).
Arguments Ok {A} a.
Arguments Raise {A} e.

Definition M (A : Type) : Type := World -> World * result A.

Definition ret {A} (a : A) : M A := fun w => (w, Ok a).

Definition raise {A} (e : error) : M A := fun w => (w, Raise e).

Definition bind {A B} (m : M A) (k : A -> M B) : M B :=
  fun w =>
    match m w with
    | (w', Ok a) => k a w'
    | (w', Raise e) => (w', Raise e)
    end.

Notation "x <- m ;; k" := (bind m (fun x => k))
  (at level 100, m at next level, right associativity).

Definition emit (e : Event) : M unit :=
  fun w => (mkWorld (rng w) (trace w ++ [e]), Ok tt).

(** [n] uniform draws from the generator, which advances by [n]. *)
Definition draw_uniform (n : nat) : M (list Q) :=
  fun w => (mkWorld (fun i => rng w (n + i)%nat) (trace w),
            Ok (fmap (rng w) (seq 0 n))).

(** A tensor of uniform draws with the shape of [t], row-major. *)
Fixpoint uniform_like {A} (t : list (list A)) : M (list (list Q)) :=
  match t with
  | [] => ret []
  | r :: t' =>
      u <- draw_uniform (length r) ;;
      us <- uniform_like t' ;;
      ret (u :: us)
  end.

(** ** Element-wise tensor operations *)

Definition map2d {A B} (f : A -> B) (t : list (list A)) : list (list B) :=
  fmap (fmap (M := list) f) t.

Definition zip2d {A B C} (f : A -> B -> C)
    (s : list (list A)) (t : list (list B)) : list (list C) :=
  zip_with (zip_with f) s t.

(** [t[b][i]] *)
Definition at2 {A} (t : list (list A)) (b i : nat) : option A :=
  t !! b ≫= fun row => row !! i.

(** [~mask] *)
Definition tnot (m : list (list bool)) : list (list bool) := map2d negb m.

(** [t.masked_fill(mask, v)] *)
Definition masked_fill {A} (t : list (list A)) (mask : list (list bool)) (v : A)
    : list (list A) :=
  zip2d (fun x (m : bool) => if m then v else x) t mask.

(** [t[mask]] for a boolean [mask] (equivalently [t[torch.nonzero(mask,
    as_tuple=True)]]): the selected elements in row-major order. *)
Definition select_row {A} (row : list A) (m : list bool) : list A :=
  omap (fun p : A * bool => if p.2 then Some p.1 else None) (zip row m).

Definition masked_select {A} (t : list (list A)) (mask : list (list bool))
    : list A :=
  concat (zip_with select_row t mask).

(** [t[mask] = vals] : the values are written at the selected positions in
    row-major order; the rest of [vals] is returned with the tensor. *)
Fixpoint assign_row {A} (row : list A) (m : list bool) (vals : list A)
    : list A * list A :=
  match row, m with
  | x :: row', mb :: m' =>
      match mb, vals with
      | true, v :: vals' =>
          let (r, rest) := assign_row row' m' vals' in (v :: r, rest)
      | _, _ =>
          let (r, rest) := assign_row row' m' vals in (x :: r, rest)
      end
  | _, _ => (row, vals)
  end.

Fixpoint masked_assign {A} (t : list (list A)) (mask : list (list bool))
    (vals : list A) : list (list A) :=
  match t, mask with
  | row :: t', m :: mask' =>
      let (r, rest) := assign_row row m vals in
      r :: masked_assign t' mask' rest
  | _, _ => t
  end.

(** [mask.sum(dim=-1)] of one row. *)
Fixpoint count_true (m : list bool) : Z :=
  match m with
  | [] => 0
  | b :: m' => (if b then 1 else 0) + count_true m'
  end.

(** ** Helpers of the source *)

(** [prob_mask_like(t, prob)]: [uniform_(0, 1) < prob], element-wise. *)
Definition prob_mask_like {A} (t : list (list A)) (prob : Q)
    : M (list (list bool)) :=
  u <- uniform_like t ;;
  ret (map2d (fun x => if Qlt_le_dec x prob then true else false) u).

(** [mask_with_tokens(t, token_ids)]: the reduction of [acc | (t == el)]
    over the set of ids, from the all-false tensor. *)
Definition mask_with_tokens (t : list (list Z)) (token_ids : gset Z)
    : list (list bool) :=
  set_fold (fun el acc => zip2d orb acc (map2d (Z.eqb el) t))
           (map2d (fun _ => false) t) token_ids.

(** *** [topk]: the indices of the [k] largest entries, largest first.

    The order among equal entries is not specified by torch; here the
    entry of lower index comes first (a stable insertion sort). *)

Definition Qgeb (x y : Q) : bool := if Qlt_le_dec x y then false else true.

Fixpoint insert_desc (p : Q * nat) (l : list (Q * nat)) : list (Q * nat) :=
  match l with
  | [] => [p]
  | q :: l' => if Qgeb p.1 q.1 then p :: q :: l' else q :: insert_desc p l'
  end.

Definition sort_desc (l : list (Q * nat)) : list (Q * nat) :=
  foldr insert_desc [] l.

Definition topk_indices (k : nat) (row : list Q) : list nat :=
  fmap snd (take k (sort_desc (zip row (seq 0 (length row))))).

(** [row.topk(k)] raises when [k] is not in [0, len(row)]. *)
Definition topk (k : Z) (row : list Q) : result (list nat) :=
  if (k <? 0) || (Z.of_nat (length row) <? k)
  then Raise (RuntimeError "selected index k out of range")
  else Ok (topk_indices (Z.to_nat k) row).

(** [mapM] over the rows of a batch, for an operation that may raise. *)
Fixpoint rows_result {A B} (f : A -> result B) (t : list A) : result (list B) :=
  match t with
  | [] => Ok []
  | x :: t' =>
      match f x with
      | Raise e => Raise e
      | Ok y =>
          match rows_result f t' with
          | Raise e => Raise e
          | Ok ys => Ok (y :: ys)
          end
      end
  end.

Definition lift {A} (r : result A) : M A := fun w => (w, r).

(** [mask.cumsum(dim=-1)] of one row. *)
Fixpoint cumsum_from (acc : Z) (m : list bool) : list Z :=
  match m with
  | [] => []
  | b :: m' => let acc' := acc + (if b then 1 else 0) in acc' :: cumsum_from acc' m'
  end.

Definition cumsum (m : list bool) : list Z := cumsum_from 0 m.

(** [new_mask.scatter_(-1, sampled_indices, 1)] on one row. *)
Definition scatter_ones (new_mask : list Q) (idx : list nat) : list Q :=
  foldl (fun acc i => <[i := 1%Q]> acc) new_mask idx.

(** [.bool()] of a float: true unless zero. *)
Definition to_bool (x : Q) : bool := negb (Qeq_bool x 0).

(** The sequence length of a [B,T] tensor. *)
Definition seq_len_of {A} (t : list (list A)) : nat :=
  match t with [] => 0%nat | r :: _ => length r end.

(** [get_mask_subset_with_prob(mask, prob)], lines 53-67.  [rand] is drawn
    before [topk] can raise; for a negative [max_masked] the slice
    [mask_excess[:, :max_masked]] is never used since [topk] raises. *)
Definition get_mask_subset_with_prob (mask : list (list bool)) (prob : Q)
    : M (list (list bool)) :=
  let seq_len := seq_len_of mask in
  let max_masked := Qceiling (prob * inject_Z (Z.of_nat seq_len)) in
  let num_tokens := fmap count_true mask in
  let mask_excess :=
    zip_with (fun row n =>
                fmap (fun c => Qceiling (inject_Z n * prob) <? c) (cumsum row))
             mask num_tokens in
  let mask_excess := fmap (take (Z.to_nat max_masked)) mask_excess in
  u <- uniform_like mask ;;
  let rand := zip2d (fun x (m : bool) => if m then x else (-(1000000000#1))%Q)
                    u mask in
  sampled_indices <- lift (rows_result (topk max_masked) rand) ;;
  let sampled_indices :=
    zip2d (fun i (e : bool) => if e then 0%nat else S i)
          sampled_indices mask_excess in
  let new_mask := fmap (fun _ => replicate (S seq_len) 0%Q) mask in
  let new_mask := zip_with scatter_ones new_mask sampled_indices in
  ret (map2d to_bool (fmap (drop 1) new_mask)).

(** [torch.randint(low, high, t.shape)]: integers of [low, high), here the
    uniform draw scaled to the range and rounded down. *)
Definition randint_like {A} (low high : Z) (t : list (list A))
    : M (list (list Z)) :=
  if high <=? low
  then raise (RuntimeError "random_ expects 'from' to be less than 'to'")
  else
    u <- uniform_like t ;;
    ret (map2d (fun x => low + Qfloor (x * inject_Z (high - low))) u).

(** ** Real-valued helpers (float tensors) *)

Definition Rsum (l : list R) : R := foldr Rplus 0%R l.

(** [t.mean()] of a one-dimensional tensor; NaN ([None]) when it is empty. *)
Definition mean (l : list R) : option R :=
  match l with
  | [] => None
  | _ => Some (Rsum l / INR (length l))%R
  end.

(** [log(t, eps=1e-9)] *)
Definition eps : R := (/ 1000000000)%R.
Definition log (t : R) : R := ln (t + eps).

(** [gumbel_noise] of one uniform draw: [-log(-log(noise))]. *)
Definition gumbel_noise (noise : Q) : R := (- log (- log (Q2R noise)))%R.

(** [row.argmax()]: the first index of the largest entry; raises on an
    empty row. *)
Fixpoint argmax_from (best : R) (besti i : nat) (l : list R) : nat :=
  match l with
  | [] => besti
  | x :: l' =>
      if Rlt_dec best x then argmax_from x i (S i) l'
      else argmax_from best besti (S i) l'
  end.

Definition argmax (row : list R) : result Z :=
  match row with
  | [] => Raise (RuntimeError "argmax: expected reduction dim to have non-zero size")
  | x :: l => Ok (Z.of_nat (argmax_from x 0 1 l))
  end.

(** [gumbel_sample(t, temperature)] for [t] of shape [N,V]. *)
Definition gumbel_sample (t : list (list R)) (temperature : R) : M (list Z) :=
  noise <- uniform_like t ;;
  lift (rows_result argmax
          (zip2d (fun x u => (x / temperature + gumbel_noise u)%R) t noise)).

(** [F.cross_entropy(logits.transpose(1, 2), target, ignore_index)]: the
    mean over the positions whose target is not [ignore_index] of
    [-log_softmax(logits[b][i])[target[b][i]]]. *)
Definition nll (row : list R) (c : Z) : result R :=
  if (c <? 0) || (Z.of_nat (length row) <=? c)
  then Raise (RuntimeError "Target out of bounds")
  else Ok (ln (Rsum (fmap exp row)) - nth (Z.to_nat c) row 0)%R.

Definition same_shape {A B} (s : list (list A)) (t : list (list B)) : bool :=
  bool_decide (fmap length s = fmap length t).

Definition cross_entropy (logits : list (list (list R)))
    (target : list (list Z)) (ignore_index : Z) : result (option R) :=
  if same_shape logits target then
    let kept := map2d (fun c => negb (c =? ignore_index)) target in
    match rows_result (fun p : list R * Z => nll p.1 p.2)
            (zip (masked_select logits kept) (masked_select target kept)) with
    | Raise e => Raise e
    | Ok losses => Ok (mean losses)
    end
  else Raise (RuntimeError "cross_entropy: shape mismatch").

(** [F.binary_cross_entropy_with_logits(input, target)], mean reduction. *)
Definition sigmoid (x : R) : R := (/ (1 + exp (- x)))%R.

Definition bce_elem (x y : R) : R :=
  (- (y * ln (sigmoid x) + (1 - y) * ln (1 - sigmoid x)))%R.

Definition binary_cross_entropy_with_logits (input target : list R)
    : option R :=
  mean (zip_with bce_elem input target).

(** [flat.reshape_as(t)]: the elements of [flat] cut into rows with the
    lengths of the rows of [t]; raises unless the sizes agree. *)
Fixpoint chunk {A B} (flat : list A) (t : list (list B)) : list (list A) :=
  match t with
  | [] => []
  | r :: t' => take (length r) flat :: chunk (drop (length r) flat) t'
  end.

Definition reshape_as {A B} (flat : list A) (t : list (list B))
    : result (list (list A)) :=
  if bool_decide (length flat = length (concat t))
  then Ok (chunk flat t)
  else Raise (RuntimeError "shape is invalid for input size").

(** [torch.sign] and [torch.round] (half to even). *)
Definition sign (x : R) : R :=
  if Rlt_dec 0 x then 1%R else if Rlt_dec x 0 then (-1)%R else 0%R.

Definition floorZ (x : R) : Z := (up x - 1)%Z.

Definition round (x : R) : R :=
  let f := floorZ x in
  let d := (x - IZR f)%R in
  if Rlt_dec d (1 / 2) then IZR f
  else if Rlt_dec (1 / 2) d then IZR (f + 1)
  else if Z.even f then IZR f else IZR (f + 1).

(** [(a == b).float()] *)
Definition eq_float (a b : R) : R := if Req_dec_T a b then 1%R else 0%R.

(** ** The [Electra] module *)

(** The attributes set by [Electra.__init__].  The two wrapped models are
    external: the generator maps a [B,T] batch to [B,T,V] logits, the
    discriminator (with its optional hidden-layer adapter) to a tensor
    given here by its elements in row-major order. *)
Record Electra : Type := mkElectra {
  generator : list (list Z) -> list (list (list R));
  discriminator : list (list Z) -> list R;
  num_tokens : option Z;
  mask_prob : Q;
  replace_prob : Q;
  random_token_prob : Q;
  mask_token_id : Z;
  pad_token_id : Z;
  mask_ignore_token_ids : gset Z;
  disc_weight : R;
  gen_weight : R;
  temperature : R
}.

(** [Electra.__init__], lines 115-162: the pad token joins the ignored
    ids, [set([*mask_ignore_token_ids, pad_token_id])]. *)
Definition Electra_init
    (generator : list (list Z) -> list (list (list R)))
    (discriminator : list (list Z) -> list R)
    (num_tokens : option Z) (mask_prob replace_prob random_token_prob : Q)
    (mask_token_id pad_token_id : Z) (mask_ignore_token_ids : list Z)
    (disc_weight gen_weight temperature : R) : Electra :=
  mkElectra generator discriminator num_tokens
            mask_prob replace_prob random_token_prob
            mask_token_id pad_token_id
            (list_to_set (mask_ignore_token_ids ++ [pad_token_id]))
            disc_weight gen_weight temperature.

(** The defaults of the keyword arguments of [__init__]. *)
Definition Electra_default
    (generator : list (list Z) -> list (list (list R)))
    (discriminator : list (list Z) -> list R) : Electra :=
  Electra_init generator discriminator None (15 # 100) (85 # 100) 0 4 0 []
               50%R 1%R 1%R.

Definition num_tokens_message : string :=
  "Number of tokens (num_tokens) must be passed to Electra for randomizing tokens during masked language modeling".

(** The local variables of [Electra.forward] up to the generator call
    (lines 165-196). *)
Module Corrupted.
Record t : Type := mk {
  replace_prob : list (list bool);
  no_mask : list (list bool);
  mask : list (list bool);
  masked_input : list (list Z);
  gen_labels : list (list Z)
}.
End Corrupted.

(** Lines 182-190: the random-token substitution into [masked_input]. *)
Definition random_substitution (self : Electra) (input : list (list Z))
    (masked_input : list (list Z)) : M (list (list Z)) :=
  if Qlt_le_dec 0 (random_token_prob self) then
    match num_tokens self with
    | None => raise (AssertionError num_tokens_message)
    | Some n =>
        random_token_prob <- prob_mask_like input (random_token_prob self) ;;
        random_tokens <- randint_like 0 n input ;;
        let random_no_mask :=
          mask_with_tokens random_tokens (mask_ignore_token_ids self) in
        let random_token_prob :=
          zip2d andb random_token_prob (tnot random_no_mask) in
        _ <- emit RandomSubstitution ;;
        ret (masked_assign masked_input random_token_prob
               (masked_select random_tokens random_token_prob))
    end
  else ret masked_input.

(** Lines 165-196 of [Electra.forward]. *)
Definition forward_corrupt (self : Electra) (input : list (list Z))
    : M Corrupted.t :=
  replace_prob <- prob_mask_like input (replace_prob self) ;;
  let no_mask := mask_with_tokens input (mask_ignore_token_ids self) in
  mask <- get_mask_subset_with_prob (tnot no_mask) (mask_prob self) ;;
  let masked_input := input in
  masked_input <- random_substitution self input masked_input ;;
  let masked_input :=
    masked_fill masked_input (zip2d andb mask replace_prob)
                (mask_token_id self) in
  let gen_labels := masked_fill input (tnot mask) (pad_token_id self) in
  ret (Corrupted.mk replace_prob no_mask mask masked_input gen_labels).

(** The remaining local variables of [Electra.forward] (lines 199-240). *)
Module Locals.
Record t : Type := mk {
  corrupted : Corrupted.t;
  logits : list (list (list R));
  mlm_loss : option R;
  sampled : list Z;
  disc_input : list (list Z);
  disc_labels : list (list R);
  disc_logits : list (list R);
  disc_loss : option R;
  gen_predictions : list (list Z);
  disc_predictions : list (list R);
  gen_acc : option R;
  disc_acc : option R
}.
End Locals.

(** Arithmetic on results that may be NaN. *)
Definition scale (c : R) (x : option R) : option R :=
  x ≫= fun v => Some (c * v)%R.

Definition plus (x y : option R) : option R :=
  x ≫= fun a => y ≫= fun b => Some (a + b)%R.

(** Line 220: [(input != disc_input).float()]. *)
Definition disc_labels_of (input disc_input : list (list Z)) : list (list R) :=
  zip2d (fun a b => if a =? b then 0%R else 1%R) input disc_input.

(** Line 223: the positions of [input != pad_token_id]. *)
Definition non_padded_of (pad : Z) (input : list (list Z)) : list (list bool) :=
  map2d (fun x => negb (x =? pad)) input.

(** Line 237: [torch.round((torch.sign(disc_logits) + 1.0) * 0.5)]. *)
Definition disc_predictions_of (disc_logits : list (list R)) : list (list R) :=
  map2d (fun x => round ((sign x + 1) * (1 / 2))%R) disc_logits.

(** Line 238: [(gen_labels[mask] == gen_predictions[mask]).float().mean()]. *)
Definition gen_acc_of (mask : list (list bool))
    (gen_labels gen_predictions : list (list Z)) : option R :=
  mean (zip_with (fun a b => if a =? b then 1%R else 0%R)
          (masked_select gen_labels mask)
          (masked_select gen_predictions mask)).

(** Lines 239-240: the two means of [disc_acc]. *)
Definition disc_acc_of (mask : list (list bool))
    (disc_labels disc_predictions : list (list R)) : option R :=
  plus
    (scale (1 / 2)
       (mean (zip_with eq_float (masked_select disc_labels mask)
                (masked_select disc_predictions mask))))
    (scale (1 / 2)
       (mean (zip_with eq_float (masked_select disc_labels (tnot mask))
                (masked_select disc_predictions (tnot mask))))).

(** [Electra.forward], lines 164-240, with all its local variables. *)
Definition forward_locals (self : Electra) (input : list (list Z))
    : M Locals.t :=
  c <- forward_corrupt self input ;;
  let mask := Corrupted.mask c in
  let gen_labels := Corrupted.gen_labels c in
  _ <- emit (CallGenerator (Corrupted.masked_input c)) ;;
  let logits := generator self (Corrupted.masked_input c) in
  mlm_loss <- lift (cross_entropy logits gen_labels (pad_token_id self)) ;;
  let sample_logits := masked_select logits mask in
  sampled <- gumbel_sample sample_logits (temperature self) ;;
  let disc_input := masked_assign input mask sampled in
  let disc_labels := disc_labels_of input disc_input in
  let non_padded := non_padded_of (pad_token_id self) input in
  _ <- emit (CallDiscriminator disc_input) ;;
  disc_logits <- lift (reshape_as (discriminator self disc_input) disc_labels) ;;
  let disc_loss :=
    binary_cross_entropy_with_logits
      (masked_select disc_logits non_padded)
      (masked_select disc_labels non_padded) in
  gen_predictions <- lift (rows_result (rows_result argmax) logits) ;;
  let disc_predictions := disc_predictions_of disc_logits in
  let gen_acc := gen_acc_of mask gen_labels gen_predictions in
  let disc_acc := disc_acc_of mask disc_labels disc_predictions in
  ret (Locals.mk c logits mlm_loss sampled disc_input disc_labels disc_logits
         disc_loss gen_predictions disc_predictions gen_acc disc_acc).

(** The [Results] named tuple. *)
Module Results.
Record t : Type := mk {
  loss : option R;
  mlm_loss : option R;
  disc_loss : option R;
  gen_acc : option R;
  disc_acc : option R;
  disc_labels : list (list R);
  disc_predictions : list (list R)
}.
End Results.

Definition forward (self : Electra) (input : list (list Z)) : M Results.t :=
  l <- forward_locals self input ;;
  ret (Results.mk
         (plus (scale (gen_weight self) (Locals.mlm_loss l))
               (scale (disc_weight self) (Locals.disc_loss l)))
         (Locals.mlm_loss l) (Locals.disc_loss l)
         (Locals.gen_acc l) (Locals.disc_acc l)
         (Locals.disc_labels l) (Locals.disc_predictions l)).

(** ** Definitions used by the statements *)

(** The lengths of the rows of a tensor. *)
Definition shape {A} (t : list (list A)) : list nat := length <$> t.

(** Whether [x] is one of [token_ids]. *)
Definition listed (token_ids : gset Z) (x : Z) : bool :=
  bool_decide (x ∈ token_ids).

(** The ceiling the source calls [max_masked]. *)
Definition max_masked_of (prob : Q) (seq_len : nat) : Z :=
  Qceiling (prob * inject_Z (Z.of_nat seq_len)).

(** [torch.where(sel, r, t)]: the closed form of [t[sel] = r[sel]]. *)
Definition where2 {A} (sel : list (list bool)) (r t : list (list A))
    : list (list A) :=
  zip2d (fun (s : bool) (p : A * A) => if s then p.1 else p.2)
        sel (zip2d pair r t).

(** The outcome of a computation started in state [w]. *)
Definition run {A} (m : M A) (w : World) : result A := (m w).2.

(** Stand-ins for the wrapped models where they are not called, and a
    random generator whose every draw is 1/4. *)
Definition no_generator : list (list Z) -> list (list (list R)) := fun _ => [].
Definition no_discriminator : list (list Z) -> list R := fun _ => [].
Definition quarter : World := mkWorld (fun _ => (1 # 4)%Q) [].

(** [Electra(g, d, num_tokens=10, mask_prob, replace_prob,
    random_token_prob=0.5, mask_token_id=4, pad_token_id=0)] *)
Definition electra_random (mask_prob replace_prob : Q) : Electra :=
  Electra_init no_generator no_discriminator (Some 10)
               mask_prob replace_prob (1 # 2) 4 0 [] 50%R 1%R 1%R.

(** [Electra(g, d, mask_prob=0.6, replace_prob=1, mask_token_id=4,
    pad_token_id=0, mask_ignore_token_ids=[2, 3])] *)
Definition electra_cls_sep : Electra :=
  Electra_init no_generator no_discriminator None
               (6 # 10) 1 0 4 0 [2; 3] 50%R 1%R 1%R.

(** The state after [emit e]. *)
Definition after_emit (e : Event) (w : World) : World :=
  mkWorld (rng w) (trace w ++ [e]).

(** The record of locals determined by the results of the fallible steps. *)
Definition locals_of (self : Electra) (input : list (list Z))
    (c : Corrupted.t) (mlm : option R) (sampled : list Z)
    (dlogits : list (list R)) (gpred : list (list Z)) : Locals.t :=
  let logits := generator self (Corrupted.masked_input c) in
  let disc_input := masked_assign input (Corrupted.mask c) sampled in
  let disc_labels := disc_labels_of input disc_input in
  let non_padded := non_padded_of (pad_token_id self) input in
  Locals.mk c logits mlm sampled disc_input disc_labels dlogits
    (binary_cross_entropy_with_logits
       (masked_select dlogits non_padded)
       (masked_select disc_labels non_padded))
    gpred (disc_predictions_of dlogits)
    (gen_acc_of (Corrupted.mask c) (Corrupted.gen_labels c) gpred)
    (disc_acc_of (Corrupted.mask c) disc_labels (disc_predictions_of dlogits)).



(** The same module with another generator. *)
Definition with_generator (g : list (list Z) -> list (list (list R)))
    (self : Electra) : Electra :=
  mkElectra g (discriminator self) (num_tokens self)
            (mask_prob self) (replace_prob self) (random_token_prob self)
            (mask_token_id self) (pad_token_id self)
            (mask_ignore_token_ids self)
            (disc_weight self) (gen_weight self) (temperature self).

(** A generator whose logits are all zero over a vocabulary of three
    tokens, one that differs from it at position 1 of a one-row batch, and
    a discriminator that answers the logits 1 and -1. *)
Definition zero_logits (x : list (list Z)) : list (list (list R)) :=
  map2d (fun _ => replicate 3 0%R) x.

Definition other_logits (x : list (list Z)) : list (list (list R)) :=
  [[replicate 3 0%R; [1%R; 0%R; 0%R]]].

Definition sure_discriminator (x : list (list Z)) : list R := [1%R; (-1)%R].

(** [Electra(zero_logits, sure_discriminator, mask_prob=0.5,
    replace_prob=0.85, mask_token_id=4, pad_token_id=0)] *)
Definition electra_example : Electra :=
  Electra_init zero_logits sure_discriminator None
               (1 # 2) (85 # 100) 0 4 0 [] 50%R 1%R 1%R.

Definition example_corrupted : Corrupted.t :=
  Corrupted.mk [[true; true]] [[false; false]] [[true; false]]
               [[4; 2]] [[1; 0]].

Definition example_locals : Locals.t :=
  locals_of electra_example [[1; 2]] example_corrupted
    (mean [(ln (Rsum (exp <$> replicate 3 0%R)) - 0)%R])
    [0] [[1%R; (-1)%R]] [[0; 0]].

(** The binary cross-entropy with logits as a formula, written without
    the functions of the embedding: the loss of a logit [x] is
    [log(1 + exp(-x))] where the token was replaced and [log(1 + exp(x))]
    where it is the original. *)
Definition bce_term (x : R) (replaced : bool) : R :=
  if replaced then ln (1 + exp (- x)) else ln (1 + exp x).

(** The terms of the discriminator loss, row by row: one for each
    position whose input token is not [pad], from the logit of the
    position and whether its token differs from that of [disc_input]. *)
Definition non_pad_terms (pad : Z) (input disc_input : list (list Z))
    (disc_logits : list (list R)) : list R :=
  concat
    (zip_with
       (fun (tokens : list (Z * Z)) (lrow : list R) =>
          omap (fun p : (Z * Z) * R =>
                  if p.1.1 =? pad then None
                  else Some (bce_term p.2 (negb (p.1.1 =? p.1.2))))
               (zip tokens lrow))
       (zip2d pair input disc_input) disc_logits).

(** The average of the terms; NaN ([None]) when there is none. *)
Definition average (terms : list R) : option R :=
  match terms with
  | [] => None
  | _ => Some (fold_right Rplus 0%R terms / INR (length terms))%R
  end.

(** ** Further functions of the repository *)

(** Python exceptions raised outside the tensor code. *)
Inductive PyError : Type :=
| ZeroDivisionError
| IndexError
| ValueError
| PyAssertionError (msg : string)
| TorchError (e : error)
| FileError (path : string).

(** [sentence_mask_to_max_length(token_indices, max_length, pad_token_id)]
    of [src/example/autoregressive_model_text_generation.py].  [%] is the
    floored remainder of Python, which is [Z.modulo]; [[pad] * n] is empty
    for [n <= 0]. *)
Definition sentence_mask_to_max_length
    (token_indices : list Z) (max_length : Z) (pad_token_id : Z)
    : PyError + list Z :=
  let token_len := Z.of_nat (length token_indices) in
  if max_length =? 0 then inl ZeroDivisionError
  else
    let remainder := token_len mod max_length in
    let diff_len := max_length - remainder in
    let result := token_indices ++ replicate (Z.to_nat diff_len) pad_token_id in
    inr result.

(** [Electra(zero_logits, sure_discriminator, mask_prob=0,
    replace_prob=0.85, mask_token_id=4, pad_token_id=0)] *)
Definition electra_unmasked : Electra :=
  Electra_init zero_logits sure_discriminator None
               0 (85 # 100) 0 4 0 [] 50%R 1%R 1%R.

(** [get_mask_subset_with_prob] computes two ceilings in floating point:
    [math.ceil(prob * seq_len)] on Python floats, and
    [(num_tokens * prob).ceil()] on a float32 tensor.  Their values can
    differ from the exact ceilings ([25 * 0.6] is [15.000001] in float32).
    [get_mask_subset_with_ceilings] is the function of lines 53-67 with the
    values of the two ceilings given: [max_masked], and [cutoff n] for a
    row of [n] tokens. *)
Definition get_mask_subset_with_ceilings (max_masked : Z) (cutoff : Z -> Z)
    (mask : list (list bool)) : M (list (list bool)) :=
  let seq_len := seq_len_of mask in
  let num_tokens := fmap count_true mask in
  let mask_excess :=
    zip_with (fun row n => fmap (fun c => cutoff n <? c) (cumsum row))
             mask num_tokens in
  let mask_excess := fmap (take (Z.to_nat max_masked)) mask_excess in
  u <- uniform_like mask ;;
  let rand := zip2d (fun x (m : bool) => if m then x else (-(1000000000#1))%Q)
                    u mask in
  sampled_indices <- lift (rows_result (topk max_masked) rand) ;;
  let sampled_indices :=
    zip2d (fun i (e : bool) => if e then 0%nat else S i)
          sampled_indices mask_excess in
  let new_mask := fmap (fun _ => replicate (S seq_len) 0%Q) mask in
  let new_mask := zip_with scatter_ones new_mask sampled_indices in
  ret (map2d to_bool (fmap (drop 1) new_mask)).

(** One row of it: the mask computed from the eligibility row [mrow] and
    its row [urow] of uniform draws, for the sequence length and the cap
    of the batch and the cut-off [c] of the row. *)
Definition subset_row (seq_len : nat) (max_masked : Z) (c : Z)
    (mrow : list bool) (urow : list Q) : list bool :=
  let mask_excess :=
    take (Z.to_nat max_masked) ((fun x => c <? x) <$> cumsum mrow) in
  let rand := zip_with (fun x (m : bool) => if m then x else (-(1000000000#1))%Q)
                       urow mrow in
  let sampled_indices := topk_indices (Z.to_nat max_masked) rand in
  let sampled_indices :=
    zip_with (fun i (e : bool) => if e then 0%nat else S i)
             sampled_indices mask_excess in
  to_bool <$> drop 1 (scatter_ones (replicate (S seq_len) 0%Q) sampled_indices).

(** The number of entries of [topk] that [mask_excess] leaves in a row:
    the positions [j < max_masked] whose [cumsum] does not exceed the
    cut-off [c] of the row. *)
Definition kept_entries (max_masked : Z) (c : Z) (mrow : list bool) : Z :=
  Z.of_nat
    (length
       (List.filter (fun x => negb (c <? x))
                    (take (Z.to_nat max_masked) (cumsum mrow)))).

(** A row of 25 tokens followed by 15 pads. *)
Definition text_25_pad_15 : list bool :=
  replicate 25 true ++ replicate 15 false.

(** Whether a priority is above the fill value of the ineligible
    positions. *)
Definition above_fill (p : Q * nat) : bool :=
  if Qlt_le_dec (-(1000000000#1)) p.1 then true else false.

(** The order [sort_desc] sorts by: descending priority. *)
Definition desc (p q : Q * nat) : Prop := (q.1 <= p.1)%Q.

(** *** [HiddenLayerExtractor]

    The wrapped network is external.  What the extractor uses of it is
    modelled by [Net]: the modules [named_modules()] and [children()]
    yield, each known by an identity, and the call [net(x)], which runs
    the forward hooks of the layers it calls.  [call] gives those layers
    with their outputs, in call order (the network itself, which
    [named_modules()] lists under the empty name, comes last when the
    call returns), and then the output of the network or the exception it
    raises. *)

Definition LayerId : Type := nat.

Record Net (X Y : Type) : Type := mkNet {
  named_modules : list (string * LayerId);
  children : list LayerId;
  call : X -> list (LayerId * Y) * (PyError + Y)
}.
Arguments mkNet {X Y} _ _ _.
Arguments named_modules {X Y} _.
Arguments children {X Y} _.
Arguments call {X Y} _ _.

(** The value of [self.layer]: a [str], an [int], or a value of another
    type (one that is not equal to [-1]), kept by its [str()]. *)
Inductive LayerRef : Type :=
| LayerName (name : string)
| LayerIndex (index : Z)
| LayerOther (repr : string).

(** [str(self.layer)], as the f-strings of the messages print it. *)
Definition layer_str (l : LayerRef) : string :=
  match l with
  | LayerName s => s
  | LayerIndex z => pretty z
  | LayerOther r => r
  end.

(** [l[z]] for a Python list: negative indices count from the end. *)
Definition py_index {A} (l : list A) (z : Z) : PyError + A :=
  let n := Z.of_nat (length l) in
  match l !! Z.to_nat (if z <? 0 then n + z else z) with
  | Some x => if (z <? - n) then inl IndexError else inr x
  | None => inl IndexError
  end.

(** [dict(pairs)]: a later pair replaces an earlier one with its key. *)
Definition py_dict {A} (pairs : list (string * A)) : gmap string A :=
  foldl (fun m (p : string * A) => <[p.1 := p.2]> m) ∅ pairs.

Module Extractor.

(** The attributes of a [HiddenLayerExtractor], and with them the layers
    of the network that carry a forward hook of this extractor (torch
    keeps the hooks in the layer). *)
Record t (Y : Type) : Type := mk {
  layer : LayerRef;
  hidden : option Y;
  hook_registered : bool;
  hooks : list LayerId
}.
Arguments mk {Y} _ _ _ _.
Arguments layer {Y} _.
Arguments hidden {Y} _.
Arguments hook_registered {Y} _.
Arguments hooks {Y} _.

(** [__init__(net, layer=-2)], lines 73-79. *)
Definition init {Y} (layer : LayerRef) : t Y := mk layer None false [].

(** [_find_layer], lines 81-88. *)
Definition _find_layer {X Y} (net : Net X Y) (self : t Y)
    : PyError + option LayerId :=
  match layer self with
  | LayerName name => inr (py_dict (named_modules net) !! name)
  | LayerIndex index =>
      match py_index (children net) index with
      | inl e => inl e
      | inr l => inr (Some l)
      end
  | LayerOther _ => inr None
  end.

(** [_register_hook], lines 93-97. *)
Definition _register_hook {X Y} (net : Net X Y) (self : t Y)
    : t Y * (PyError + unit) :=
  match _find_layer net self with
  | inl e => (self, inl e)
  | inr None =>
      (self, inl (PyAssertionError
                    ("hidden layer (" ++ layer_str (layer self) ++ ") not found")))
  | inr (Some l) =>
      (mk (layer self) (hidden self) true (hooks self ++ [l]), inr tt)
  end.

(** [self.net(x)]: every call of a layer that carries the hook runs
    [_hook] (lines 90-91), which stores the output of the layer; when the
    network raises, this has happened for the layers that ran. *)
Definition run_net {X Y} (net : Net X Y) (self : t Y) (x : X)
    : t Y * (PyError + Y) :=
  let (calls, out) := call net x in
  (mk (layer self)
      (foldl (fun h (c : LayerId * Y) =>
                if bool_decide (c.1 ∈ hooks self) then Some c.2 else h)
             (hidden self) calls)
      (hook_registered self) (hooks self),
   out).

(** [self.layer == -1] *)
Definition is_final (l : LayerRef) : bool :=
  match l with
  | LayerIndex z => z =? -1
  | _ => false
  end.

(** [forward], lines 99-110.  An exception of [self.net(x)] leaves the
    method at line 106, before [self.hidden] is reset. *)
Definition forward {X Y} (net : Net X Y) (self : t Y) (x : X)
    : t Y * (PyError + Y) :=
  if is_final (layer self) then run_net net self x
  else
    let (self, registered) :=
      if negb (hook_registered self) then _register_hook net self
      else (self, inr tt) in
    match registered with
    | inl e => (self, inl e)
    | inr _ =>
        match run_net net self x with
        | (self, inl e) => (self, inl e)
        | (self, inr _) =>
            let hidden_ := hidden self in
            let self :=
              mk (layer self) None (hook_registered self) (hooks self) in
            match hidden_ with
            | None =>
                (self, inl (PyAssertionError
                              ("hidden layer " ++ layer_str (layer self)
                               ++ " never emitted an output")))
            | Some h => (self, inr h)
            end
        end
    end.

(** The state after a sequence of [forward] calls, whatever they return
    or raise. *)
Definition after {X Y} (net : Net X Y) (self : t Y) (xs : list X) : t Y :=
  foldl (fun s x => (forward net s x).1) self xs.

End Extractor.

(** The output of the last call of layer [l] among [calls]. *)
Definition last_output {Y} (l : LayerId) (calls : list (LayerId * Y))
    : option Y :=
  snd <$> last (List.filter (fun c : LayerId * Y => (c.1 =? l)%nat) calls).

(** Whether [net(x)] returns. *)
Definition net_returns {X Y} (net : Net X Y) (x : X) : Prop :=
  match (call net x).2 with
  | inr _ => True
  | inl _ => False
  end.

(** What a hook on layer [l] holds after one more call, with [h] held
    before: the output of [l] when the network raised after [l] ran, and
    nothing when the network returned, as [forward] has reset it. *)
Definition captured {X Y} (net : Net X Y) (l : LayerId) (h : option Y) (x : X)
    : option Y :=
  match (call net x).2 with
  | inl _ =>
      match last_output l (call net x).1 with
      | Some y => Some y
      | None => h
      end
  | inr _ => None
  end.

(** The output left in [self.hidden] by the calls [xs]. *)
Definition stale_output {X Y} (net : Net X Y) (l : LayerId) (xs : list X)
    : option Y :=
  foldl (captured net l) None xs.

(** What a call returns for a hook on layer [l], with [h] left in
    [self.hidden] by the earlier calls. *)
Definition extracted {X Y} (net : Net X Y) (layer : LayerRef) (l : LayerId)
    (h : option Y) (x : X) : PyError + Y :=
  match (call net x).2 with
  | inl e => inl e
  | inr _ =>
      match last_output l (call net x).1 with
      | Some y => inr y
      | None =>
          match h with
          | Some y => inr y
          | None =>
              inl (PyAssertionError
                     ("hidden layer " ++ layer_str layer
                      ++ " never emitted an output"))
          end
      end
  end.

(** What holds of an extractor between calls: the network carries no hook
    of it and nothing is captured, or exactly one hook, on the layer
    [_find_layer] finds. *)
Definition extractor_inv {X Y} (net : Net X Y) (s : Extractor.t Y) : Prop :=
  match Extractor.hook_registered s with
  | true => Extractor.is_final (Extractor.layer s) = false /\
            exists l, Extractor._find_layer net s = inr (Some l)
                      /\ Extractor.hooks s = [l]
  | false => Extractor.hooks s = [] /\ Extractor.hidden s = None
  end.

(** A network of three layers in a row, known as [embed], [encoder] and
    [head].  The encoder is called twice in a forward pass; on [0] it is
    skipped, and on a negative input the head raises after the encoder
    ran once. *)
Definition three_layers : Net Z Z :=
  mkNet [("", 0%nat); ("embed", 1%nat); ("encoder", 2%nat); ("head", 3%nat)]
        [1%nat; 2%nat; 3%nat]
        (fun x =>
           if x <? 0 then
             ([(1%nat, x + 1); (2%nat, x + 2)],
              inl (TorchError (RuntimeError "size mismatch")))
           else if x =? 0 then
             ([(1%nat, 1); (3%nat, 5); (0%nat, 5)], inr 5)
           else
             ([(1%nat, x + 1); (2%nat, x + 2); (2%nat, x + 3);
               (3%nat, x + 4); (0%nat, x + 4)], inr (x + 4))).

(** *** [DiscriminatorMRCModel.forward]

    [logits] stands for [self.mrc_head(self.electra(input_ids))] of lines
    275-278, a tensor of shape [B,T,num_labels]; the positions are
    tensors of shape [B] (or [B,1], that lines 286-289 squeeze). *)

(** [x.clamp(lo, hi)] *)
Definition clamp (lo hi x : Z) : Z := Z.min (Z.max x lo) hi.

(** Chunk [k] of [logits.split(1, dim=-1)], after [squeeze(-1)]. *)
Definition split_squeeze (k : nat) (logits : list (list (list R)))
    : list (list R) :=
  map2d (fun v : list R => nth k v 0%R) logits.

Definition halve (x : option R) : option R :=
  x ≫= fun v => Some (v / 2)%R.

Inductive MRCOutput : Type :=
| TotalLoss (total_loss : option R)
| StartEndLogits (start_logits end_logits : list (list R)).

(** What a call leaves: the position tensors of the caller, that
    [clamp_] changes in place, and the value returned or the exception. *)
Record MRCCall : Type := mkMRCCall {
  start_positions_after : option (list Z);
  end_positions_after : option (list Z);
  returned : PyError + MRCOutput
}.

(** [forward], lines 269-301.  Unpacking the chunks into two names raises
    [ValueError] unless there are two of them. *)
Definition DiscriminatorMRCModel_forward (num_labels : nat)
    (logits : list (list (list R)))
    (start_positions end_positions : option (list Z)) : MRCCall :=
  if negb (num_labels =? 2)%nat then
    mkMRCCall start_positions end_positions (inl ValueError)
  else
    let start_logits := split_squeeze 0 logits in
    let end_logits := split_squeeze 1 logits in
    match start_positions, end_positions with
    | Some start_positions, Some end_positions =>
        let ignored_index := Z.of_nat (seq_len_of start_logits) in
        let start_positions := clamp 0 ignored_index <$> start_positions in
        let end_positions := clamp 0 ignored_index <$> end_positions in
        mkMRCCall (Some start_positions) (Some end_positions)
          match cross_entropy [start_logits] [start_positions] ignored_index with
          | Raise e => inl (TorchError e)
          | Ok start_loss =>
              match cross_entropy [end_logits] [end_positions] ignored_index with
              | Raise e => inl (TorchError e)
              | Ok end_loss => inr (TotalLoss (halve (plus start_loss end_loss)))
              end
          end
    | _, _ =>
        mkMRCCall start_positions end_positions
                  (inr (StartEndLogits start_logits end_logits))
    end.

(** The terms a span loss averages: one for every example whose position,
    raised to [0] when negative, is below [T]. *)
Definition span_terms (T : Z) (rows : list (list R)) (positions : list Z)
    : list R :=
  omap (fun p : list R * Z =>
          let c := Z.max 0 p.2 in
          if c <? T
          then Some (ln (Rsum (exp <$> p.1)) - nth (Z.to_nat c) p.1 0)%R
          else None)
       (zip rows positions).

(** Logits of two examples over three tokens. *)
Definition mrc_logits : list (list (list R)) :=
  [[[1; 0]; [0; 2]; [0; 0]]; [[0; 0]; [3; 0]; [0; 1]]]%R.


(** *** [ReformerTrainer] of [src/pretrain/electra-model.py]

    The model, the optimizer and the data loaders are external, and taken
    not to raise.  What [train] does with them is kept as a trace of
    events; the losses [self.model(inputs, labels)] returns are given, one
    per batch, and stand for [loss.item()].  The file system is given by
    [Files]: which paths are directories, and at which paths a file can
    be written ([open] for writing or appending, [torch.save]); it does
    not change during a run.  [FileError] stands for the exception a
    failed write raises. *)

Module Trainer.

Record Files : Type := mkFiles {
  isdir : string -> bool;
  writable : string -> bool
}.

(** [self.log_dir] and the arguments of [train]. *)
Record Args : Type := mkArgs {
  log_dir : string;
  ckpt_dir : option string;
  log_steps : Z;
  ckpt_steps : Z;
  gradient_accumulation_steps : Z
}.

(** [str(x)] in an f-string, for a string or [None]. *)
Definition py_str (x : option string) : string :=
  match x with
  | Some s => s
  | None => "None"
  end.

Definition train_results_path (a : Args) : string :=
  log_dir a ++ "/electra_train_results.json".

Definition eval_results_path (a : Args) : string :=
  log_dir a ++ "/electra_eval_results.txt".

Definition model_path (a : Args) : string :=
  py_str (ckpt_dir a) ++ "/electra_model_state_dict.pt".

Definition optimizer_path (a : Args) : string :=
  py_str (ckpt_dir a) ++ "/electra_optimizer_state_dict.pt".

(** The local variables of [evaluate], lines 163-165, and the lines
    logged: step, running eval loss, running perplexity. *)
Record eval_state : Type := mk_eval {
  eval_loss : R;
  perplexity : R;
  eval_steps : Z;
  logged : list (Z * R * R)
}.

(** The body of the loop of [evaluate], lines 173-195, for a scalar
    loss. *)
Definition evaluate_batch (files : Files) (a : Args)
    (s : eval_state) (step : Z) (loss : R) : PyError + eval_state :=
  let tmp_eval_loss := loss in
  let tmp_perplexity := exp tmp_eval_loss in
  let eval_loss := (eval_loss s + tmp_eval_loss)%R in
  let perplexity := (perplexity s + tmp_perplexity)%R in
  let eval_steps := eval_steps s + 1 in
  if eval_steps =? 0 then inl ZeroDivisionError
  else
    let total_eval_loss := (eval_loss / IZR eval_steps)%R in
    let total_perplexity := (perplexity / IZR eval_steps)%R in
    if writable files (eval_results_path a) then
      inr (mk_eval eval_loss perplexity eval_steps
                   (logged s ++ [(step, total_eval_loss, total_perplexity)]))
    else inl (FileError (eval_results_path a)).

Fixpoint evaluate_from (files : Files) (a : Args)
    (s : eval_state) (step : Z) (batches : list R) : PyError + eval_state :=
  match batches with
  | [] => inr s
  | loss :: batches' =>
      match evaluate_batch files a s step loss with
      | inl e => inl e
      | inr s' => evaluate_from files a s' (step + 1) batches'
      end
  end.

(** [evaluate], lines 155-197, with the losses of the batches of the
    data loader: the lines it logs. *)
Definition evaluate (files : Files) (a : Args) (batches : list R)
    : PyError + list (Z * R * R) :=
  match evaluate_from files a (mk_eval 0 0 0 []) 0 batches with
  | inl e => inl e
  | inr s => inr (logged s)
  end.

Inductive Event : Type :=
| Backward (loss : R)
| OptimizerStep
| TrainLog (train_loss : R) (steps : Z)
| DumpLosses (path : string) (losses : gmap Z R)
| SaveModel (path : string)
| SaveOptimizer (path : string)
| Evaluate (lines : list (Z * R * R)).

(** The local variables of [train], lines 79-82, and the trace. *)
Record state : Type := mk {
  losses : gmap Z R;
  global_steps : Z;
  local_steps : Z;
  step_loss : R;
  trace : list Event
}.

Definition init : state := mk ∅ 0 0 0%R [].

Definition emit (e : Event) (s : state) : state :=
  mk (losses s) (global_steps s) (local_steps s) (step_loss s)
     (trace s ++ [e]).

(** The two [torch.save] calls of lines 141-142 and 150-151. *)
Definition save_checkpoint (files : Files) (a : Args) (s : state)
    : state * option PyError :=
  if writable files (model_path a) then
    let s := emit (SaveModel (model_path a)) s in
    if writable files (optimizer_path a) then
      (emit (SaveOptimizer (optimizer_path a)) s, None)
    else (s, Some (FileError (optimizer_path a)))
  else (s, Some (FileError (model_path a))).

(** The body of the inner loop, lines 113-144.  [%] and [/] raise
    [ZeroDivisionError] on a zero divisor. *)
Definition train_batch (files : Files) (a : Args) (s : state) (loss : R)
    : state * option PyError :=
  let s := emit (Backward loss) s in
  let s := mk (<[global_steps s := loss]> (losses s))
              (global_steps s + 1) (local_steps s + 1)
              (step_loss s + loss)%R (trace s) in
  if gradient_accumulation_steps a =? 0 then (s, Some ZeroDivisionError)
  else
    let s := if global_steps s mod gradient_accumulation_steps a =? 0
             then emit OptimizerStep s else s in
    if log_steps a =? 0 then (s, Some ZeroDivisionError)
    else
      let logged :=
        if global_steps s mod log_steps a =? 0 then
          if local_steps s =? 0 then (s, Some ZeroDivisionError)
          else
            let s := emit (TrainLog (step_loss s / IZR (local_steps s))%R
                                    (global_steps s)) s in
            if writable files (train_results_path a) then
              (mk (losses s) (global_steps s) 0 0%R
                  (trace s ++ [DumpLosses (train_results_path a) (losses s)]),
               None)
            else (s, Some (FileError (train_results_path a)))
        else (s, None) in
      match logged with
      | (s, Some e) => (s, Some e)
      | (s, None) =>
          if ckpt_steps a =? 0 then (s, Some ZeroDivisionError)
          else if global_steps s mod ckpt_steps a =? 0
               then save_checkpoint files a s
               else (s, None)
      end.

(** The inner loop over the batches of one epoch, lines 112-144. *)
Fixpoint train_batches (files : Files) (a : Args) (s : state)
    (batches : list R) : state * option PyError :=
  match batches with
  | [] => (s, None)
  | loss :: batches' =>
      match train_batch files a s loss with
      | (s', None) => train_batches files a s' batches'
      | r => r
      end
  end.

(** The loop over the epochs, lines 105-147: the batches of the epoch,
    then [self.evaluate(eval_dataloader)].  An epoch is given by the
    losses of its training batches and of its evaluation batches. *)
Fixpoint train_epochs (files : Files) (a : Args) (s : state)
    (epochs : list (list R * list R)) : state * option PyError :=
  match epochs with
  | [] => (s, None)
  | (batches, eval_batches) :: epochs' =>
      match train_batches files a s batches with
      | (s', None) =>
          match evaluate files a eval_batches with
          | inl e => (s', Some e)
          | inr lines => train_epochs files a (emit (Evaluate lines) s') epochs'
          end
      | r => r
      end
  end.

(** [train], lines 69-153.  Line 85 asserts that a [ckpt_dir] that is
    given is a directory; loading the checkpoint, lines 86-91, is inside
    a [try] and raises nothing.  [range(epochs)] is empty for
    [epochs <= 0].  The state dicts are saved once more after the last
    epoch. *)
Definition train (files : Files) (a : Args) (epochs : Z)
    (train_dataloader eval_dataloader : nat -> list R)
    : state * option PyError :=
  if match ckpt_dir a with
     | Some d => isdir files d
     | None => true
     end
  then
    match train_epochs files a init
            ((fun e => (train_dataloader e, eval_dataloader e))
               <$> seq 0 (Z.to_nat epochs)) with
    | (s, None) => save_checkpoint files a s
    | r => r
    end
  else (init, Some (PyAssertionError "")).

End Trainer.

(** All the training losses of a run, in the order of the batches. *)
Definition all_losses (epochs : Z) (train_dataloader : nat -> list R)
    : list R :=
  concat (train_dataloader <$> seq 0 (Z.to_nat epochs)).

Definition is_optimizer_step (e : Trainer.Event) : bool :=
  match e with Trainer.OptimizerStep => true | _ => false end.

Definition is_checkpoint (e : Trainer.Event) : bool :=
  match e with Trainer.SaveModel _ => true | _ => false end.

Definition is_evaluate (e : Trainer.Event) : bool :=
  match e with Trainer.Evaluate _ => true | _ => false end.

Definition is_train_log (e : Trainer.Event) : bool :=
  match e with Trainer.TrainLog _ _ => true | _ => false end.

(** How often an event of a kind occurs in a trace. *)
Definition occurrences (kind : Trainer.Event -> bool)
    (trace : list Trainer.Event) : Z :=
  Z.of_nat (length (List.filter kind trace)).

(** The [n] losses before step [g]. *)
Definition window (n g : Z) (l : list R) : list R :=
  take (Z.to_nat n) (drop (Z.to_nat (g - n)) l).

(** The check of line 85 passes. *)
Definition ckpt_dir_ok (files : Trainer.Files) (a : Trainer.Args) : Prop :=
  match Trainer.ckpt_dir a with
  | Some d => Trainer.isdir files d = true
  | None => True
  end.

(** Every file [train] and [evaluate] write can be written. *)
Definition files_writable (files : Trainer.Files) (a : Trainer.Args) : Prop :=
  Trainer.writable files (Trainer.train_results_path a) = true
  /\ Trainer.writable files (Trainer.eval_results_path a) = true
  /\ Trainer.writable files (Trainer.model_path a) = true
  /\ Trainer.writable files (Trainer.optimizer_path a) = true.

(** Two epochs of three batches each. *)
Definition two_epochs (e : nat) : list R :=
  match e with
  | O => [4; 3; 5]%R
  | _ => [2; 1; 3]%R
  end.

(** One evaluation batch per epoch. *)
Definition one_eval (e : nat) : list R := [1%R].

(** A file system in which [ckpts] is a directory and every file can be
    written that is not in a directory called [None]. *)
Definition some_files : Trainer.Files :=
  Trainer.mkFiles
    (fun d => String.eqb d "ckpts")
    (fun p => negb (String.prefix "None/" p)).

Definition args (log_steps ckpt_steps gradient_accumulation_steps : Z)
    : Trainer.Args :=
  Trainer.mkArgs "../logs" (Some "ckpts")
                 log_steps ckpt_steps gradient_accumulation_steps.

(** What holds of the variables and the trace of [train] at any point of
    a run, also one that has raised, with [all] the losses of the run:
    the training loss was logged once every [log_steps] steps, each time
    the mean of the [log_steps] losses before. *)
Definition train_logs_inv (a : Trainer.Args) (all : list R)
    (s : Trainer.state) : Prop :=
  0 <= Trainer.global_steps s <= Z.of_nat (length all)
  /\ occurrences is_train_log (Trainer.trace s)
     = Trainer.global_steps s / Trainer.log_steps a
  /\ Forall (fun e =>
               match e with
               | Trainer.TrainLog v g =>
                   0 < g <= Trainer.global_steps s
                   /\ g mod Trainer.log_steps a = 0
                   /\ v = (Rsum (window (Trainer.log_steps a) g all)
                           / IZR (Trainer.log_steps a))%R
               | _ => True
               end) (Trainer.trace s).

(** What holds after [n] whole batches and [m] evaluations. *)
Definition train_inv (a : Trainer.Args) (all : list R) (n : nat) (m : Z)
    (s : Trainer.state) : Prop :=
  Trainer.global_steps s = Z.of_nat n
  /\ Trainer.local_steps s = Z.of_nat n mod Trainer.log_steps a
  /\ Trainer.step_loss s
     = Rsum (window (Trainer.local_steps s) (Z.of_nat n) all)
  /\ (forall k : Z,
        Trainer.losses s !! k
        = if (0 <=? k) && (k <? Z.of_nat n) then all !! Z.to_nat k else None)
  /\ occurrences is_optimizer_step (Trainer.trace s)
     = Z.of_nat n / Trainer.gradient_accumulation_steps a
  /\ occurrences is_checkpoint (Trainer.trace s)
     = Z.of_nat n / Trainer.ckpt_steps a
  /\ occurrences is_evaluate (Trainer.trace s) = m
  /\ train_logs_inv a all s.

(** The line [evaluate] logs at step [i] of a run over [batches]: the
    means of the losses, and of their exponentials, up to that step. *)
Definition eval_line (batches : list R) (i : nat) : Z * R * R :=
  (Z.of_nat i,
   (Rsum (take (S i) batches) / IZR (Z.of_nat i + 1))%R,
   (Rsum (exp <$> take (S i) batches) / IZR (Z.of_nat i + 1))%R).

(** * Properties *)

(** ** Shapes and element-wise access *)

Lemma at2_Some {A} (t : list (list A)) b i x :
  at2 t b i = Some x <-> exists row, t !! b = Some row /\ row !! i = Some x.
Proof.
  unfold at2. destruct (t !! b) as [row|]; simpl; split.
  - intros H. exists row. auto.
  - intros (row' & Hr & Hx). congruence.
  - discriminate.
  - intros (row' & Hr & _). discriminate.
Qed.

Lemma at2_map2d {A B} (f : A -> B) t b i :
  at2 (map2d f t) b i = f <$> at2 t b i.
Proof.
  unfold at2, map2d. rewrite list_lookup_fmap.
  destruct (t !! b) as [row|]; simpl; [apply list_lookup_fmap | reflexivity].
Qed.

Lemma at2_zip2d {A B C} (f : A -> B -> C) s t b i :
  at2 (zip2d f s t) b i =
  match at2 s b i, at2 t b i with
  | Some x, Some y => Some (f x y)
  | _, _ => None
  end.
Proof.
  unfold at2, zip2d. rewrite lookup_zip_with.
  destruct (s !! b) as [r1|]; simpl; [|reflexivity].
  destruct (t !! b) as [r2|]; simpl.
  - rewrite lookup_zip_with.
    destruct (r1 !! i); simpl; [|reflexivity].
    destruct (r2 !! i); reflexivity.
  - destruct (r1 !! i); reflexivity.
Qed.

Lemma shape_map2d {A B} (f : A -> B) t : shape (map2d f t) = shape t.
Proof.
  unfold shape, map2d. rewrite <- list_fmap_compose.
  apply list_fmap_ext. intros _ row _. simpl. apply length_fmap.
Qed.

Lemma shape_zip2d {A B C} (f : A -> B -> C) s t :
  shape s = shape t -> shape (zip2d f s t) = shape s.
Proof.
  unfold shape, zip2d. revert t.
  induction s as [|r s IH]; intros [|r' t] H; simpl in *; try discriminate.
  - reflexivity.
  - injection H as Hl Ht. f_equal.
    + rewrite length_zip_with. lia.
    + apply IH, Ht.
Qed.

Lemma shape_cons {A} (r : list A) t : shape (r :: t) = length r :: shape t.
Proof. reflexivity. Qed.

Lemma shape_lookup {A} (t : list (list A)) b :
  shape t !! b = length <$> t !! b.
Proof. apply list_lookup_fmap. Qed.

Lemma at2_is_Some_shape {A B} (s : list (list A)) (t : list (list B)) b i :
  shape s = shape t -> is_Some (at2 s b i) -> is_Some (at2 t b i).
Proof.
  intros Hs [x Hx]. apply at2_Some in Hx as (row & Hb & Hi).
  assert (Hl : shape t !! b = Some (length row)).
  { rewrite <- Hs, shape_lookup, Hb. reflexivity. }
  rewrite shape_lookup in Hl.
  destruct (t !! b) as [row'|] eqn:Hb'; simpl in Hl; [|discriminate].
  injection Hl as Hl.
  apply lookup_lt_Some in Hi.
  destruct (lookup_lt_is_Some_2 row' i) as [y Hy]; [lia|].
  exists y. apply at2_Some. eauto.
Qed.

(** [masked_fill] position by position. *)
Lemma at2_masked_fill {A} (t : list (list A)) mask v b i x (m : bool) :
  at2 t b i = Some x -> at2 mask b i = Some m ->
  at2 (masked_fill t mask v) b i = Some (if m then v else x).
Proof.
  intros Hx Hm. unfold masked_fill. rewrite at2_zip2d, Hx, Hm. reflexivity.
Qed.

(** ** [mask_with_tokens] marks exactly the positions holding a listed id *)

Lemma zip2d_map2d {A B C D} (f : B -> C -> D) (g : A -> B) (h : A -> C) t :
  zip2d f (map2d g t) (map2d h t) = map2d (fun x => f (g x) (h x)) t.
Proof.
  unfold zip2d, map2d. induction t as [|row t IH]; simpl; [reflexivity|].
  f_equal; [|apply IH].
  induction row as [|x row IHr]; simpl; [reflexivity|]. f_equal. apply IHr.
Qed.

Lemma map2d_ext {A B} (f g : A -> B) t :
  (forall x, f x = g x) -> map2d f t = map2d g t.
Proof.
  intros H. unfold map2d. apply list_fmap_ext. intros _ row _.
  apply list_fmap_ext. intros _ x _. apply H.
Qed.

Lemma mask_with_tokens_spec (t : list (list Z)) (token_ids : gset Z) :
  mask_with_tokens t token_ids = map2d (listed token_ids) t.
Proof.
  unfold mask_with_tokens.
  apply (set_fold_ind_L (fun acc X => acc = map2d (listed X) t)).
  - apply map2d_ext. intros x. symmetry. apply bool_decide_eq_false.
    apply not_elem_of_empty.
  - intros el X acc Hel ->. rewrite zip2d_map2d. apply map2d_ext. intros x.
    unfold listed. destruct (Z.eqb_spec el x) as [->|Hne].
    + rewrite orb_true_r. symmetry. apply bool_decide_eq_true.
      apply elem_of_union_l, elem_of_singleton. reflexivity.
    + rewrite orb_false_r. apply bool_decide_ext.
      rewrite elem_of_union, elem_of_singleton. intuition congruence.
Qed.

Lemma shape_mask_with_tokens t ids : shape (mask_with_tokens t ids) = shape t.
Proof. rewrite mask_with_tokens_spec. apply shape_map2d. Qed.

(** ** The random generator *)

Lemma uniform_like_spec {A} (t : list (list A)) w :
  exists w' u, uniform_like t w = (w', Ok u) /\ shape u = shape t
               /\ trace w' = trace w.
Proof.
  revert w. induction t as [|r t IH]; intros w; simpl.
  - exists w, []. auto.
  - unfold bind at 1. simpl.
    destruct (IH (mkWorld (fun i => rng w (length r + i)%nat) (trace w)))
      as (w' & us & Hu & Hs & Ht).
    unfold bind at 1. rewrite Hu. unfold ret.
    eexists _, _. split; [reflexivity|]. split.
    + rewrite !shape_cons, length_fmap, length_seq, Hs. reflexivity.
    + exact Ht.
Qed.

Lemma prob_mask_like_spec {A} (t : list (list A)) prob w :
  exists w' m, prob_mask_like t prob w = (w', Ok m) /\ shape m = shape t
               /\ trace w' = trace w.
Proof.
  unfold prob_mask_like, bind.
  destruct (uniform_like_spec t w) as (w' & u & -> & Hs & Ht).
  eexists _, _. split; [reflexivity|]. rewrite shape_map2d. auto.
Qed.

(** ** The masking engine *)

Section Topk.

Lemma insert_desc_perm p l : insert_desc p l ≡ₚ p :: l.
Proof.
  induction l as [|q l IH]; simpl; [reflexivity|].
  destruct (Qgeb p.1 q.1); [reflexivity|].
  rewrite IH. apply Permutation_swap.
Qed.

Lemma sort_desc_perm l : sort_desc l ≡ₚ l.
Proof.
  induction l as [|p l IH]; simpl; [reflexivity|].
  rewrite insert_desc_perm, IH. reflexivity.
Qed.

Lemma snd_zip_seq {A} (row : list A) n :
  snd <$> zip row (seq n (length row)) = seq n (length row).
Proof.
  revert n. induction row as [|x row IH]; intros n; simpl; [reflexivity|].
  f_equal. apply IH.
Qed.

Lemma length_topk_indices k row :
  (k <= length row)%nat -> length (topk_indices k row) = k.
Proof.
  intros Hk. unfold topk_indices.
  rewrite length_fmap, length_take, (Permutation_length (sort_desc_perm _)).
  rewrite length_zip_with, length_seq. lia.
Qed.

(** Asked for as many entries as the row has, [topk] returns every
    position, whatever the priorities and the order among equal ones. *)
Lemma topk_indices_all row :
  topk_indices (length row) row ≡ₚ seq 0 (length row).
Proof.
  unfold topk_indices. rewrite take_ge.
  - rewrite sort_desc_perm. rewrite snd_zip_seq. reflexivity.
  - rewrite (Permutation_length (sort_desc_perm _)).
    rewrite length_zip_with, length_seq. lia.
Qed.

Lemma topk_indices_lt k row i :
  i ∈ topk_indices k row -> (i < length row)%nat.
Proof.
  unfold topk_indices. intros Hi.
  apply list_elem_of_fmap in Hi as (p & -> & Hp).
  apply elem_of_take in Hp as (j & Hj & _).
  apply list_elem_of_lookup_2 in Hj.
  rewrite sort_desc_perm in Hj.
  assert (Hs : p.2 ∈ snd <$> zip row (seq 0 (length row))).
  { apply list_elem_of_fmap. eauto. }
  rewrite snd_zip_seq in Hs. apply elem_of_seq in Hs. lia.
Qed.

End Topk.

Section Scatter.

Lemma length_scatter_ones base idx :
  length (scatter_ones base idx) = length base.
Proof.
  unfold scatter_ones. revert base.
  induction idx as [|i idx IH]; intros base; simpl; [reflexivity|].
  rewrite IH. apply length_insert.
Qed.

Lemma scatter_ones_notin base idx j :
  j ∉ idx -> scatter_ones base idx !! j = base !! j.
Proof.
  unfold scatter_ones. revert base.
  induction idx as [|i idx IH]; intros base Hj; simpl; [reflexivity|].
  apply not_elem_of_cons in Hj as [Hne Hj].
  rewrite IH by exact Hj. apply list_lookup_insert_ne. congruence.
Qed.

Lemma scatter_ones_keeps_one base idx j :
  base !! j = Some 1%Q -> scatter_ones base idx !! j = Some 1%Q.
Proof.
  unfold scatter_ones. revert base.
  induction idx as [|i idx IH]; intros base Hj; simpl; [exact Hj|].
  apply IH. destruct (decide (i = j)) as [->|Hne].
  - apply list_lookup_insert_eq. eapply lookup_lt_Some, Hj.
  - rewrite list_lookup_insert_ne by exact Hne. exact Hj.
Qed.

Lemma scatter_ones_in base idx j :
  j ∈ idx -> (j < length base)%nat -> scatter_ones base idx !! j = Some 1%Q.
Proof.
  unfold scatter_ones. revert base.
  induction idx as [|i idx IH]; intros base Hj Hlt; simpl.
  - apply elem_of_nil in Hj. contradiction.
  - destruct (decide (j = i)) as [->|Hne].
    + apply scatter_ones_keeps_one. apply list_lookup_insert_eq. exact Hlt.
    + apply elem_of_cons in Hj as [Hj|Hj]; [contradiction|].
      apply IH; [exact Hj|]. rewrite length_insert. exact Hlt.
Qed.

(** Every entry of the scattered row is the entry of the base or one. *)
Lemma scatter_ones_lookup base idx j x :
  scatter_ones base idx !! j = Some x -> base !! j = Some x \/ x = 1%Q.
Proof.
  intros H. destruct (decide (j ∈ idx)) as [Hin|Hnin].
  - right. rewrite scatter_ones_in in H; [congruence|exact Hin|].
    rewrite <- (length_scatter_ones base idx). eapply lookup_lt_Some, H.
  - left. rewrite scatter_ones_notin in H; assumption.
Qed.

End Scatter.

Section Counting.

Lemma count_true_nonneg m : 0 <= count_true m.
Proof. induction m as [|[] m IH]; cbn; lia. Qed.

Lemma count_true_le_length m : count_true m <= Z.of_nat (length m).
Proof. induction m as [|[] m IH]; cbn; lia. Qed.

Lemma count_true_insert (base : list Q) i :
  count_true (to_bool <$> <[i := 1%Q]> base)
  <= count_true (to_bool <$> base) + 1.
Proof.
  revert i. induction base as [|x base IH]; intros [|i]; cbn; try lia.
  - destruct (to_bool 1), (to_bool x); lia.
  - rewrite <- Z.add_assoc. apply Z.add_le_mono_l, IH.
Qed.

Lemma count_true_scatter base idx :
  count_true (to_bool <$> scatter_ones base idx)
  <= count_true (to_bool <$> base) + Z.of_nat (length idx).
Proof.
  unfold scatter_ones. revert base.
  induction idx as [|i idx IH]; intros base; cbn; [lia|].
  specialize (IH (<[i := 1%Q]> base)).
  pose proof (count_true_insert base i). lia.
Qed.

Lemma count_true_zeros n : count_true (to_bool <$> replicate n 0%Q) = 0.
Proof. induction n as [|n IH]; cbn; [reflexivity|]. rewrite IH. reflexivity. Qed.

Lemma count_true_drop1 m : count_true (drop 1 m) <= count_true m.
Proof. destruct m as [|[] m]; cbn; rewrite ?drop_0; lia. Qed.

Lemma count_true_all {A} (m : list A) :
  count_true ((fun _ => true) <$> m) = Z.of_nat (length m).
Proof. induction m as [|b m IH]; cbn; [reflexivity|]. rewrite IH. lia. Qed.

End Counting.

Lemma rows_result_Ok {A B} (f : A -> result B) t ys :
  rows_result f t = Ok ys -> Forall2 (fun x y => f x = Ok y) t ys.
Proof.
  revert ys. induction t as [|x t IH]; intros ys H; simpl in H.
  - injection H as <-. constructor.
  - destruct (f x) as [y|e] eqn:Hx; [|discriminate].
    destruct (rows_result f t) as [ys'|e]; [|discriminate].
    injection H as <-. constructor; [exact Hx|]. apply IH. reflexivity.
Qed.

Lemma rows_result_Forall2 {A B} (f : A -> result B) t ys :
  Forall2 (fun x y => f x = Ok y) t ys -> rows_result f t = Ok ys.
Proof.
  induction 1 as [|x y t ys Hx _ IH]; simpl; [reflexivity|].
  rewrite Hx, IH. reflexivity.
Qed.

Lemma topk_Ok k row idx :
  topk k row = Ok idx ->
  0 <= k <= Z.of_nat (length row) /\ idx = topk_indices (Z.to_nat k) row.
Proof.
  unfold topk. intros H.
  destruct (k <? 0) eqn:H0; simpl in H; [discriminate|].
  destruct (Z.of_nat (length row) <? k) eqn:H1; [discriminate|].
  injection H as <-. apply Z.ltb_ge in H0, H1. auto.
Qed.

(** What [get_mask_subset_with_prob] returns, when it returns: the generator
    state is advanced, nothing is traced, and every row of the result is
    the scatter of at most [max_masked] indices. *)
Lemma get_mask_subset_with_prob_Ok mask prob w w' r :
  get_mask_subset_with_prob mask prob w = (w', Ok r) ->
  trace w' = trace w /\
  length r = length mask /\
  forall b row, r !! b = Some row ->
    exists idx,
      Z.of_nat (length idx) <= max_masked_of prob (seq_len_of mask) /\
      row = to_bool <$> drop 1 (scatter_ones (replicate (S (seq_len_of mask)) 0%Q) idx).
Proof.
  unfold get_mask_subset_with_prob, bind.
  destruct (uniform_like_spec mask w) as (w1 & u & -> & Hu & Ht).
  unfold lift.
  fold (max_masked_of prob (seq_len_of mask)).
  set (k := max_masked_of prob (seq_len_of mask)).
  set (rand := zip2d _ u mask).
  destruct (rows_result (topk k) rand) as [idxs|e] eqn:Hk; [|discriminate].
  unfold ret. intros H. injection H as <- <-.
  split; [exact Ht|].
  apply rows_result_Ok in Hk.
  assert (Hlen : length idxs = length mask).
  { apply Forall2_length in Hk. rewrite <- Hk. unfold rand, zip2d.
    rewrite length_zip_with.
    assert (length u = length mask).
    { unfold shape in Hu. apply (f_equal length) in Hu.
      rewrite !length_fmap in Hu. exact Hu. }
    lia. }
  split.
  { unfold map2d. rewrite !length_fmap, length_zip_with, length_fmap.
    unfold zip2d. rewrite length_zip_with, length_fmap, length_zip_with, length_fmap.
    lia. }
  intros b row Hb.
  unfold map2d in Hb. rewrite !list_lookup_fmap, lookup_zip_with in Hb.
  rewrite list_lookup_fmap in Hb.
  destruct (mask !! b) as [mrow|] eqn:Hm; simpl in Hb; [|discriminate].
  unfold zip2d in Hb. rewrite lookup_zip_with in Hb.
  destruct (idxs !! b) as [idx|] eqn:Hi; simpl in Hb; [|discriminate].
  match type of Hb with
  | context [?l !! b] => destruct (l !! b) as [exc|] eqn:He
  end; simpl in Hb; [|discriminate].
  injection Hb as <-.
  eexists. split; [|reflexivity].
  rewrite length_zip_with.
  destruct (Forall2_lookup_r _ _ _ _ _ Hk Hi) as (rrow & _ & Htop).
  apply topk_Ok in Htop as [Hrange ->].
  rewrite length_topk_indices by lia. lia.
Qed.

(** The count bound of the masking engine: every row of the returned mask
    has at most [ceil(prob * seq_len)] true positions. *)
Lemma get_mask_subset_with_prob_count mask prob w w' r b row :
  get_mask_subset_with_prob mask prob w = (w', Ok r) ->
  r !! b = Some row ->
  count_true row <= max_masked_of prob (seq_len_of mask).
Proof.
  intros H Hb.
  apply get_mask_subset_with_prob_Ok in H as (_ & _ & H).
  destruct (H b row Hb) as (idx & Hlen & ->).
  etransitivity; [|exact Hlen].
  rewrite fmap_drop.
  etransitivity; [apply count_true_drop1|].
  etransitivity; [apply count_true_scatter|].
  rewrite count_true_zeros. lia.
Qed.

(** *** When the cap equals the sequence length, every position is selected *)

Section SelectAll.

Lemma length_cumsum_from acc m : length (cumsum_from acc m) = length m.
Proof.
  revert acc. induction m as [|b m IH]; intros acc; simpl; [reflexivity|].
  rewrite IH. reflexivity.
Qed.

Lemma cumsum_from_le acc m c :
  c ∈ cumsum_from acc m -> c <= acc + count_true m.
Proof.
  revert acc. induction m as [|b m IH]; intros acc Hc; simpl in *.
  - apply elem_of_nil in Hc. contradiction.
  - pose proof (count_true_nonneg m).
    apply elem_of_cons in Hc as [->|Hc].
    + lia.
    + apply IH in Hc. lia.
Qed.

(** No position is in excess when [ceil(num_tokens * prob)] reaches the
    number of eligible positions. *)
Lemma mask_excess_none (mrow : list bool) prob :
  count_true mrow <= Qceiling (inject_Z (count_true mrow) * prob) ->
  (fun c => Qceiling (inject_Z (count_true mrow) * prob) <? c) <$> cumsum mrow
  = replicate (length mrow) false.
Proof.
  intros Hle.
  rewrite <- (length_cumsum_from 0 mrow). fold (cumsum mrow).
  generalize (cumsum_from_le 0 mrow). fold (cumsum mrow).
  generalize (cumsum mrow). intros l Hl.
  induction l as [|c l IH]; simpl; [reflexivity|]. f_equal.
  - apply Z.ltb_ge. specialize (Hl c). rewrite elem_of_cons in Hl.
    specialize (Hl (or_introl eq_refl)). lia.
  - apply IH. intros c' Hc'. apply Hl. apply elem_of_cons. auto.
Qed.

Lemma zip_with_no_excess (idx : list nat) :
  zip_with (fun i (e : bool) => if e then 0%nat else S i) idx
           (replicate (length idx) false)
  = S <$> idx.
Proof. induction idx as [|i idx IH]; simpl; [reflexivity|]. f_equal. exact IH. Qed.

Lemma scatter_all (T : nat) (idx : list nat) :
  idx ≡ₚ seq 0 T ->
  scatter_ones (replicate (S T) 0%Q) (S <$> idx) = 0%Q :: replicate T 1%Q.
Proof.
  intros Hp. apply list_eq. intros [|j].
  - rewrite scatter_ones_notin; [reflexivity|].
    intros Hin. apply list_elem_of_fmap in Hin as (i & Hi & _). discriminate.
  - simpl. destruct (decide (j < T)%nat) as [Hlt|Hge].
    + rewrite scatter_ones_in.
      * symmetry. apply lookup_replicate. auto.
      * apply list_elem_of_fmap. exists j. split; [reflexivity|].
        rewrite Hp. apply elem_of_seq. lia.
      * simpl. rewrite length_replicate. lia.
    + rewrite scatter_ones_notin.
      * simpl. transitivity (@None Q).
        -- apply lookup_replicate_None. lia.
        -- symmetry. apply lookup_replicate_None. lia.
      * intros Hin. apply list_elem_of_fmap in Hin as (i & Hi & Hin).
        injection Hi as <-. rewrite Hp in Hin. apply elem_of_seq in Hin. lia.
Qed.

Lemma row_select_all (mrow : list bool) (rrow : list Q) prob :
  length rrow = length mrow ->
  count_true mrow <= Qceiling (inject_Z (count_true mrow) * prob) ->
  to_bool <$> drop 1
    (scatter_ones (replicate (S (length mrow)) 0%Q)
       (zip_with (fun i (e : bool) => if e then 0%nat else S i)
          (topk_indices (length mrow) rrow)
          (take (length mrow)
             ((fun c => Qceiling (inject_Z (count_true mrow) * prob) <? c)
                <$> cumsum mrow))))
  = (fun _ => true) <$> mrow.
Proof.
  intros Hlen Hle.
  rewrite mask_excess_none by exact Hle.
  rewrite take_ge by (rewrite length_replicate; lia).
  assert (Hk : length (topk_indices (length mrow) rrow) = length mrow)
    by (apply length_topk_indices; lia).
  assert (Hp : topk_indices (length mrow) rrow ≡ₚ seq 0 (length mrow))
    by (rewrite <- Hlen; apply topk_indices_all).
  revert Hk Hp. generalize (topk_indices (length mrow) rrow). intros idx Hk Hp.
  replace (replicate (length mrow) false) with (replicate (length idx) false)
    by (rewrite Hk; reflexivity).
  rewrite zip_with_no_excess, scatter_all by exact Hp.
  simpl. rewrite drop_0.
  clear. induction mrow as [|b mrow IH]; simpl; [reflexivity|].
  f_equal. exact IH.
Qed.

End SelectAll.

Lemma shape_length {A B} (s : list (list A)) (t : list (list B)) :
  shape s = shape t -> length s = length t.
Proof.
  intros H. apply (f_equal length) in H. unfold shape in H.
  rewrite !length_fmap in H. exact H.
Qed.

Lemma shape_row_length {A B} (s : list (list A)) (t : list (list B)) b r1 r2 :
  shape s = shape t -> s !! b = Some r1 -> t !! b = Some r2 ->
  length r1 = length r2.
Proof.
  intros H H1 H2. apply (f_equal (fun l => l !! b)) in H.
  rewrite !shape_lookup, H1, H2 in H. simpl in H. congruence.
Qed.

(** On a [B,T] batch whose cap [ceil(prob * T)] is [T] and whose rows have
    no position in excess, the engine selects every position of every
    row, eligible or not, whatever the random priorities. *)
Lemma get_mask_subset_with_prob_all mask prob w :
  Forall (fun row => length row = seq_len_of mask) mask ->
  max_masked_of prob (seq_len_of mask) = Z.of_nat (seq_len_of mask) ->
  Forall (fun row =>
            count_true row <= Qceiling (inject_Z (count_true row) * prob)) mask ->
  exists w',
    get_mask_subset_with_prob mask prob w
    = (w', Ok (map2d (fun _ => true) mask)) /\ trace w' = trace w.
Proof.
  intros Hrect Hmax Hexc.
  unfold get_mask_subset_with_prob, bind.
  destruct (uniform_like_spec mask w) as (w1 & u & -> & Hu & Ht).
  fold (max_masked_of prob (seq_len_of mask)). rewrite Hmax.
  set (T := seq_len_of mask) in *.
  set (rand := zip2d _ u mask).
  assert (Hrand : forall b rrow, rand !! b = Some rrow -> length rrow = T).
  { intros b rrow Hb. unfold rand, zip2d in Hb.
    apply lookup_zip_with_Some in Hb as (urow & mrow & -> & Hub & Hmb).
    rewrite length_zip_with, (shape_row_length _ _ _ _ _ Hu Hub Hmb).
    rewrite Forall_lookup in Hrect. rewrite (Hrect _ _ Hmb). lia. }
  assert (Htop : rows_result (topk (Z.of_nat T)) rand
                 = Ok (topk_indices T <$> rand)).
  { apply rows_result_Forall2. apply Forall2_fmap_r, Forall_Forall2_diag.
    apply Forall_lookup. intros b rrow Hb. unfold topk.
    rewrite (Hrand _ _ Hb), Z.ltb_irrefl, Nat2Z.id.
    destruct (Z.of_nat T <? 0) eqn:H0; [apply Z.ltb_lt in H0; lia|].
    reflexivity. }
  unfold lift. rewrite Htop. unfold ret.
  exists w1. split; [|exact Ht]. f_equal. f_equal.
  apply list_eq. intros b.
  unfold map2d. rewrite !list_lookup_fmap, lookup_zip_with, list_lookup_fmap.
  destruct (mask !! b) as [mrow|] eqn:Hmb; simpl; [|reflexivity].
  assert (Hlm : length mrow = T).
  { rewrite Forall_lookup in Hrect. apply (Hrect _ _ Hmb). }
  destruct (lookup_lt_is_Some_2 u b) as [urow Hub].
  { rewrite (shape_length _ _ Hu). eapply lookup_lt_Some, Hmb. }
  assert (Hrb : rand !! b = Some (zip_with (fun x (m : bool) =>
                   if m then x else (- (1000000000 # 1))%Q) urow mrow)).
  { unfold rand, zip2d. rewrite lookup_zip_with, Hub, Hmb. reflexivity. }
  unfold zip2d. repeat (rewrite ?list_lookup_fmap, ?lookup_zip_with).
  rewrite Hrb, Hmb. simpl.
  f_equal. rewrite Nat2Z.id.
  change (0%Q :: replicate T 0%Q) with (replicate (S T) 0%Q).
  rewrite <- Hlm.
  apply row_select_all.
  - rewrite Hlm. eapply Hrand, Hrb.
  - rewrite Forall_lookup in Hexc. apply (Hexc _ _ Hmb).
Qed.

(** ** The steps of [forward] *)

Lemma bind_Ok {A B} (m : M A) (k : A -> M B) w w' b :
  bind m k w = (w', Ok b) <->
  exists w1 a, m w = (w1, Ok a) /\ k a w1 = (w', Ok b).
Proof.
  unfold bind. destruct (m w) as [w1 [a|e]]; split.
  - intros H. eauto.
  - intros (w2 & a' & Ha & Hk). injection Ha as <- <-. exact Hk.
  - discriminate.
  - intros (w2 & a' & Ha & _). discriminate.
Qed.

Lemma ret_Ok {A} (a b : A) w w' : ret a w = (w', Ok b) <-> w' = w /\ b = a.
Proof.
  unfold ret. split.
  - intros H. injection H as <- <-. auto.
  - intros [-> ->]. reflexivity.
Qed.

Lemma forward_corrupt_Ok self input w w' c :
  forward_corrupt self input w = (w', Ok c) <->
  exists w1 w2 rp mk mi,
    prob_mask_like input (replace_prob self) w = (w1, Ok rp) /\
    get_mask_subset_with_prob
      (tnot (mask_with_tokens input (mask_ignore_token_ids self)))
      (mask_prob self) w1 = (w2, Ok mk) /\
    random_substitution self input input w2 = (w', Ok mi) /\
    c = Corrupted.mk rp
          (mask_with_tokens input (mask_ignore_token_ids self)) mk
          (masked_fill mi (zip2d andb mk rp) (mask_token_id self))
          (masked_fill input (tnot mk) (pad_token_id self)).
Proof.
  unfold forward_corrupt. rewrite bind_Ok. split.
  - intros (w1 & rp & Hrp & H). apply bind_Ok in H as (w2 & mk & Hmk & H).
    apply bind_Ok in H as (w3 & mi & Hmi & H). apply ret_Ok in H as [-> ->].
    exists w1, w2, rp, mk, mi. auto.
  - intros (w1 & w2 & rp & mk & mi & Hrp & Hmk & Hmi & ->).
    exists w1, rp. split; [exact Hrp|]. apply bind_Ok.
    exists w2, mk. split; [exact Hmk|]. apply bind_Ok.
    exists w', mi. split; [exact Hmi|]. apply ret_Ok. auto.
Qed.

(** The random substitution, when it returns, has written at the drawn
    positions only, and leaves the shape of the batch. *)
Lemma random_substitution_Ok self input w w' mi :
  random_substitution self input input w = (w', Ok mi) ->
  (~ (0 < random_token_prob self)%Q /\ mi = input /\ w' = w) \/
  ((0 < random_token_prob self)%Q /\
   exists n w1 w2 draw tokens,
     num_tokens self = Some n /\
     prob_mask_like input (random_token_prob self) w = (w1, Ok draw) /\
     randint_like 0 n input w1 = (w2, Ok tokens) /\
     let sel := zip2d andb draw
                  (tnot (mask_with_tokens tokens (mask_ignore_token_ids self))) in
     mi = masked_assign input sel (masked_select tokens sel)).
Proof.
  unfold random_substitution.
  destruct (Qlt_le_dec 0 (random_token_prob self)) as [Hlt|Hle].
  - destruct (num_tokens self) as [n|]; [|discriminate].
    intros H. right. split; [exact Hlt|].
    apply bind_Ok in H as (w1 & draw & Hd & H).
    apply bind_Ok in H as (w2 & tokens & Htk & H).
    apply bind_Ok in H as (w3 & [] & _ & H).
    apply ret_Ok in H as [_ ->].
    exists n, w1, w2, draw, tokens. auto.
  - intros H. apply ret_Ok in H as [-> ->]. left.
    split; [|auto]. apply Qle_not_lt, Hle.
Qed.

(** ** Indexed assignment *)

Section Assign.
Context {A : Type}.

Lemma select_row_cons (y : A) rrow (s : bool) m :
  select_row (y :: rrow) (s :: m)
  = if s then y :: select_row rrow m else select_row rrow m.
Proof. unfold select_row. simpl. destruct s; reflexivity. Qed.

Lemma length_assign_row (row : list A) m vals :
  length (assign_row row m vals).1 = length row.
Proof.
  revert m vals. induction row as [|x row IH]; intros [|s m] vals; simpl;
    try reflexivity.
  destruct s, vals as [|v vals]; simpl.
  - specialize (IH m []). destruct (assign_row row m []). simpl in *. lia.
  - specialize (IH m vals). destruct (assign_row row m vals). simpl in *. lia.
  - specialize (IH m []). destruct (assign_row row m []). simpl in *. lia.
  - specialize (IH m (v :: vals)). destruct (assign_row row m (v :: vals)).
    simpl in *. lia.
Qed.

Lemma shape_masked_assign (t : list (list A)) mask vals :
  shape (masked_assign t mask vals) = shape t.
Proof.
  revert mask vals. induction t as [|row t IH]; intros [|m mask] vals; simpl;
    try reflexivity.
  pose proof (length_assign_row row m vals) as Hl.
  destruct (assign_row row m vals) as [r rest]. simpl in Hl.
  rewrite !shape_cons, IH, Hl. reflexivity.
Qed.

Lemma assign_row_select (row rrow : list A) m rest :
  length row = length m -> length rrow = length m ->
  assign_row row m (select_row rrow m ++ rest)
  = (zip_with (fun (s : bool) (p : A * A) => if s then p.1 else p.2)
              m (zip rrow row), rest).
Proof.
  revert rrow m. induction row as [|x row IH]; intros [|y rrow] [|s m] H1 H2;
    simpl in *; try discriminate; try reflexivity.
  injection H1 as H1. injection H2 as H2.
  rewrite select_row_cons. destruct s; simpl.
  - rewrite IH by assumption. reflexivity.
  - destruct (select_row rrow m ++ rest) eqn:E; rewrite <- E, IH by assumption;
      reflexivity.
Qed.

Lemma masked_assign_select (t r : list (list A)) sel :
  shape t = shape sel -> shape r = shape sel ->
  masked_assign t sel (masked_select r sel) = where2 sel r t.
Proof.
  unfold masked_select, where2, zip2d.
  revert r sel. induction t as [|row t IH]; intros [|rrow r] [|m sel] H1 H2;
    try discriminate; try reflexivity.
  rewrite !shape_cons in H1, H2. injection H1 as Hl1 H1. injection H2 as Hl2 H2.
  simpl. rewrite assign_row_select by assumption.
  f_equal. apply IH; assumption.
Qed.

Lemma at2_where2 sel (r t : list (list A)) b i (s : bool) x y :
  at2 sel b i = Some s -> at2 r b i = Some y -> at2 t b i = Some x ->
  at2 (where2 sel r t) b i = Some (if s then y else x).
Proof.
  intros Hs Hy Hx. unfold where2.
  rewrite at2_zip2d, Hs, at2_zip2d, Hy, Hx. reflexivity.
Qed.

End Assign.

(** ** Outcomes *)

Lemma run_Ok {A} (m : M A) w a :
  run m w = Ok a <-> exists w', m w = (w', Ok a).
Proof.
  unfold run. destruct (m w) as [w1 r]; simpl. split.
  - intros ->. eauto.
  - intros (w' & H). congruence.
Qed.

(** ** The masking engine on rows with too few eligible positions *)

(** C1 (evaluation at the failing inputs).  With [prob = 1] the selection
    of [get_mask_subset_with_prob] on the eligibility row
    [F,T,T,T,F] is the whole row, and on an all-false row it is all-true,
    for every state of the random generator: the result is not a subset
    of the eligibility mask and an all-false row does not stay
    all-false. *)
Theorem C1_selection_escapes_eligibility :
  forall w,
    run (get_mask_subset_with_prob [[false; true; true; true; false]] 1) w
    = Ok [[true; true; true; true; true]]
    /\ run (get_mask_subset_with_prob [[false; false; false]] 1) w
       = Ok [[true; true; true]].
Proof.
  intros w. split; apply run_Ok.
  - destruct (get_mask_subset_with_prob_all
                [[false; true; true; true; false]] 1 w) as (w' & H & _).
    + repeat constructor.
    + reflexivity.
    + repeat constructor; vm_compute; discriminate.
    + exists w'. exact H.
  - destruct (get_mask_subset_with_prob_all
                [[false; false; false]] 1 w) as (w' & H & _).
    + repeat constructor.
    + reflexivity.
    + repeat constructor; vm_compute; discriminate.
    + exists w'. exact H.
Qed.

(** [__init__] always puts the pad token among the ignored ids. *)
Lemma Electra_init_pad_ignored g d n mp rp rtp mt pad ids dw gw temp :
  pad ∈ mask_ignore_token_ids (Electra_init g d n mp rp rtp mt pad ids dw gw temp).
Proof.
  simpl. apply elem_of_list_to_set, elem_of_app. right.
  apply list_elem_of_singleton. reflexivity.
Qed.

Lemma Electra_init_ids_ignored g d n mp rp rtp mt pad ids dw gw temp x :
  x ∈ ids ->
  x ∈ mask_ignore_token_ids (Electra_init g d n mp rp rtp mt pad ids dw gw temp).
Proof.
  intros H. simpl. apply elem_of_list_to_set, elem_of_app. left. exact H.
Qed.

(** [no_mask] is true exactly at the positions holding an ignored id. *)
Lemma no_mask_spec self input b i x :
  at2 input b i = Some x ->
  at2 (mask_with_tokens input (mask_ignore_token_ids self)) b i
  = Some (bool_decide (x ∈ mask_ignore_token_ids self)).
Proof.
  intros H. rewrite mask_with_tokens_spec, at2_map2d, H. reflexivity.
Qed.

(** C2 (evaluation at the failing inputs).  For the batch
    [[CLS, 5, 6, 7, SEP]] with [mask_ignore_token_ids = [CLS, SEP]] and
    [mask_prob = 1], and for the batch [[5, PAD]] with the default ignored
    ids and [mask_prob = 0.6], the mask computed by [forward] is true at
    every position, the ignored ones and the pad one included, for every
    state of the random generator and every other setting. *)
Theorem C2_ignored_positions_selected :
  forall g d n rp mt dw gw temp w,
    (exists c,
       run (forward_corrupt
              (Electra_init g d n 1 rp 0 mt 0 [2; 3] dw gw temp)
              [[2; 5; 6; 7; 3]]) w = Ok c
       /\ Corrupted.no_mask c = [[true; false; false; false; true]]
       /\ Corrupted.mask c = [[true; true; true; true; true]])
    /\
    (exists c,
       run (forward_corrupt
              (Electra_init g d n (6 # 10) rp 0 mt 0 [] dw gw temp)
              [[5; 0]]) w = Ok c
       /\ Corrupted.no_mask c = [[false; true]]
       /\ Corrupted.mask c = [[true; true]]).
Proof.
  intros g d n rp mt dw gw temp w. split.
  - set (self := Electra_init g d n 1 rp 0 mt 0 [2; 3] dw gw temp).
    destruct (prob_mask_like_spec [[2; 5; 6; 7; 3]] (replace_prob self) w)
      as (w1 & r & Hr & _ & _).
    assert (Hno : mask_with_tokens [[2; 5; 6; 7; 3]] (mask_ignore_token_ids self)
                  = [[true; false; false; false; true]])
      by (vm_compute; reflexivity).
    destruct (get_mask_subset_with_prob_all
                [[false; true; true; true; false]] 1 w1) as (w2 & Hm & _).
    + repeat constructor.
    + reflexivity.
    + repeat constructor; vm_compute; discriminate.
    + eexists. split; [|split].
      * apply run_Ok. exists w2. apply forward_corrupt_Ok.
        exists w1, w2, r, [[true; true; true; true; true]], [[2; 5; 6; 7; 3]].
        split; [exact Hr|]. split; [rewrite Hno; exact Hm|].
        split; reflexivity.
      * simpl. exact Hno.
      * reflexivity.
  - set (self := Electra_init g d n (6 # 10) rp 0 mt 0 [] dw gw temp).
    destruct (prob_mask_like_spec [[5; 0]] (replace_prob self) w)
      as (w1 & r & Hr & _ & _).
    assert (Hno : mask_with_tokens [[5; 0]] (mask_ignore_token_ids self)
                  = [[false; true]])
      by (vm_compute; reflexivity).
    destruct (get_mask_subset_with_prob_all
                [[true; false]] (6 # 10) w1) as (w2 & Hm & _).
    + repeat constructor.
    + reflexivity.
    + repeat constructor; vm_compute; discriminate.
    + eexists. split; [|split].
      * apply run_Ok. exists w2. apply forward_corrupt_Ok.
        exists w1, w2, r, [[true; true]], [[5; 0]].
        split; [exact Hr|]. split; [rewrite Hno; exact Hm|].
        split; reflexivity.
      * simpl. exact Hno.
      * reflexivity.
Qed.

(** X1.  The count bound of the masking engine: when
    [get_mask_subset_with_prob] returns, every row of the mask has at most
    [ceil(prob * seq_len)] true positions. *)
Theorem X1_selection_count_bound mask prob w r b row :
  run (get_mask_subset_with_prob mask prob) w = Ok r ->
  r !! b = Some row ->
  count_true row <= max_masked_of prob (seq_len_of mask).
Proof.
  intros H Hb. apply run_Ok in H as (w' & H).
  eapply get_mask_subset_with_prob_count; eassumption.
Qed.

Lemma X1_witness :
  count_true [true; true; false; false; false; false; false; false; false; false]
  <= max_masked_of (15 # 100) 10.
Proof.
  apply (X1_selection_count_bound
           [[true; true; true; true; true; true; true; true; true; true]]
           (15 # 100) quarter
           [[true; true; false; false; false; false; false; false; false; false]]
           0%nat).
  - vm_compute. reflexivity.
  - reflexivity.
Defined.

(** ** The corruption sampler *)

Lemma randint_like_Ok {A} lo hi (t : list (list A)) w w' tokens :
  randint_like lo hi t w = (w', Ok tokens) ->
  shape tokens = shape t /\ trace w' = trace w.
Proof.
  unfold randint_like. destruct (hi <=? lo); [discriminate|].
  unfold bind. destruct (uniform_like_spec t w) as (w1 & u & -> & Hs & Ht).
  unfold ret. intros H. injection H as <- <-. rewrite shape_map2d. auto.
Qed.

Lemma prob_mask_like_Ok {A} (t : list (list A)) prob w w' m :
  prob_mask_like t prob w = (w', Ok m) ->
  shape m = shape t /\ trace w' = trace w.
Proof.
  destruct (prob_mask_like_spec t prob w) as (w1 & m1 & H1 & Hs & Ht).
  rewrite H1. intros H. injection H as <- <-. auto.
Qed.

(** The substitution in closed form: where the draw is true and the
    random token is not an ignored id, the random token; elsewhere the
    input. *)
Lemma random_substitution_where self input w mi :
  run (random_substitution self input input) w = Ok mi ->
  (~ (0 < random_token_prob self)%Q /\ mi = input) \/
  ((0 < random_token_prob self)%Q /\
   exists draw tokens,
     shape draw = shape input /\ shape tokens = shape input /\
     mi = where2
            (zip2d andb draw
               (tnot (map2d (listed (mask_ignore_token_ids self)) tokens)))
            tokens input).
Proof.
  intros H. apply run_Ok in H as (w' & H).
  apply random_substitution_Ok in H as [(Hn & -> & _)|(Hp & H)]; [left; auto|].
  destruct H as (n & w1 & w2 & draw & tokens & _ & Hd & Htk & Hmi).
  right. split; [exact Hp|]. exists draw, tokens.
  apply prob_mask_like_Ok in Hd as [Hd _].
  apply randint_like_Ok in Htk as [Htk _].
  split; [exact Hd|]. split; [exact Htk|].
  simpl in Hmi. rewrite mask_with_tokens_spec in Hmi. rewrite Hmi.
  apply masked_assign_select.
  - rewrite shape_zip2d; [congruence|].
    unfold tnot. rewrite !shape_map2d. congruence.
  - rewrite shape_zip2d; [congruence|].
    unfold tnot. rewrite !shape_map2d. congruence.
Qed.

Lemma shape_where2 {A} sel (r t : list (list A)) :
  shape sel = shape t -> shape r = shape t -> shape (where2 sel r t) = shape t.
Proof.
  intros H1 H2. unfold where2. rewrite shape_zip2d; [exact H1|].
  rewrite shape_zip2d; congruence.
Qed.

Lemma random_substitution_shape self input w mi :
  run (random_substitution self input input) w = Ok mi ->
  shape mi = shape input.
Proof.
  intros H. apply random_substitution_where in H as [[_ ->]|(_ & H)];
    [reflexivity|].
  destruct H as (draw & tokens & Hd & Htk & ->).
  apply shape_where2; [|exact Htk].
  rewrite shape_zip2d; [exact Hd|].
  unfold tnot. rewrite !shape_map2d. congruence.
Qed.

(** Position by position: a token written by the substitution is not an
    ignored id. *)
Lemma random_substitution_at self input w mi b i y :
  run (random_substitution self input input) w = Ok mi ->
  at2 mi b i = Some y ->
  at2 input b i = Some y \/
  ((0 < random_token_prob self)%Q /\ y ∉ mask_ignore_token_ids self).
Proof.
  intros H Hy. apply random_substitution_where in H as [[_ ->]|(Hp & H)];
    [left; exact Hy|].
  destruct H as (draw & tokens & _ & _ & ->).
  unfold where2 in Hy. rewrite !at2_zip2d in Hy. unfold tnot in Hy.
  rewrite !at2_map2d in Hy.
  destruct (at2 draw b i) as [dr|]; [|discriminate].
  destruct (at2 tokens b i) as [tk|]; simpl in Hy; [|discriminate].
  destruct (at2 input b i) as [x|]; [|discriminate].
  injection Hy as <-. simpl.
  destruct (dr && negb (listed (mask_ignore_token_ids self) tk)) eqn:E.
  - right. split; [exact Hp|].
    apply andb_true_iff in E as [_ E]. apply negb_true_iff in E.
    unfold listed in E. apply bool_decide_eq_false in E. exact E.
  - left. reflexivity.
Qed.

(** C3 (as amended).  The random-token substitution filters on the random
    token, not on the token a position holds: whatever it writes is not
    an ignored id (the set holds the pad token by construction).  Every
    position of its result holds the input token or a random token
    outside [mask_ignore_token_ids]. *)
Theorem C3_random_token_never_special self input w mi b i y :
  run (random_substitution self input input) w = Ok mi ->
  at2 mi b i = Some y ->
  at2 input b i = Some y \/ y ∉ mask_ignore_token_ids self.
Proof.
  intros H Hy. destruct (random_substitution_at _ _ _ _ _ _ _ H Hy) as [?|[_ ?]];
    auto.
Qed.

(** What [forward_corrupt] returns, in terms of [run]. *)
Lemma forward_corrupt_run self input w c :
  run (forward_corrupt self input) w = Ok c ->
  exists w2 mi,
    shape (Corrupted.replace_prob c) = shape input /\
    run (random_substitution self input input) w2 = Ok mi /\
    Corrupted.no_mask c = mask_with_tokens input (mask_ignore_token_ids self) /\
    Corrupted.masked_input c
    = masked_fill mi (zip2d andb (Corrupted.mask c) (Corrupted.replace_prob c))
                  (mask_token_id self) /\
    Corrupted.gen_labels c
    = masked_fill input (tnot (Corrupted.mask c)) (pad_token_id self).
Proof.
  intros H. apply run_Ok in H as (w' & H).
  apply forward_corrupt_Ok in H as (w1 & w2 & rp & mk & mi & Hrp & _ & Hmi & ->).
  exists w2, mi. simpl. apply prob_mask_like_Ok in Hrp as [Hrp _].
  split; [exact Hrp|]. split; [apply run_Ok; eauto|]. auto.
Qed.

(** C4 (as amended).  At a position where the mask is true and the replace
    draw is false, the corrupted generator input holds the original token,
    or - only when [random_token_prob > 0] - a random token that is not an
    ignored id, written there by the random substitution. *)
Theorem C4_unreplaced_position self input w c b i :
  run (forward_corrupt self input) w = Ok c ->
  at2 (Corrupted.mask c) b i = Some true ->
  at2 (Corrupted.replace_prob c) b i = Some false ->
  exists x y,
    at2 input b i = Some x /\
    at2 (Corrupted.masked_input c) b i = Some y /\
    (y = x \/ ((0 < random_token_prob self)%Q /\
               y ∉ mask_ignore_token_ids self)).
Proof.
  intros H Hm Hr.
  apply forward_corrupt_run in H as (w2 & mi & Hs & Hmi & _ & -> & _).
  destruct (at2_is_Some_shape _ input b i Hs) as [x Hx]; [eauto|].
  pose proof (random_substitution_shape _ _ _ _ Hmi) as Hsm.
  destruct (at2_is_Some_shape input mi b i) as [y Hy]; [congruence|eauto|].
  exists x, y. split; [exact Hx|]. split.
  - erewrite at2_masked_fill; [|exact Hy|rewrite at2_zip2d, Hm, Hr; reflexivity].
    reflexivity.
  - destruct (random_substitution_at _ _ _ _ _ _ _ Hmi Hy) as [Hin|Hout].
    + left. congruence.
    + right. exact Hout.
Qed.

(** C5.  At a position where the mask and the replace draw are both true,
    the corrupted generator input holds [mask_token_id], whatever the
    random substitution wrote there before. *)
Theorem C5_mask_token_overrides self input w c b i :
  run (forward_corrupt self input) w = Ok c ->
  at2 (Corrupted.mask c) b i = Some true ->
  at2 (Corrupted.replace_prob c) b i = Some true ->
  at2 (Corrupted.masked_input c) b i = Some (mask_token_id self).
Proof.
  intros H Hm Hr.
  apply forward_corrupt_run in H as (w2 & mi & Hs & Hmi & _ & -> & _).
  pose proof (random_substitution_shape _ _ _ _ Hmi) as Hsm.
  destruct (at2_is_Some_shape (Corrupted.replace_prob c) mi b i) as [y Hy];
    [congruence|eauto|].
  erewrite at2_masked_fill; [|exact Hy|rewrite at2_zip2d, Hm, Hr; reflexivity].
  reflexivity.
Qed.

Lemma masked_fill_tnot {A} (t : list (list A)) mask v :
  masked_fill t (tnot mask) v
  = zip2d (fun x (m : bool) => if m then x else v) t mask.
Proof.
  unfold masked_fill, tnot, zip2d, map2d. revert mask.
  induction t as [|row t IH]; intros [|m mask]; simpl; try reflexivity.
  f_equal; [|apply IH]. clear. revert m.
  induction row as [|x row IH]; intros [|[] m]; simpl; try reflexivity;
    f_equal; apply IH.
Qed.

Lemma gen_labels_closed_form self input w c :
  run (forward_corrupt self input) w = Ok c ->
  Corrupted.gen_labels c
  = zip2d (fun x (m : bool) => if m then x else pad_token_id self)
          input (Corrupted.mask c).
Proof.
  intros H.
  apply forward_corrupt_run in H as (w2 & mi & _ & _ & _ & _ & Hg).
  rewrite Hg. apply masked_fill_tnot.
Qed.

(** C7.  The generator labels are the input with every non-masked position
    replaced by [pad_token_id]; masked positions keep their token.  On
    [[CLS, 5, 6, 7, SEP]] with positions 1, 2, 3 masked the labels are
    [[PAD, 5, 6, 7, PAD]]. *)
Theorem C7_gen_labels self input w c :
  run (forward_corrupt self input) w = Ok c ->
  Corrupted.gen_labels c
  = zip2d (fun x (m : bool) => if m then x else pad_token_id self)
          input (Corrupted.mask c)
  /\ (forall b i x (m : bool),
        at2 input b i = Some x -> at2 (Corrupted.mask c) b i = Some m ->
        at2 (Corrupted.gen_labels c) b i
        = Some (if m then x else pad_token_id self))
  /\ (input = [[2; 5; 6; 7; 3]] ->
      Corrupted.mask c = [[false; true; true; true; false]] ->
      Corrupted.gen_labels c
      = [[pad_token_id self; 5; 6; 7; pad_token_id self]]).
Proof.
  intros H. rewrite (gen_labels_closed_form _ _ _ _ H).
  split; [reflexivity|]. split.
  - intros b i x m Hx Hm. rewrite at2_zip2d, Hx, Hm. reflexivity.
  - intros -> ->. reflexivity.
Qed.

(** X2.  [no_mask], as [forward] computes it for a module built by
    [__init__], is true exactly at the positions that hold the pad token
    or one of the configured ignored ids. *)
Theorem X2_no_mask_marks_pad_and_ignored
    g d n mp rp rtp mt pad ids dw gw temp input w c b i x :
  run (forward_corrupt (Electra_init g d n mp rp rtp mt pad ids dw gw temp)
                       input) w = Ok c ->
  at2 input b i = Some x ->
  at2 (Corrupted.no_mask c) b i = Some (bool_decide (x = pad \/ x ∈ ids)).
Proof.
  intros H Hx. apply forward_corrupt_run in H as (_ & _ & _ & _ & -> & _).
  rewrite (no_mask_spec _ _ _ _ _ Hx). f_equal. apply bool_decide_ext.
  simpl. rewrite elem_of_list_to_set, elem_of_app, list_elem_of_singleton.
  tauto.
Qed.

Lemma X2_witness :
  at2 [[true; false; false; false; true]] 0 4
  = Some (bool_decide (3 = 0 \/ 3 ∈ [2; 3])).
Proof.
  apply (X2_no_mask_marks_pad_and_ignored
           no_generator no_discriminator None (6 # 10) 1 0 4 0 [2; 3]
           50%R 1%R 1%R [[2; 5; 6; 7; 3]] quarter
           (Corrupted.mk [[true; true; true; true; true]]
                         [[true; false; false; false; true]]
                         [[false; true; true; true; false]]
                         [[2; 4; 4; 4; 3]] [[0; 5; 6; 7; 0]]) 0%nat 4%nat 3).
  - vm_compute. reflexivity.
  - reflexivity.
Defined.

(** ** Concrete runs of the corruption sampler *)

(** C3 (counterexample to the claim as stated).  With
    [random_token_prob = 0.5], nothing masked and every draw 1/4, the batch
    [[5, PAD]] becomes [[2, 2]]: position 1 holds the pad token, which is
    an ignored id, and is overwritten with the random token 2. *)
Lemma C3_counterexample :
  (0 < random_token_prob (electra_random 0 0))%Q
  /\ at2 [[5; 0]] 0 1 = Some (pad_token_id (electra_random 0 0))
  /\ pad_token_id (electra_random 0 0)
       ∈ mask_ignore_token_ids (electra_random 0 0)
  /\ run (random_substitution (electra_random 0 0) [[5; 0]] [[5; 0]]) quarter
     = Ok [[2; 2]]
  /\ run (forward_corrupt (electra_random 0 0) [[5; 0]]) quarter
     = Ok (Corrupted.mk [[false; false]] [[false; true]] [[false; false]]
                        [[2; 2]] [[0; 0]]).
Proof.
  split; [reflexivity|]. split; [reflexivity|].
  split; [apply Electra_init_pad_ignored|].
  split; vm_compute; reflexivity.
Qed.

Lemma C3_witness :
  at2 [[5; 0]] 0 1 = Some 2
  \/ 2 ∉ mask_ignore_token_ids (electra_random 0 0).
Proof.
  apply (C3_random_token_never_special
           (electra_random 0 0) [[5; 0]] quarter [[2; 2]] 0 1 2).
  - vm_compute. reflexivity.
  - reflexivity.
Defined.

(** C4 (counterexample to the claim as stated).  With [mask_prob = 1],
    [replace_prob = 0] and [random_token_prob = 0.5], position 0 of
    [[5, 6]] is masked, its replace draw is false, and the corrupted input
    holds the random token 2 there, not the original 5. *)
Lemma C4_counterexample :
  run (forward_corrupt (electra_random 1 0) [[5; 6]]) quarter
  = Ok (Corrupted.mk [[false; false]] [[false; false]] [[true; true]]
                     [[2; 2]] [[5; 6]])
  /\ at2 [[true; true]] 0 0 = Some true
  /\ at2 [[false; false]] 0 0 = Some false
  /\ at2 [[5; 6]] 0 0 = Some 5
  /\ at2 [[2; 2]] 0 0 = Some 2
  /\ 2 <> 5.
Proof.
  split; [vm_compute; reflexivity|].
  repeat split; discriminate.
Qed.

Lemma C4_witness :
  exists x y,
    at2 [[5; 6]] 0 0 = Some x /\
    at2 [[2; 2]] 0 0 = Some y /\
    (y = x \/ ((0 < random_token_prob (electra_random 1 0))%Q /\
               y ∉ mask_ignore_token_ids (electra_random 1 0))).
Proof.
  apply (C4_unreplaced_position
           (electra_random 1 0) [[5; 6]] quarter
           (Corrupted.mk [[false; false]] [[false; false]] [[true; true]]
                         [[2; 2]] [[5; 6]]) 0 0).
  - vm_compute. reflexivity.
  - reflexivity.
  - reflexivity.
Defined.

(** The random substitution writes 2 at both positions of [[5, 6]]; with
    [mask_prob = replace_prob = 1] the mask token 4 then replaces it. *)
Lemma C5_witness :
  run (random_substitution (electra_random 1 1) [[5; 6]] [[5; 6]]) quarter
  = Ok [[2; 2]]
  /\ at2 [[4; 4]] 0 0 = Some (mask_token_id (electra_random 1 1)).
Proof.
  split; [vm_compute; reflexivity|].
  apply (C5_mask_token_overrides
           (electra_random 1 1) [[5; 6]] quarter
           (Corrupted.mk [[true; true]] [[false; false]] [[true; true]]
                         [[4; 4]] [[5; 6]]) 0 0).
  - vm_compute. reflexivity.
  - reflexivity.
  - reflexivity.
Defined.

(** The scenario of the specification, run with [mask_prob = 0.6]: exactly
    the positions 1, 2, 3 are masked and the labels are
    [[PAD, 5, 6, 7, PAD]]. *)
Lemma C7_witness :
  run (forward_corrupt electra_cls_sep [[2; 5; 6; 7; 3]]) quarter
  = Ok (Corrupted.mk [[true; true; true; true; true]]
                     [[true; false; false; false; true]]
                     [[false; true; true; true; false]]
                     [[2; 4; 4; 4; 3]] [[0; 5; 6; 7; 0]])
  /\ [[0; 5; 6; 7; 0]]
     = zip2d (fun x (m : bool) => if m then x else 0)
             [[2; 5; 6; 7; 3]] [[false; true; true; true; false]].
Proof.
  assert (H : run (forward_corrupt electra_cls_sep [[2; 5; 6; 7; 3]]) quarter
              = Ok (Corrupted.mk [[true; true; true; true; true]]
                      [[true; false; false; false; true]]
                      [[false; true; true; true; false]]
                      [[2; 4; 4; 4; 3]] [[0; 5; 6; 7; 0]]))
    by (vm_compute; reflexivity).
  split; [exact H|].
  exact (proj1 (C7_gen_labels electra_cls_sep [[2; 5; 6; 7; 3]] quarter _ H)).
Defined.

(** ** The assertion on [num_tokens] *)

Lemma get_mask_subset_with_prob_trace mask prob w w' r :
  get_mask_subset_with_prob mask prob w = (w', r) -> trace w' = trace w.
Proof.
  unfold get_mask_subset_with_prob, bind.
  destruct (uniform_like_spec mask w) as (w1 & u & -> & _ & Ht).
  unfold lift.
  match goal with
  | |- context [rows_result ?f ?t] => destruct (rows_result f t) as [idxs|e]
  end.
  - unfold ret. intros H. injection H as <- _. exact Ht.
  - intros H. injection H as <- _. exact Ht.
Qed.

(** On a [B,T] batch and with a cap in [0, T], [topk] does not raise. *)
Lemma get_mask_subset_with_prob_total mask prob w :
  Forall (fun row => length row = seq_len_of mask) mask ->
  0 <= max_masked_of prob (seq_len_of mask) <= Z.of_nat (seq_len_of mask) ->
  exists w' r, get_mask_subset_with_prob mask prob w = (w', Ok r).
Proof.
  intros Hrect Hk.
  unfold get_mask_subset_with_prob, bind.
  destruct (uniform_like_spec mask w) as (w1 & u & -> & Hu & _).
  fold (max_masked_of prob (seq_len_of mask)).
  set (k := max_masked_of prob (seq_len_of mask)) in *.
  set (rand := zip2d _ u mask).
  assert (Htop : rows_result (topk k) rand
                 = Ok (topk_indices (Z.to_nat k) <$> rand)).
  { apply rows_result_Forall2. apply Forall2_fmap_r, Forall_Forall2_diag.
    apply Forall_lookup. intros b rrow Hb. unfold rand, zip2d in Hb.
    apply lookup_zip_with_Some in Hb as (urow & mrow & -> & Hub & Hmb).
    unfold topk. rewrite length_zip_with.
    rewrite (shape_row_length _ _ _ _ _ Hu Hub Hmb), Nat.min_id.
    rewrite Forall_lookup in Hrect. rewrite (Hrect _ _ Hmb).
    destruct (k <? 0) eqn:H0; [apply Z.ltb_lt in H0; lia|].
    destruct (Z.of_nat (seq_len_of mask) <? k) eqn:H1;
      [apply Z.ltb_lt in H1; lia|].
    reflexivity. }
  unfold lift. rewrite Htop. unfold ret. eauto.
Qed.

Lemma max_masked_range prob T :
  (0 <= prob <= 1)%Q -> 0 <= max_masked_of prob T <= Z.of_nat T.
Proof.
  intros [H0 H1]. unfold max_masked_of.
  assert (HT : (0 <= inject_Z (Z.of_nat T))%Q).
  { change 0%Q with (inject_Z 0). rewrite <- Zle_Qle. lia. }
  split.
  - change 0 with (Qceiling 0). apply Qceiling_resp_le.
    apply Qmult_le_0_compat; assumption.
  - rewrite <- (Qceiling_Z (Z.of_nat T)) at 2. apply Qceiling_resp_le.
    rewrite <- (Qmult_1_l (inject_Z (Z.of_nat T))) at 2.
    apply Qmult_le_compat_r; assumption.
Qed.

Lemma seq_len_of_shape {A B} (s : list (list A)) (t : list (list B)) :
  shape s = shape t -> seq_len_of s = seq_len_of t.
Proof.
  destruct s as [|r s], t as [|r' t]; intros H;
    try (cbn in H; discriminate H); [reflexivity|].
  rewrite !shape_cons in H. injection H as H _. exact H.
Qed.

Lemma rect_shape {A B} (s : list (list A)) (t : list (list B)) :
  shape s = shape t ->
  Forall (fun row => length row = seq_len_of s) s ->
  Forall (fun row => length row = seq_len_of t) t.
Proof.
  intros Hs Hr. rewrite <- (seq_len_of_shape _ _ Hs).
  apply Forall_lookup. intros b row Hb.
  destruct (lookup_lt_is_Some_2 s b) as [srow Hsb].
  { rewrite (shape_length _ _ Hs). eapply lookup_lt_Some, Hb. }
  rewrite <- (shape_row_length _ _ _ _ _ Hs Hsb Hb).
  rewrite Forall_lookup in Hr. apply (Hr _ _ Hsb).
Qed.

(** The first step of [forward] that can raise after the mask is drawn is
    the assertion; nothing has been traced by then. *)
Lemma forward_corrupt_without_num_tokens self input w :
  (0 < random_token_prob self)%Q ->
  num_tokens self = None ->
  exists w' e,
    forward_corrupt self input w = (w', Raise e) /\ trace w' = trace w /\
    (Forall (fun row => length row = seq_len_of input) input ->
     (0 <= mask_prob self <= 1)%Q ->
     e = AssertionError num_tokens_message).
Proof.
  intros Hp Hn. unfold forward_corrupt, bind.
  destruct (prob_mask_like_spec input (replace_prob self) w)
    as (w1 & rp & -> & _ & Ht1).
  set (elig := tnot (mask_with_tokens input (mask_ignore_token_ids self))).
  assert (Hs : shape input = shape elig).
  { unfold elig, tnot. rewrite shape_map2d, shape_mask_with_tokens. reflexivity. }
  destruct (get_mask_subset_with_prob elig (mask_prob self) w1)
    as [w2 [mk|e]] eqn:Hm.
  - pose proof (get_mask_subset_with_prob_trace _ _ _ _ _ Hm) as Ht2.
    unfold random_substitution.
    destruct (Qlt_le_dec 0 (random_token_prob self)) as [_|Hle];
      [|exfalso; exact (Qle_not_lt _ _ Hle Hp)].
    rewrite Hn. unfold raise.
    exists w2, (AssertionError num_tokens_message).
    split; [reflexivity|]. split; [congruence|]. reflexivity.
  - pose proof (get_mask_subset_with_prob_trace _ _ _ _ _ Hm) as Ht2.
    exists w2, e. split; [reflexivity|]. split; [congruence|].
    intros Hrect Hprob. exfalso.
    destruct (get_mask_subset_with_prob_total elig (mask_prob self) w1)
      as (w3 & r & Hok).
    + apply (rect_shape input); assumption.
    + apply max_masked_range, Hprob.
    + congruence.
Qed.

(** C10.  When [random_token_prob > 0] and no [num_tokens] was given,
    [forward] raises and returns nothing, before any random substitution
    and before any call of the generator or the discriminator (the trace
    is unchanged); the exception is the result of [forward], nothing
    catches it.  On a [B,T] batch with a mask probability in [0, 1] the
    exception is the assertion that names [num_tokens]. *)
Theorem C10_num_tokens_assertion self input w :
  (0 < random_token_prob self)%Q ->
  num_tokens self = None ->
  (exists e, run (forward self input) w = Raise e)
  /\ trace (forward self input w).1 = trace w
  /\ (Forall (fun row => length row = seq_len_of input) input ->
      (0 <= mask_prob self <= 1)%Q ->
      run (forward self input) w = Raise (AssertionError num_tokens_message)).
Proof.
  intros Hp Hn.
  destruct (forward_corrupt_without_num_tokens self input w Hp Hn)
    as (w' & e & Hc & Ht & He).
  assert (Hf : forward self input w = (w', Raise e)).
  { unfold forward, forward_locals, bind. rewrite Hc. reflexivity. }
  unfold run. rewrite Hf. simpl. split; [eauto|]. split; [exact Ht|].
  intros Hrect Hprob. rewrite (He Hrect Hprob). reflexivity.
Qed.

Lemma C10_witness :
  run (forward (Electra_init no_generator no_discriminator None
                  (15 # 100) (85 # 100) (1 # 10) 4 0 [] 50%R 1%R 1%R)
               [[5; 6; 7]]) quarter
  = Raise (AssertionError num_tokens_message).
Proof.
  apply (C10_num_tokens_assertion
           (Electra_init no_generator no_discriminator None
              (15 # 100) (85 # 100) (1 # 10) 4 0 [] 50%R 1%R 1%R)
           [[5; 6; 7]] quarter).
  - reflexivity.
  - reflexivity.
  - repeat constructor.
  - split; discriminate.
Defined.

(** ** Selection by a boolean mask *)

Section Select.
Context {A : Type}.

Lemma select_row_nil_l (m : list bool) : select_row (@nil A) m = [].
Proof. reflexivity. Qed.

Lemma select_row_nil_r (row : list A) : select_row row [] = [].
Proof. destruct row; reflexivity. Qed.

Lemma select_row_ext (r1 r2 : list A) m :
  length r1 = length r2 ->
  (forall i, m !! i = Some true -> r1 !! i = r2 !! i) ->
  select_row r1 m = select_row r2 m.
Proof.
  revert r2 m. induction r1 as [|x r1 IH]; intros [|y r2] m Hl H;
    try discriminate; [reflexivity|].
  destruct m as [|s m]; [rewrite !select_row_nil_r; reflexivity|].
  rewrite !select_row_cons. injection Hl as Hl.
  rewrite (IH r2 m Hl) by (intros i Hi; apply (H (S i)), Hi).
  destruct s; [|reflexivity].
  specialize (H 0%nat eq_refl). simpl in H. congruence.
Qed.

Lemma masked_select_ext (t1 t2 : list (list A)) sel :
  shape t1 = shape t2 ->
  (forall b i, at2 sel b i = Some true -> at2 t1 b i = at2 t2 b i) ->
  masked_select t1 sel = masked_select t2 sel.
Proof.
  unfold masked_select.
  revert t2 sel. induction t1 as [|r1 t1 IH]; intros [|r2 t2] sel Hs H;
    try (cbn in Hs; discriminate Hs); [reflexivity|].
  destruct sel as [|m sel]; [reflexivity|].
  rewrite !shape_cons in Hs. injection Hs as Hl Hs. simpl. f_equal.
  - apply select_row_ext; [exact Hl|]. intros i Hi.
    apply (H 0%nat i). unfold at2. simpl. exact Hi.
  - apply IH; [exact Hs|]. intros b i Hb. apply (H (S b) i), Hb.
Qed.



End Select.

Section SelectZip.
Context {A B C : Type} (f : A -> B -> C).

Lemma select_row_zip_with (r1 : list A) (r2 : list B) m :
  length r1 = length r2 ->
  zip_with f (select_row r1 m) (select_row r2 m)
  = select_row (zip_with f r1 r2) m.
Proof.
  revert r2 m. induction r1 as [|x r1 IH]; intros [|y r2] m Hl;
    try discriminate; [reflexivity|].
  destruct m as [|s m]; [rewrite !select_row_nil_r; reflexivity|].
  injection Hl as Hl. simpl zip_with at 2. rewrite !select_row_cons.
  destruct s; simpl; rewrite IH by exact Hl; reflexivity.
Qed.

Lemma length_select_row_eq (r1 : list A) (r2 : list B) m :
  length r1 = length r2 ->
  length (select_row r1 m) = length (select_row r2 m).
Proof.
  revert r2 m. induction r1 as [|x r1 IH]; intros [|y r2] m Hl;
    try discriminate; [reflexivity|].
  destruct m as [|s m]; [rewrite !select_row_nil_r; reflexivity|].
  injection Hl as Hl. rewrite !select_row_cons.
  destruct s; simpl; rewrite (IH r2 m Hl); reflexivity.
Qed.

Lemma zip_with_app_same (l1 l1' : list A) (l2 l2' : list B) :
  length l1 = length l2 ->
  zip_with f (l1 ++ l1') (l2 ++ l2') = zip_with f l1 l2 ++ zip_with f l1' l2'.
Proof.
  revert l2. induction l1 as [|x l1 IH]; intros [|y l2] Hl;
    try discriminate; [reflexivity|].
  injection Hl as Hl. simpl. f_equal. apply IH, Hl.
Qed.

(** Selecting from two tensors of one shape keeps the positions aligned. *)
Lemma masked_select_zip2d (t1 : list (list A)) (t2 : list (list B)) sel :
  shape t1 = shape t2 ->
  zip_with f (masked_select t1 sel) (masked_select t2 sel)
  = masked_select (zip2d f t1 t2) sel.
Proof.
  unfold masked_select, zip2d.
  revert t2 sel. induction t1 as [|r1 t1 IH]; intros [|r2 t2] sel Hs;
    try (cbn in Hs; discriminate Hs); [reflexivity|].
  destruct sel as [|m sel]; [reflexivity|].
  rewrite !shape_cons in Hs. injection Hs as Hl Hs. simpl.
  rewrite zip_with_app_same by (apply length_select_row_eq, Hl).
  rewrite select_row_zip_with by exact Hl. f_equal. apply IH, Hs.
Qed.

End SelectZip.

Lemma shape_chunk {A B} (flat : list A) (t : list (list B)) :
  length flat = length (concat t) -> shape (chunk flat t) = shape t.
Proof.
  revert flat. induction t as [|r t IH]; intros flat Hl; [reflexivity|].
  simpl in Hl. rewrite length_app in Hl. simpl chunk. rewrite !shape_cons.
  rewrite length_take, IH by (rewrite length_drop; lia). f_equal. lia.
Qed.

Lemma reshape_as_Ok {A B} (flat : list A) (t : list (list B)) r :
  reshape_as flat t = Ok r -> shape r = shape t.
Proof.
  unfold reshape_as. case_bool_decide as Hl; [|discriminate].
  intros H. injection H as <-. apply shape_chunk, Hl.
Qed.

(** ** The whole forward pass *)

Lemma lift_Ok {A} (r : result A) w w' a :
  lift r w = (w', Ok a) <-> w' = w /\ r = Ok a.
Proof.
  unfold lift. split.
  - intros H. injection H as <- ->. auto.
  - intros [-> ->]. reflexivity.
Qed.

Lemma emit_Ok e w w' u : emit e w = (w', Ok u) <-> w' = after_emit e w.
Proof.
  unfold emit, after_emit. destruct u. split.
  - intros H. injection H as <-. reflexivity.
  - intros ->. reflexivity.
Qed.

Lemma forward_locals_Ok self input w w' l :
  forward_locals self input w = (w', Ok l) <->
  exists w1 w2 c mlm sampled dlogits gpred,
    forward_corrupt self input w = (w1, Ok c) /\
    cross_entropy (generator self (Corrupted.masked_input c))
                  (Corrupted.gen_labels c) (pad_token_id self) = Ok mlm /\
    gumbel_sample
      (masked_select (generator self (Corrupted.masked_input c))
                     (Corrupted.mask c))
      (temperature self)
      (after_emit (CallGenerator (Corrupted.masked_input c)) w1)
    = (w2, Ok sampled) /\
    reshape_as
      (discriminator self (masked_assign input (Corrupted.mask c) sampled))
      (disc_labels_of input (masked_assign input (Corrupted.mask c) sampled))
    = Ok dlogits /\
    rows_result (rows_result argmax)
                (generator self (Corrupted.masked_input c)) = Ok gpred /\
    w' = after_emit
           (CallDiscriminator (masked_assign input (Corrupted.mask c) sampled))
           w2 /\
    l = locals_of self input c mlm sampled dlogits gpred.
Proof.
  unfold forward_locals. split.
  - intros H.
    apply bind_Ok in H as (w1 & c & Hc & H).
    apply bind_Ok in H as (wa & [] & Ha & H). apply emit_Ok in Ha as ->.
    apply bind_Ok in H as (wb & mlm & Hb & H). apply lift_Ok in Hb as [-> Hb].
    apply bind_Ok in H as (w2 & sampled & Hs & H).
    apply bind_Ok in H as (wc & [] & Hcc & H). apply emit_Ok in Hcc as ->.
    apply bind_Ok in H as (wd & dlogits & Hd & H). apply lift_Ok in Hd as [-> Hd].
    apply bind_Ok in H as (we & gpred & Hg & H). apply lift_Ok in Hg as [-> Hg].
    apply ret_Ok in H as [-> ->].
    exists w1, w2, c, mlm, sampled, dlogits, gpred. repeat split; assumption.
  - intros (w1 & w2 & c & mlm & sampled & dlogits & gpred
            & Hc & Hb & Hs & Hd & Hg & -> & ->).
    apply bind_Ok. exists w1, c. split; [exact Hc|].
    apply bind_Ok. eexists _, tt. split; [apply emit_Ok; reflexivity|].
    apply bind_Ok. eexists _, mlm. split; [apply lift_Ok; split; [reflexivity|exact Hb]|].
    apply bind_Ok. exists w2, sampled. split; [exact Hs|].
    apply bind_Ok. eexists _, tt. split; [apply emit_Ok; reflexivity|].
    apply bind_Ok. eexists _, dlogits. split; [apply lift_Ok; split; [reflexivity|exact Hd]|].
    apply bind_Ok. eexists _, gpred. split; [apply lift_Ok; split; [reflexivity|exact Hg]|].
    apply ret_Ok. split; reflexivity.
Qed.

(** The shapes of the discriminator tensors agree with that of the input. *)
Lemma forward_locals_shapes self input w l :
  run (forward_locals self input) w = Ok l ->
  shape (Locals.disc_input l) = shape input /\
  shape (Locals.disc_labels l) = shape input /\
  shape (Locals.disc_logits l) = shape input /\
  shape (Locals.disc_predictions l) = shape input.
Proof.
  intros H. apply run_Ok in H as (w' & H).
  apply forward_locals_Ok in H
    as (w1 & w2 & c & mlm & sampled & dlogits & gpred & _ & _ & _ & Hd & _ & _ & ->).
  simpl. apply reshape_as_Ok in Hd.
  assert (Hi : shape (masked_assign input (Corrupted.mask c) sampled) = shape input)
    by apply shape_masked_assign.
  assert (Hl : shape (disc_labels_of input
                        (masked_assign input (Corrupted.mask c) sampled))
               = shape input).
  { unfold disc_labels_of. apply shape_zip2d. congruence. }
  split; [exact Hi|]. split; [exact Hl|].
  split; [congruence|].
  unfold disc_predictions_of. rewrite shape_map2d. congruence.
Qed.

(** [forward] reports the losses, metrics and tensors of its locals. *)
Lemma forward_Ok self input w r :
  run (forward self input) w = Ok r <->
  exists l,
    run (forward_locals self input) w = Ok l /\
    r = Results.mk
          (plus (scale (gen_weight self) (Locals.mlm_loss l))
                (scale (disc_weight self) (Locals.disc_loss l)))
          (Locals.mlm_loss l) (Locals.disc_loss l)
          (Locals.gen_acc l) (Locals.disc_acc l)
          (Locals.disc_labels l) (Locals.disc_predictions l).
Proof.
  rewrite run_Ok. unfold forward. split.
  - intros (w' & H). apply bind_Ok in H as (w1 & l & Hl & H).
    apply ret_Ok in H as [-> ->]. exists l. split; [|reflexivity].
    apply run_Ok. eauto.
  - intros (l & Hl & ->). apply run_Ok in Hl as (w' & Hl).
    exists w'. apply bind_Ok. exists w', l. split; [exact Hl|].
    apply ret_Ok. auto.
Qed.

(** ** Discriminator labels and loss *)

Lemma at2_disc_labels_of input disc_input b i x y :
  at2 input b i = Some x -> at2 disc_input b i = Some y ->
  at2 (disc_labels_of input disc_input) b i
  = Some (if bool_decide (x <> y) then 1%R else 0%R).
Proof.
  intros Hx Hy. unfold disc_labels_of. rewrite at2_zip2d, Hx, Hy. f_equal.
  destruct (Z.eqb_spec x y) as [->|Hne].
  - rewrite bool_decide_eq_false_2; [reflexivity|]. intros H. apply H. reflexivity.
  - rewrite bool_decide_eq_true_2; [reflexivity|exact Hne].
Qed.

Lemma at2_non_padded_of pad input b i x :
  at2 input b i = Some x ->
  at2 (non_padded_of pad input) b i = Some (bool_decide (x <> pad)).
Proof.
  intros Hx. unfold non_padded_of. rewrite at2_map2d, Hx. simpl. f_equal.
  destruct (Z.eqb_spec x pad) as [->|Hne]; simpl.
  - rewrite bool_decide_eq_false_2; [reflexivity|]. intros H. apply H. reflexivity.
  - rewrite bool_decide_eq_true_2; [reflexivity|exact Hne].
Qed.

Lemma bce_elem_replaced x : bce_elem x 1 = ln (1 + exp (- x)).
Proof.
  unfold bce_elem, sigmoid.
  assert (H : (0 < 1 + exp (- x))%R) by (pose proof (exp_pos (- x)); lra).
  rewrite ln_Rinv by exact H. lra.
Qed.

Lemma bce_elem_original x : bce_elem x 0 = ln (1 + exp x).
Proof.
  unfold bce_elem, sigmoid.
  assert (H : (0 < 1 + exp x)%R) by (pose proof (exp_pos x); lra).
  replace (1 - / (1 + exp (- x)))%R with (/ (1 + exp x))%R.
  - rewrite (ln_Rinv (1 + exp x)) by exact H. lra.
  - rewrite exp_Ropp. pose proof (exp_pos x). field. lra.
Qed.

Lemma bce_elem_term x (a b : Z) :
  bce_elem x (if a =? b then 0%R else 1%R) = bce_term x (negb (a =? b)).
Proof.
  unfold bce_term. destruct (a =? b); cbn [negb].
  - apply bce_elem_original.
  - apply bce_elem_replaced.
Qed.

Lemma non_pad_terms_row pad (irow drow : list Z) (lrow : list R) :
  select_row
    (zip_with bce_elem lrow
       (zip_with (fun a b => if a =? b then 0%R else 1%R) irow drow))
    ((fun x => negb (x =? pad)) <$> irow)
  = omap (fun p : (Z * Z) * R =>
            if p.1.1 =? pad then None
            else Some (bce_term p.2 (negb (p.1.1 =? p.1.2))))
         (zip (zip_with pair irow drow) lrow).
Proof.
  revert drow lrow. induction irow as [|x irow IH]; intros drow lrow.
  - rewrite fmap_nil, select_row_nil_r. reflexivity.
  - destruct drow as [|y drow].
    + destruct lrow; cbn [zip_with]; rewrite select_row_nil_l; reflexivity.
    + destruct lrow as [|z lrow].
      * cbn [zip_with]. rewrite select_row_nil_l. reflexivity.
      * rewrite fmap_cons. cbn [zip_with]. rewrite select_row_cons.
        change (zip ((x, y) :: zip_with pair irow drow) (z :: lrow))
          with (((x, y), z) :: zip (zip_with pair irow drow) lrow).
        cbn [omap list_omap fst snd].
        change (list_omap _ _ ?f ?l) with (omap f l).
        rewrite <- IH, bce_elem_term.
        destruct (x =? pad); reflexivity.
Qed.

(** The loss of line 229 is the average of the terms of the formula. *)
Lemma disc_loss_closed_form pad (input disc_input : list (list Z))
    (logits : list (list R)) :
  shape logits = shape input ->
  shape disc_input = shape input ->
  binary_cross_entropy_with_logits
    (masked_select logits (non_padded_of pad input))
    (masked_select (disc_labels_of input disc_input)
                   (non_padded_of pad input))
  = average (non_pad_terms pad input disc_input logits).
Proof.
  intros Hl Hd. unfold binary_cross_entropy_with_logits.
  rewrite masked_select_zip2d
    by (unfold disc_labels_of; rewrite shape_zip2d by congruence; congruence).
  assert (Heq : masked_select
                  (zip2d bce_elem logits (disc_labels_of input disc_input))
                  (non_padded_of pad input)
                = non_pad_terms pad input disc_input logits).
  { clear Hl Hd. unfold masked_select, non_pad_terms, disc_labels_of,
      non_padded_of, map2d, zip2d.
    revert disc_input logits.
    induction input as [|irow input IH]; intros disc_input logits.
    - destruct logits; reflexivity.
    - destruct disc_input as [|drow disc_input].
      + destruct logits; reflexivity.
      + destruct logits as [|lrow logits]; [reflexivity|].
        rewrite fmap_cons. cbn [zip_with concat].
        rewrite non_pad_terms_row, IH. reflexivity. }
  rewrite Heq. unfold mean, average, Rsum.
  destruct (non_pad_terms pad input disc_input logits); reflexivity.
Qed.

(** C6.  The discriminator label of a position is 1 when the input token
    differs from the token of the discriminator input and 0 otherwise;
    [disc_loss] is the binary cross-entropy with logits of the logits and
    these labels over the positions whose input token is not
    [pad_token_id]: the average over these positions of
    [log(1 + exp(-logit))] where the token was replaced and of
    [log(1 + exp(logit))] where it was not ([None], NaN, when there is no
    such position); the logits at pad positions do not enter it. *)
Theorem C6_disc_labels_and_loss self input w l :
  run (forward_locals self input) w = Ok l ->
  (forall b i x y,
     at2 input b i = Some x -> at2 (Locals.disc_input l) b i = Some y ->
     at2 (Locals.disc_labels l) b i
     = Some (if bool_decide (x <> y) then 1%R else 0%R))
  /\ (forall b i x,
        at2 input b i = Some x ->
        at2 (non_padded_of (pad_token_id self) input) b i
        = Some (bool_decide (x <> pad_token_id self)))
  /\ Locals.disc_loss l
     = average (non_pad_terms (pad_token_id self) input
                              (Locals.disc_input l) (Locals.disc_logits l))
  /\ (forall logits' : list (list R),
        shape logits' = shape input ->
        (forall b i x, at2 input b i = Some x -> x <> pad_token_id self ->
                       at2 logits' b i = at2 (Locals.disc_logits l) b i) ->
        average (non_pad_terms (pad_token_id self) input
                               (Locals.disc_input l) logits')
        = Locals.disc_loss l).
Proof.
  intros H. pose proof (forward_locals_shapes _ _ _ _ H) as (Hi & Hl & Hg & _).
  apply run_Ok in H as (w' & H).
  apply forward_locals_Ok in H
    as (w1 & w2 & c & mlm & sampled & dlogits & gpred & _ & _ & _ & _ & _ & _ & ->).
  simpl in *. split; [|split; [|split]].
  - intros b i x y Hx Hy. apply at2_disc_labels_of; assumption.
  - intros b i x Hx. apply at2_non_padded_of, Hx.
  - apply disc_loss_closed_form; assumption.
  - intros logits' Hs Hagree.
    rewrite <- (disc_loss_closed_form _ _ _ logits' Hs Hi). f_equal.
    apply masked_select_ext; [congruence|].
    intros b i Hb.
    destruct (at2 input b i) as [x|] eqn:Hx.
    + apply (Hagree b i x Hx).
      rewrite (at2_non_padded_of _ _ _ _ _ Hx) in Hb. injection Hb as Hb.
      apply bool_decide_eq_true in Hb. exact Hb.
    + unfold non_padded_of in Hb. rewrite at2_map2d, Hx in Hb. discriminate.
Qed.

(** ** The balanced accuracy of the discriminator *)







(** ** The masked-language-model loss *)

Lemma forward_corrupt_with_generator g self input :
  forward_corrupt (with_generator g self) input = forward_corrupt self input.
Proof. reflexivity. Qed.

Lemma shape_of_rows {A} (t : list (list (list A))) :
  shape t = length <$> (shape <$> t).
Proof.
  unfold shape. rewrite <- list_fmap_compose. apply list_fmap_ext.
  intros _ row _. simpl. rewrite length_fmap. reflexivity.
Qed.

Lemma argmax_Ok_iff row : (exists z, argmax row = Ok z) <-> row <> [].
Proof.
  destruct row as [|x row]; simpl; split.
  - intros [z H]. discriminate.
  - intros H. contradiction.
  - discriminate.
  - eauto.
Qed.

Lemma rows_argmax_shape (r1 r2 : list (list R)) g1 :
  shape r1 = shape r2 ->
  rows_result argmax r1 = Ok g1 -> exists g2, rows_result argmax r2 = Ok g2.
Proof.
  revert r2 g1. induction r1 as [|x r1 IH]; intros [|y r2] g1 Hs H;
    try (cbn in Hs; discriminate Hs); [exists []; reflexivity|].
  rewrite !shape_cons in Hs. injection Hs as Hl Hs. simpl in H |- *.
  destruct (argmax x) as [zx|] eqn:Hx; [|discriminate].
  destruct (rows_result argmax r1) as [g1'|] eqn:Hr; [|discriminate].
  destruct (IH r2 g1' Hs eq_refl) as (g2 & ->).
  destruct (proj2 (argmax_Ok_iff y)) as (zy & ->).
  - intros ->. destruct x; [discriminate|discriminate].
  - eauto.
Qed.

Lemma gen_predictions_shape (t1 t2 : list (list (list R))) g1 :
  shape <$> t1 = shape <$> t2 ->
  rows_result (rows_result argmax) t1 = Ok g1 ->
  exists g2, rows_result (rows_result argmax) t2 = Ok g2.
Proof.
  revert t2 g1. induction t1 as [|r1 t1 IH]; intros [|r2 t2] g1 Hs H;
    try discriminate; [exists []; reflexivity|].
  rewrite !fmap_cons in Hs. injection Hs as Hl Hs. simpl in H |- *.
  destruct (rows_result argmax r1) as [z1|] eqn:Hx; [|discriminate].
  destruct (rows_result (rows_result argmax) t1) as [g1'|] eqn:Hr; [|discriminate].
  destruct (IH t2 g1' Hs eq_refl) as (g2 & ->).
  destruct (rows_argmax_shape r1 r2 z1 Hl Hx) as (z2 & ->). eauto.
Qed.

(** The loss reads the logits at the positions whose target is not the
    ignored index, and no others. *)
Lemma cross_entropy_ext (L1 L2 : list (list (list R))) target ignore_index :
  shape L1 = shape L2 ->
  (forall b i c, at2 target b i = Some c -> c <> ignore_index ->
                 at2 L1 b i = at2 L2 b i) ->
  cross_entropy L1 target ignore_index = cross_entropy L2 target ignore_index.
Proof.
  intros Hs Hagree. unfold cross_entropy, same_shape.
  change (@fmap list _ _ _ length L1) with (shape L1).
  change (@fmap list _ _ _ length L2) with (shape L2).
  rewrite Hs.
  rewrite (masked_select_ext L1 L2); [reflexivity|exact Hs|].
  intros b i Hk. rewrite at2_map2d in Hk.
  destruct (at2 target b i) as [c|] eqn:Hc; [|discriminate].
  apply (Hagree b i c Hc). simpl in Hk. injection Hk as Hk.
  apply negb_true_iff in Hk. apply Z.eqb_neq in Hk. exact Hk.
Qed.

(** C8.  Two runs of [forward] from the same state that differ only in the
    generator, whose logits have the same [B,T,V] shape and agree at every
    masked position: the second run returns as the first does and computes
    the same [mlm_loss].  The logits at non-masked positions, whose
    generator label is [pad_token_id], do not enter the loss. *)
Theorem C8_mlm_loss_noninterference self g2 input w l1 :
  run (forward_locals self input) w = Ok l1 ->
  shape <$> g2 (Corrupted.masked_input (Locals.corrupted l1))
  = shape <$> Locals.logits l1 ->
  (forall b i,
     at2 (Corrupted.mask (Locals.corrupted l1)) b i = Some true ->
     at2 (g2 (Corrupted.masked_input (Locals.corrupted l1))) b i
     = at2 (Locals.logits l1) b i) ->
  exists l2,
    run (forward_locals (with_generator g2 self) input) w = Ok l2
    /\ Locals.logits l2 = g2 (Corrupted.masked_input (Locals.corrupted l1))
    /\ Locals.mlm_loss l2 = Locals.mlm_loss l1.
Proof.
  intros H Hs3 Hagree. apply run_Ok in H as (w' & H).
  apply forward_locals_Ok in H
    as (w1 & w2 & c & mlm & sampled & dlogits & gpred
        & Hc & Hce & Hgs & Hd & Hgp & -> & ->).
  simpl in Hs3, Hagree.
  set (L1 := generator self (Corrupted.masked_input c)) in *.
  set (L2 := g2 (Corrupted.masked_input c)) in *.
  assert (Hs : shape L2 = shape L1).
  { rewrite !shape_of_rows, Hs3. reflexivity. }
  assert (Hsel : masked_select L2 (Corrupted.mask c)
                 = masked_select L1 (Corrupted.mask c)).
  { apply masked_select_ext; assumption. }
  assert (Hce2 : cross_entropy L2 (Corrupted.gen_labels c) (pad_token_id self)
                 = Ok mlm).
  { rewrite <- Hce. apply cross_entropy_ext; [exact Hs|].
    intros b i x Hx Hne. apply Hagree.
    assert (Hrun : run (forward_corrupt self input) w = Ok c)
      by (apply run_Ok; eauto).
    rewrite (gen_labels_closed_form _ _ _ _ Hrun), at2_zip2d in Hx.
    destruct (at2 input b i); [|discriminate].
    destruct (at2 (Corrupted.mask c) b i) as [[]|]; [reflexivity| |discriminate].
    injection Hx as <-. contradiction. }
  destruct (gen_predictions_shape L1 L2 gpred (eq_sym Hs3) Hgp) as (gpred2 & Hgp2).
  exists (locals_of (with_generator g2 self) input c mlm sampled dlogits gpred2).
  split; [|split; reflexivity].
  apply run_Ok. eexists. apply forward_locals_Ok.
  exists w1, w2, c, mlm, sampled, dlogits, gpred2.
  split; [exact Hc|]. split; [exact Hce2|].
  split; [simpl; fold L2; rewrite Hsel; exact Hgs|].
  split; [exact Hd|]. split; [exact Hgp2|]. split; reflexivity.
Qed.

(** ** A complete run of [forward] *)

Section Rounding.





Lemma argmax_from_const x besti i n :
  argmax_from x besti i (replicate n x) = besti.
Proof.
  revert i. induction n as [|n IH]; intros i; simpl; [reflexivity|].
  destruct (Rlt_dec x x) as [H|_]; [exfalso; lra|]. apply IH.
Qed.

Lemma argmax_const x n : argmax (replicate (S n) x) = Ok 0.
Proof. simpl. rewrite argmax_from_const. reflexivity. Qed.

End Rounding.

Lemma const_draws w q n k :
  (forall i, rng w i = q) -> rng w <$> seq k n = replicate n q.
Proof.
  intros H. revert k. induction n as [|n IH]; intros k; simpl; [reflexivity|].
  rewrite H. f_equal. apply IH.
Qed.

Lemma zip_with_replicate_same {A B C} (f : A -> B -> C) n a b :
  zip_with f (replicate n a) (replicate n b) = replicate n (f a b).
Proof. induction n as [|n IH]; simpl; [reflexivity|]. f_equal. exact IH. Qed.

(** The Gumbel sample of one row of equal logits under equal draws is the
    first token. *)
Lemma gumbel_sample_const_row x n temp w q :
  (forall i, rng w i = q) ->
  gumbel_sample [replicate (S n) x] temp w
  = (mkWorld (fun i => rng w (S n + i)%nat) (trace w), Ok [0]).
Proof.
  intros H. unfold gumbel_sample, bind.
  cbn [uniform_like]. unfold bind, draw_uniform, ret, lift.
  rewrite length_replicate, (const_draws w q _ _ H).
  unfold zip2d. cbn [zip_with].
  rewrite zip_with_replicate_same. cbn [rows_result].
  rewrite argmax_const. reflexivity.
Qed.

(** On the batch [[1, 2]] with every draw 1/4, position 0 is masked and
    resampled to token 0, position 1 is left alone. *)
Lemma example_run :
  run (forward_locals electra_example [[1; 2]]) quarter = Ok example_locals.
Proof.
  apply run_Ok. eexists. apply forward_locals_Ok.
  exists quarter,
    (mkWorld (fun _ => (1 # 4)%Q) [CallGenerator [[4; 2]]]),
    example_corrupted,
    (mean [(ln (Rsum (exp <$> replicate 3 0%R)) - 0)%R]),
    [0], [[1%R; (-1)%R]], [[0; 0]].
  split; [vm_compute; reflexivity|].
  split; [reflexivity|].
  split.
  { change (masked_select _ _) with [replicate 3 0%R].
    rewrite (gumbel_sample_const_row _ _ _ _ (1 # 4)%Q) by reflexivity.
    reflexivity. }
  split; [reflexivity|].
  split.
  { change (generator electra_example (Corrupted.masked_input example_corrupted))
      with [[replicate 3 0%R; replicate 3 0%R]].
    cbn [rows_result]. rewrite argmax_const. reflexivity. }
  split; reflexivity.
Qed.



(** In the example the token 1 of position 0 was resampled to 0, and the
    label of the position is 1; no position is a pad, and the loss is the
    average of the term of the replaced position 0, with logit 1, and of
    the term of the original position 1, with logit -1. *)
Lemma C6_witness :
  at2 (Locals.disc_labels example_locals) 0 0
  = Some (if bool_decide (1 <> 0) then 1%R else 0%R)
  /\ Locals.disc_loss example_locals
     = average [bce_term 1 true; bce_term (-1) false].
Proof.
  destruct (C6_disc_labels_and_loss
              electra_example [[1; 2]] quarter example_locals example_run)
    as (Hlabels & _ & Hloss & _).
  split.
  - apply (Hlabels 0%nat 0%nat 1 0); reflexivity.
  - exact Hloss.
Defined.

(** In the example the second generator differs from the first at the
    unmasked position 1 only, and the loss is the same. *)
Lemma C8_witness :
  at2 (other_logits [[4; 2]]) 0 1 <> at2 (zero_logits [[4; 2]]) 0 1
  /\ exists l2,
       run (forward_locals (with_generator other_logits electra_example)
                           [[1; 2]]) quarter = Ok l2
       /\ Locals.logits l2 = other_logits [[4; 2]]
       /\ Locals.mlm_loss l2 = Locals.mlm_loss example_locals.
Proof.
  split.
  - simpl. intros H. injection H as H. lra.
  - apply (C8_mlm_loss_noninterference
             electra_example other_logits [[1; 2]] quarter example_locals
             example_run).
    + reflexivity.
    + intros [|[|b]] [|[|i]] H; try discriminate H; reflexivity.
Defined.


(** * Further properties *)

(** ** Padding a sentence *)

(** X3.  For a positive [max_length], [sentence_mask_to_max_length]
    returns the tokens followed by between 1 and [max_length] pad tokens,
    and the length of the result is the next multiple of [max_length]
    strictly above the number of tokens: a sentence whose length is already
    a multiple (the empty one included) gets a whole block of padding. *)
Theorem X3_sentence_mask_next_multiple token_indices max_length pad :
  0 < max_length ->
  exists k : nat,
    sentence_mask_to_max_length token_indices max_length pad
    = inr (token_indices ++ replicate k pad)
    /\ 1 <= Z.of_nat k <= max_length
    /\ Z.of_nat (length (token_indices ++ replicate k pad))
       = (Z.of_nat (length token_indices) / max_length + 1) * max_length
    /\ (Z.of_nat (length token_indices) mod max_length = 0 ->
        Z.of_nat k = max_length).
Proof.
  intros Hm. unfold sentence_mask_to_max_length.
  destruct (Z.eqb_spec max_length 0) as [->|_]; [lia|].
  set (len := Z.of_nat (length token_indices)).
  pose proof (Z.mod_pos_bound len max_length Hm) as Hr.
  pose proof (Z.div_mod len max_length ltac:(lia)) as Hd.
  exists (Z.to_nat (max_length - len mod max_length)).
  split; [reflexivity|]. split; [lia|]. split.
  - rewrite length_app, length_replicate, Nat2Z.inj_add, Z2Nat.id by lia.
    fold len. nia.
  - intros H0. rewrite H0. lia.
Qed.

Lemma X3_witness :
  exists k : nat,
    sentence_mask_to_max_length [7; 8; 9; 10] 4 0
    = inr ([7; 8; 9; 10] ++ replicate k 0)
    /\ 1 <= Z.of_nat k <= 4
    /\ Z.of_nat (length ([7; 8; 9; 10] ++ replicate k 0))
       = (Z.of_nat (length [7; 8; 9; 10]) / 4 + 1) * 4
    /\ (Z.of_nat (length [7; 8; 9; 10]) mod 4 = 0 -> Z.of_nat k = 4).
Proof.
  apply (X3_sentence_mask_next_multiple [7; 8; 9; 10] 4 0). lia.
Defined.

(** X4.  [sentence_mask_to_max_length] raises [ZeroDivisionError] for
    [max_length = 0], and for a negative [max_length] it returns the
    tokens unchanged, with no padding. *)
Theorem X4_sentence_mask_nonpositive token_indices max_length pad :
  max_length <= 0 ->
  sentence_mask_to_max_length token_indices max_length pad
  = if max_length =? 0 then inl ZeroDivisionError else inr token_indices.
Proof.
  intros Hm. unfold sentence_mask_to_max_length.
  destruct (Z.eqb_spec max_length 0) as [->|Hne]; [reflexivity|].
  pose proof (Z.mod_neg_bound (Z.of_nat (length token_indices)) max_length
                ltac:(lia)) as Hr.
  rewrite Z2Nat.nonpos by lia. simpl. rewrite app_nil_r. reflexivity.
Qed.

Lemma X4_witness :
  sentence_mask_to_max_length [7; 8; 9] (-4) 0 = inr [7; 8; 9].
Proof.
  apply (X4_sentence_mask_nonpositive [7; 8; 9] (-4) 0). lia.
Defined.

(** ** What the forward pass leaves alone *)

Section AssignOff.
Context {A : Type}.

Lemma assign_row_off (row : list A) m vals i :
  m !! i <> Some true -> (assign_row row m vals).1 !! i = row !! i.
Proof.
  revert m vals i. induction row as [|x row IH]; intros [|s m] vals i Hi;
    try reflexivity.
  simpl. destruct s, vals as [|v vals], i as [|i]; simpl in *;
    try (exfalso; apply Hi; reflexivity).
  - specialize (IH m [] i Hi). destruct (assign_row row m []). exact IH.
  - specialize (IH m vals i Hi). destruct (assign_row row m vals). exact IH.
  - destruct (assign_row row m []). reflexivity.
  - specialize (IH m [] i Hi). destruct (assign_row row m []). exact IH.
  - destruct (assign_row row m (v :: vals)). reflexivity.
  - specialize (IH m (v :: vals) i Hi).
    destruct (assign_row row m (v :: vals)). exact IH.
Qed.

Lemma masked_assign_off (t : list (list A)) mask vals b i :
  at2 mask b i <> Some true ->
  at2 (masked_assign t mask vals) b i = at2 t b i.
Proof.
  revert mask vals b. induction t as [|row t IH]; intros [|m mask] vals b Hb;
    try reflexivity.
  simpl. pose proof (assign_row_off row m vals i) as Hrow.
  destruct (assign_row row m vals) as [r rest]. destruct b as [|b].
  - unfold at2 in *. simpl in *. apply Hrow, Hb.
  - unfold at2 in *. simpl in *. apply (IH mask rest b), Hb.
Qed.

Lemma assign_row_elem (row : list A) m vals i y :
  (assign_row row m vals).1 !! i = Some y -> row !! i = Some y \/ y ∈ vals.
Proof.
  revert m vals i. induction row as [|x row IH]; intros [|s m] vals i Hy;
    try (left; exact Hy).
  simpl in Hy. destruct s, vals as [|v vals].
  - specialize (IH m [] ). destruct (assign_row row m []).
    destruct i as [|i]; simpl in *; [left; exact Hy|]. apply IH, Hy.
  - specialize (IH m vals). destruct (assign_row row m vals).
    destruct i as [|i]; simpl in *.
    + right. injection Hy as <-. apply elem_of_cons. auto.
    + destruct (IH i Hy) as [H|H]; [left; exact H|].
      right. apply elem_of_cons. auto.
  - specialize (IH m []). destruct (assign_row row m []).
    destruct i as [|i]; simpl in *; [left; exact Hy|]. apply IH, Hy.
  - specialize (IH m (v :: vals)). destruct (assign_row row m (v :: vals)).
    destruct i as [|i]; simpl in *; [left; exact Hy|]. apply IH, Hy.
Qed.

Lemma assign_row_rest (row : list A) m vals y :
  y ∈ (assign_row row m vals).2 -> y ∈ vals.
Proof.
  revert m vals. induction row as [|x row IH]; intros [|s m] vals Hy;
    try exact Hy.
  simpl in Hy. destruct s, vals as [|v vals].
  - specialize (IH m []). destruct (assign_row row m []). apply IH, Hy.
  - specialize (IH m vals). destruct (assign_row row m vals).
    apply elem_of_cons. right. apply IH, Hy.
  - specialize (IH m []). destruct (assign_row row m []). apply IH, Hy.
  - specialize (IH m (v :: vals)). destruct (assign_row row m (v :: vals)).
    apply IH, Hy.
Qed.

Lemma masked_assign_elem (t : list (list A)) mask vals b i y :
  at2 (masked_assign t mask vals) b i = Some y ->
  at2 t b i = Some y \/ y ∈ vals.
Proof.
  revert mask vals b. induction t as [|row t IH]; intros [|m mask] vals b Hy;
    try (left; exact Hy).
  simpl in Hy. pose proof (assign_row_elem row m vals i y) as Hrow.
  pose proof (fun z => assign_row_rest row m vals z) as Hrest.
  destruct (assign_row row m vals) as [r rest]. destruct b as [|b].
  - unfold at2 in *. simpl in *. apply Hrow, Hy.
  - unfold at2 in *. simpl in *.
    destruct (IH mask rest b Hy) as [H|H]; [left; exact H|].
    right. apply Hrest, H.
Qed.

End AssignOff.

(** The locals in terms of [locals_of]. *)
Lemma forward_locals_run self input w l :
  run (forward_locals self input) w = Ok l ->
  exists w1 w2 mlm gpred,
    forward_corrupt self input w = (w1, Ok (Locals.corrupted l)) /\
    cross_entropy (Locals.logits l)
       (Corrupted.gen_labels (Locals.corrupted l)) (pad_token_id self) = Ok mlm /\
    gumbel_sample
      (masked_select (Locals.logits l) (Corrupted.mask (Locals.corrupted l)))
      (temperature self)
      (after_emit (CallGenerator (Corrupted.masked_input (Locals.corrupted l))) w1)
    = (w2, Ok (Locals.sampled l)) /\
    rows_result (rows_result argmax) (Locals.logits l) = Ok gpred /\
    (forward_locals self input w).1
    = after_emit (CallDiscriminator (Locals.disc_input l)) w2 /\
    l = locals_of self input (Locals.corrupted l) mlm (Locals.sampled l)
          (Locals.disc_logits l) gpred.
Proof.
  intros H. apply run_Ok in H as (w' & H). rewrite H.
  apply forward_locals_Ok in H
    as (w1 & w2 & c & mlm & sampled & dlogits & gpred
        & Hc & Hce & Hgs & _ & Hgp & -> & ->).
  exists w1, w2, mlm, gpred. simpl. auto 10.
Qed.

(** X5.  The discriminator input differs from the input at masked positions
    only: at every position that is not masked the token is the input
    token and the discriminator label is 0. *)
Theorem X5_unmasked_positions_untouched self input w l b i x :
  run (forward_locals self input) w = Ok l ->
  at2 (Corrupted.mask (Locals.corrupted l)) b i <> Some true ->
  at2 input b i = Some x ->
  at2 (Locals.disc_input l) b i = Some x
  /\ at2 (Locals.disc_labels l) b i = Some 0%R.
Proof.
  intros H Hm Hx.
  apply forward_locals_run in H as (_ & _ & mlm & gpred & _ & _ & _ & _ & _ & ->).
  simpl.
  assert (Hd : at2 (masked_assign input (Corrupted.mask (Locals.corrupted
                 (locals_of self input (Locals.corrupted l) mlm
                    (Locals.sampled l) (Locals.disc_logits l) gpred)))
                 (Locals.sampled l)) b i = Some x).
  { rewrite masked_assign_off; [exact Hx|exact Hm]. }
  simpl in Hd. split; [exact Hd|].
  unfold disc_labels_of. rewrite at2_zip2d, Hx, Hd, Z.eqb_refl. reflexivity.
Qed.

Lemma X5_witness :
  at2 (Locals.disc_input example_locals) 0 1 = Some 2
  /\ at2 (Locals.disc_labels example_locals) 0 1 = Some 0%R.
Proof.
  apply (X5_unmasked_positions_untouched
           electra_example [[1; 2]] quarter example_locals 0 1 2 example_run).
  - intros H. discriminate H.
  - reflexivity.
Defined.

(** ** The sampled tokens *)

Lemma argmax_from_range best besti i l :
  (besti < i)%nat ->
  (argmax_from best besti i l < i + length l)%nat.
Proof.
  revert best besti i. induction l as [|x l IH]; intros best besti i Hb; simpl.
  - lia.
  - destruct (Rlt_dec best x).
    + specialize (IH x i (S i) ltac:(lia)). lia.
    + specialize (IH best besti (S i) ltac:(lia)). lia.
Qed.

Lemma argmax_range row z :
  argmax row = Ok z -> 0 <= z < Z.of_nat (length row).
Proof.
  destruct row as [|x l]; [discriminate|]. simpl. intros H. injection H as <-.
  pose proof (argmax_from_range x 0 1 l ltac:(lia)). lia.
Qed.

Lemma rows_argmax_range rows zs :
  rows_result argmax rows = Ok zs ->
  Forall2 (fun row z => 0 <= z < Z.of_nat (length row)) rows zs.
Proof.
  intros H. apply rows_result_Ok in H.
  eapply Forall2_impl; [exact H|]. intros row z Hz. apply argmax_range, Hz.
Qed.

Lemma gumbel_sample_Ok t temp w w' zs :
  gumbel_sample t temp w = (w', Ok zs) ->
  trace w' = trace w /\
  Forall2 (fun row z => 0 <= z < Z.of_nat (length row)) t zs.
Proof.
  unfold gumbel_sample, bind.
  destruct (uniform_like_spec t w) as (w1 & u & -> & Hu & Ht).
  unfold lift. intros H. injection H as <- H. split; [exact Ht|].
  apply rows_argmax_range in H.
  assert (Hlen : length u = length t) by (apply shape_length, Hu).
  apply Forall2_same_length_lookup. split.
  - apply Forall2_length in H. unfold zip2d in H.
    rewrite length_zip_with in H. lia.
  - intros k row z Hrow Hz.
    destruct (lookup_lt_is_Some_2 u k) as [urow Hurow].
    { rewrite Hlen. eapply lookup_lt_Some, Hrow. }
    assert (Hk : zip2d (fun x n => (x / temp + gumbel_noise n)%R) t u !! k
                 = Some (zip_with (fun x n => (x / temp + gumbel_noise n)%R)
                                  row urow)).
    { unfold zip2d. rewrite lookup_zip_with, Hrow, Hurow. reflexivity. }
    pose proof (Forall2_lookup_lr _ _ _ _ _ _ H Hk Hz) as Hr.
    cbv beta in Hr. rewrite length_zip_with in Hr. lia.
Qed.

Lemma masked_select_rows {A} (t : list (list A)) sel row :
  row ∈ masked_select t sel -> exists b i, at2 t b i = Some row.
Proof.
  unfold masked_select. intros H.
  apply list_elem_of_In, in_concat in H as (r & Hr & H).
  apply list_elem_of_In, list_elem_of_lookup in Hr as (b & Hb).
  apply lookup_zip_with_Some in Hb as (trow & m & -> & Htrow & _).
  unfold select_row in H.
  apply list_elem_of_In, list_elem_of_omap in H as ([q s] & Hq & Hqs).
  simpl in Hqs. destruct s; [|discriminate]. injection Hqs as ->.
  apply list_elem_of_lookup in Hq as (i & Hi).
  apply lookup_zip_with_Some in Hi as (q' & s' & Heq & Hq' & _).
  injection Heq as <- _. exists b, i. apply at2_Some. eauto.
Qed.

(** X6.  Every token of the discriminator input is the input token of its
    position or a sampled id of the vocabulary: when the generator's
    logits have at most [V] entries at every position, the tokens written
    by the Gumbel sampler lie in [0, V). *)
Theorem X6_sampled_tokens_in_vocabulary self input w l V b i y :
  run (forward_locals self input) w = Ok l ->
  (forall b i row, at2 (Locals.logits l) b i = Some row ->
                   Z.of_nat (length row) <= V) ->
  at2 (Locals.disc_input l) b i = Some y ->
  at2 input b i = Some y \/ 0 <= y < V.
Proof.
  intros H HV Hy.
  apply forward_locals_run in H
    as (w1 & w2 & mlm & gpred & _ & _ & Hgs & _ & _ & Hl).
  apply gumbel_sample_Ok in Hgs as [_ Hgs].
  rewrite Hl in Hy. simpl in Hy.
  apply masked_assign_elem in Hy as [Hy|Hy]; [left; exact Hy|]. right.
  apply list_elem_of_lookup in Hy as (k & Hk).
  destruct (Forall2_lookup_r _ _ _ _ _ Hgs Hk) as (row & Hrow & Hr).
  apply list_elem_of_lookup_2, masked_select_rows in Hrow as (b' & i' & Hrow).
  specialize (HV b' i' row Hrow). lia.
Qed.

Lemma X6_witness :
  at2 [[1; 2]] 0 0 = Some 0 \/ 0 <= 0 < 3.
Proof.
  apply (X6_sampled_tokens_in_vocabulary
           electra_example [[1; 2]] quarter example_locals 3 0 0 0 example_run).
  - intros [|[|b]] [|[|i]] row H; try discriminate H;
      injection H as <-; simpl; lia.
  - reflexivity.
Defined.

(** ** Nothing masked *)

Lemma masked_select_none {A} (t : list (list A)) sel :
  (forall b i, at2 sel b i <> Some true) -> masked_select t sel = [].
Proof.
  unfold masked_select. revert sel.
  induction t as [|row t IH]; intros [|m sel] H; try reflexivity.
  simpl. rewrite IH by (intros b i; apply (H (S b) i)).
  rewrite app_nil_r.
  assert (Hm : forall i, m !! i <> Some true) by (intros i; apply (H 0%nat i)).
  clear -Hm. revert m Hm.
  induction row as [|x row IH]; intros [|s m] Hm; try reflexivity.
  rewrite select_row_cons. destruct s.
  - exfalso. apply (Hm 0%nat). reflexivity.
  - apply IH. intros i. apply (Hm (S i)).
Qed.

Lemma get_mask_subset_with_prob_none mask prob w w' r :
  get_mask_subset_with_prob mask prob w = (w', Ok r) ->
  max_masked_of prob (seq_len_of mask) <= 0 ->
  forall b i, at2 r b i <> Some true.
Proof.
  intros H Hk b i Hb.
  apply get_mask_subset_with_prob_Ok in H as (_ & _ & H).
  apply at2_Some in Hb as (row & Hrow & Hi).
  destruct (H b row Hrow) as (idx & Hlen & ->).
  destruct idx as [|j idx]; [|simpl in Hlen; lia].
  unfold scatter_ones in Hi. simpl in Hi. rewrite drop_0 in Hi.
  rewrite list_lookup_fmap in Hi.
  destruct (replicate (seq_len_of mask) 0%Q !! i) as [q|] eqn:Hq; [|discriminate].
  apply lookup_replicate in Hq as [-> _]. discriminate.
Qed.

Lemma max_masked_of_zero prob T : (prob == 0)%Q -> max_masked_of prob T = 0.
Proof.
  intros H. unfold max_masked_of.
  assert (Hz : (prob * inject_Z (Z.of_nat T) == 0)%Q) by (rewrite H; ring).
  rewrite Hz. reflexivity.
Qed.

(** With no position masked, the losses and accuracies that average over
    masked positions are NaN. *)
Lemma forward_locals_unmasked self input w l :
  run (forward_locals self input) w = Ok l ->
  (forall b i, at2 (Corrupted.mask (Locals.corrupted l)) b i <> Some true) ->
  Locals.mlm_loss l = None /\ Locals.gen_acc l = None
  /\ Locals.disc_acc l = None.
Proof.
  intros H Hm.
  apply forward_locals_run in H
    as (w1 & w2 & mlm & gpred & Hc & Hce & _ & _ & _ & Hl).
  assert (Hrun : run (forward_corrupt self input) w = Ok (Locals.corrupted l))
    by (apply run_Ok; eauto).
  assert (Hmlm : mlm = None).
  { unfold cross_entropy in Hce.
    destruct (same_shape _ _); [|discriminate].
    rewrite (masked_select_none (Locals.logits l)) in Hce.
    - simpl in Hce. injection Hce as <-. reflexivity.
    - intros b i Hk. rewrite at2_map2d in Hk.
      rewrite (gen_labels_closed_form _ _ _ _ Hrun), at2_zip2d in Hk.
      destruct (at2 input b i) as [x|]; [|discriminate].
      destruct (at2 (Corrupted.mask (Locals.corrupted l)) b i) as [[]|] eqn:E;
        [exact (Hm b i E)| |discriminate].
      simpl in Hk. rewrite Z.eqb_refl in Hk. discriminate. }
  rewrite Hl. simpl. split; [exact Hmlm|].
  unfold gen_acc_of, disc_acc_of.
  rewrite !(masked_select_none _ (Corrupted.mask (Locals.corrupted l))) by exact Hm.
  split; reflexivity.
Qed.

(** X7.  With [mask_prob = 0] nothing is masked, and a forward pass that
    returns reports NaN for [mlm_loss], for the total [loss], for
    [gen_acc] and for [disc_acc]. *)
Theorem X7_mask_prob_zero_gives_nan self input w r :
  (mask_prob self == 0)%Q ->
  run (forward self input) w = Ok r ->
  Results.mlm_loss r = None /\ Results.loss r = None
  /\ Results.gen_acc r = None /\ Results.disc_acc r = None.
Proof.
  intros Hp H. apply forward_Ok in H as (l & Hl & ->). simpl.
  assert (Hm : forall b i,
             at2 (Corrupted.mask (Locals.corrupted l)) b i <> Some true).
  { pose proof Hl as Hl'.
    apply forward_locals_run in Hl' as (w1 & _ & _ & _ & Hc & _).
    apply forward_corrupt_Ok in Hc as (wa & wb & rp & mk & mi & _ & Hmk & _ & ->).
    simpl. eapply get_mask_subset_with_prob_none; [exact Hmk|].
    rewrite max_masked_of_zero by exact Hp. lia. }
  destruct (forward_locals_unmasked _ _ _ _ Hl Hm) as (-> & -> & ->).
  auto.
Qed.

Lemma unmasked_run :
  exists r, run (forward electra_unmasked [[1; 2]]) quarter = Ok r.
Proof.
  eexists. apply forward_Ok. eexists. split; [|reflexivity].
  apply run_Ok. eexists. apply forward_locals_Ok.
  exists quarter,
    (mkWorld (fun _ => (1 # 4)%Q) [CallGenerator [[1; 2]]]),
    (Corrupted.mk [[true; true]] [[false; false]] [[false; false]]
                  [[1; 2]] [[0; 0]]),
    None, [], [[1%R; (-1)%R]], [[0; 0]].
  split; [vm_compute; reflexivity|].
  split; [reflexivity|].
  split; [reflexivity|].
  split; [reflexivity|].
  split.
  { change (generator electra_unmasked _)
      with [[replicate 3 0%R; replicate 3 0%R]].
    cbn [rows_result]. rewrite argmax_const. reflexivity. }
  split; reflexivity.
Qed.

Lemma X7_witness :
  exists r,
    run (forward electra_unmasked [[1; 2]]) quarter = Ok r
    /\ Results.mlm_loss r = None /\ Results.loss r = None
    /\ Results.gen_acc r = None /\ Results.disc_acc r = None.
Proof.
  destruct unmasked_run as [r Hr]. exists r. split; [exact Hr|].
  apply (X7_mask_prob_zero_gives_nan electra_unmasked [[1; 2]] quarter r).
  - reflexivity.
  - exact Hr.
Defined.

(** ** The range of the accuracies *)

Lemma Rsum_unit (l : list R) :
  Forall (fun x => 0 <= x <= 1)%R l -> (0 <= Rsum l <= INR (length l))%R.
Proof.
  induction 1 as [|x l Hx _ IH].
  - simpl. lra.
  - change (Rsum (x :: l)) with (x + Rsum l)%R.
    change (length (x :: l)) with (S (length l)). rewrite S_INR. lra.
Qed.

Lemma mean_unit (l : list R) a :
  Forall (fun x => 0 <= x <= 1)%R l -> mean l = Some a -> (0 <= a <= 1)%R.
Proof.
  intros Hl. destruct l as [|x l]; [discriminate|].
  intros H. injection H as <-.
  pose proof (Rsum_unit _ Hl) as [H0 H1].
  assert (Hn : (0 < INR (length (x :: l)))%R) by (apply lt_0_INR; simpl; lia).
  split.
  - apply Rmult_le_pos; [exact H0|]. left. apply Rinv_0_lt_compat, Hn.
  - apply (Rmult_le_reg_r (INR (length (x :: l)))); [exact Hn|].
    unfold Rdiv. rewrite Rmult_assoc, Rinv_l by lra.
    change (Rsum (x :: l)) with (x + Rsum l)%R in H1. lra.
Qed.

Lemma zip_with_unit {A B} (f : A -> B -> R) (l1 : list A) (l2 : list B) :
  (forall a b, 0 <= f a b <= 1)%R ->
  Forall (fun x => 0 <= x <= 1)%R (zip_with f l1 l2).
Proof.
  intros Hf. revert l2. induction l1 as [|a l1 IH]; intros [|b l2]; simpl;
    constructor; [apply Hf|apply IH].
Qed.

Lemma eq_float_unit a b : (0 <= eq_float a b <= 1)%R.
Proof. unfold eq_float. destruct (Req_dec_T a b); lra. Qed.

(** X8.  The accuracies reported by [forward] are NaN or lie between 0 and
    1: [gen_acc] is a mean of indicators, [disc_acc] half the sum of two
    such means. *)
Theorem X8_accuracies_in_unit_interval self input w r :
  run (forward self input) w = Ok r ->
  (forall a, Results.gen_acc r = Some a -> (0 <= a <= 1)%R)
  /\ (forall a, Results.disc_acc r = Some a -> (0 <= a <= 1)%R).
Proof.
  intros H. apply forward_Ok in H as (l & Hl & ->). simpl.
  apply forward_locals_run in Hl as (_ & _ & mlm & gpred & _ & _ & _ & _ & _ & ->).
  simpl. split.
  - intros a Ha. unfold gen_acc_of in Ha. eapply mean_unit; [|exact Ha].
    apply zip_with_unit. intros x y. destruct (x =? y); lra.
  - intros a Ha. unfold disc_acc_of in Ha.
    match type of Ha with
    | plus (scale _ (mean ?l1)) (scale _ (mean ?l2)) = _ =>
        destruct (mean l1) as [a1|] eqn:H1; [|discriminate];
        destruct (mean l2) as [a2|] eqn:H2; [|discriminate];
        apply mean_unit in H1; [|apply zip_with_unit, eq_float_unit];
        apply mean_unit in H2; [|apply zip_with_unit, eq_float_unit]
    end.
    simpl in Ha. injection Ha as <-. lra.
Qed.

Lemma example_forward :
  exists r, run (forward electra_example [[1; 2]]) quarter = Ok r
            /\ Results.disc_acc r = Locals.disc_acc example_locals.
Proof.
  eexists. split.
  - apply forward_Ok. exists example_locals.
    split; [exact example_run|reflexivity].
  - reflexivity.
Qed.

Lemma X8_witness :
  exists r,
    run (forward electra_example [[1; 2]]) quarter = Ok r
    /\ (forall a, Results.disc_acc r = Some a -> (0 <= a <= 1)%R).
Proof.
  destruct example_forward as (r & Hr & _). exists r. split; [exact Hr|].
  exact (proj2 (X8_accuracies_in_unit_interval
                  electra_example [[1; 2]] quarter r Hr)).
Defined.

(** ** The order of the calls *)

Lemma random_substitution_trace self input mi0 w w' mi :
  random_substitution self input mi0 w = (w', Ok mi) ->
  trace w' = trace w ++ (if Qlt_le_dec 0 (random_token_prob self)
                         then [RandomSubstitution] else []).
Proof.
  unfold random_substitution.
  destruct (Qlt_le_dec 0 (random_token_prob self)) as [Hlt|Hle].
  - destruct (num_tokens self) as [n|]; [|discriminate].
    intros H.
    apply bind_Ok in H as (w1 & draw & Hd & H).
    apply bind_Ok in H as (w2 & tokens & Htk & H).
    apply bind_Ok in H as (w3 & [] & He & H).
    apply ret_Ok in H as [-> _]. apply emit_Ok in He as ->.
    apply prob_mask_like_Ok in Hd as [_ Hd].
    apply randint_like_Ok in Htk as [_ Htk].
    simpl. congruence.
  - intros H. apply ret_Ok in H as [-> _]. rewrite app_nil_r. reflexivity.
Qed.

(** X9.  A forward pass that returns has called the generator exactly once,
    on the corrupted input, and then the discriminator exactly once, on
    the discriminator input; the random substitution precedes both and
    happens exactly when [random_token_prob > 0]. *)
Theorem X9_models_called_once_in_order self input w r :
  run (forward self input) w = Ok r ->
  exists l,
    run (forward_locals self input) w = Ok l /\
    trace (forward self input w).1
    = trace w
      ++ (if Qlt_le_dec 0 (random_token_prob self)
          then [RandomSubstitution] else [])
      ++ [CallGenerator (Corrupted.masked_input (Locals.corrupted l));
          CallDiscriminator (Locals.disc_input l)].
Proof.
  intros H. apply forward_Ok in H as (l & Hl & _). exists l.
  split; [exact Hl|].
  assert (Hf : (forward self input w).1 = (forward_locals self input w).1).
  { apply run_Ok in Hl as (w' & Hl'). unfold forward, bind. rewrite Hl'.
    reflexivity. }
  rewrite Hf.
  apply forward_locals_run in Hl
    as (w1 & w2 & mlm & gpred & Hc & _ & Hgs & _ & -> & _).
  apply gumbel_sample_Ok in Hgs as [Hgs _].
  apply forward_corrupt_Ok in Hc
    as (wa & wb & rp & mk & mi & Hrp & Hmk & Hmi & Hceq).
  apply prob_mask_like_Ok in Hrp as [_ Hrp].
  apply get_mask_subset_with_prob_trace in Hmk.
  apply random_substitution_trace in Hmi.
  simpl. rewrite Hgs. simpl. rewrite Hmi, Hmk, Hrp.
  rewrite <- !app_assoc. reflexivity.
Qed.

Lemma X9_witness :
  exists l,
    run (forward_locals electra_example [[1; 2]]) quarter = Ok l /\
    trace (forward electra_example [[1; 2]] quarter).1
    = trace quarter
      ++ (if Qlt_le_dec 0 (random_token_prob electra_example)
          then [RandomSubstitution] else [])
      ++ [CallGenerator (Corrupted.masked_input (Locals.corrupted l));
          CallDiscriminator (Locals.disc_input l)].
Proof.
  destruct example_forward as (r & Hr & _).
  exact (X9_models_called_once_in_order electra_example [[1; 2]] quarter r Hr).
Defined.

(** ** When [topk] raises *)

Lemma rows_result_head_raise {A B} (f : A -> result B) x t e :
  f x = Raise e -> rows_result f (x :: t) = Raise e.
Proof. intros H. simpl. rewrite H. reflexivity. Qed.

(** X10.  On a non-empty [B,T] batch, [get_mask_subset_with_prob] raises
    the [topk] error exactly when [ceil(prob * T)] is negative or exceeds
    [T] (a probability above 1, or far enough below 0); otherwise it
    returns a mask. *)
Theorem X10_selection_raises_iff_cap_out_of_range mask prob w :
  mask <> [] ->
  Forall (fun row => length row = seq_len_of mask) mask ->
  (run (get_mask_subset_with_prob mask prob) w
   = Raise (RuntimeError "selected index k out of range")
   <-> ~ (0 <= max_masked_of prob (seq_len_of mask)
            <= Z.of_nat (seq_len_of mask)))
  /\ ((exists r, run (get_mask_subset_with_prob mask prob) w = Ok r)
      <-> 0 <= max_masked_of prob (seq_len_of mask)
            <= Z.of_nat (seq_len_of mask)).
Proof.
  intros Hne Hrect.
  assert (Hin : 0 <= max_masked_of prob (seq_len_of mask)
                  <= Z.of_nat (seq_len_of mask) ->
                exists r, run (get_mask_subset_with_prob mask prob) w = Ok r).
  { intros Hk.
    destruct (get_mask_subset_with_prob_total mask prob w Hrect Hk)
      as (w' & r & H).
    exists r. apply run_Ok. eauto. }
  assert (Hout : ~ (0 <= max_masked_of prob (seq_len_of mask)
                      <= Z.of_nat (seq_len_of mask)) ->
                 run (get_mask_subset_with_prob mask prob) w
                 = Raise (RuntimeError "selected index k out of range")).
  { intros Hk. unfold run, get_mask_subset_with_prob, bind.
    destruct (uniform_like_spec mask w) as (w1 & u & -> & Hu & _).
    fold (max_masked_of prob (seq_len_of mask)).
    destruct mask as [|row mask]; [contradiction|].
    destruct u as [|urow u]; [cbn in Hu; discriminate Hu|].
    rewrite !shape_cons in Hu. injection Hu as Hl _.
    unfold lift, zip2d. cbn [zip_with].
    rewrite (rows_result_head_raise _ _ _
               (RuntimeError "selected index k out of range")); [reflexivity|].
    unfold topk. rewrite length_zip_with, Hl, Nat.min_id.
    change (seq_len_of (row :: mask)) with (length row) in *.
    destruct (max_masked_of prob (length row) <? 0) eqn:H0; [reflexivity|].
    destruct (Z.of_nat (length row) <? max_masked_of prob (length row)) eqn:H1;
      [reflexivity|].
    apply Z.ltb_ge in H0, H1. exfalso. apply Hk. lia. }
  split; split.
  - intros H Hk. destruct (Hin Hk) as (r & Hr). congruence.
  - exact Hout.
  - intros (r & Hr).
    destruct (decide (0 <= max_masked_of prob (seq_len_of mask)
                        <= Z.of_nat (seq_len_of mask))) as [Hk|Hk];
      [exact Hk|].
    rewrite (Hout Hk) in Hr. discriminate.
  - exact Hin.
Qed.

Lemma X10_witness :
  (run (get_mask_subset_with_prob [[true; false; true]] (3 # 2)) quarter
   = Raise (RuntimeError "selected index k out of range")
   <-> ~ (0 <= max_masked_of (3 # 2) 3 <= 3))
  /\ ((exists r,
         run (get_mask_subset_with_prob [[true; false; true]] (3 # 2)) quarter
         = Ok r)
      <-> 0 <= max_masked_of (3 # 2) 3 <= 3).
Proof.
  apply (X10_selection_raises_iff_cap_out_of_range
           [[true; false; true]] (3 # 2) quarter).
  - discriminate.
  - repeat constructor.
Defined.

(** ** The selection stays within the eligible positions when enough are
    eligible *)

Section RowForm.

Lemma uniform_like_values {A} (t : list (list A)) w w' u :
  uniform_like t w = (w', Ok u) ->
  forall b i q, at2 u b i = Some q -> exists j, q = rng w j.
Proof.
  revert w w' u. induction t as [|r t IH]; intros w w' u H b i q Hq.
  - simpl in H. apply ret_Ok in H as [_ ->]. destruct b; discriminate.
  - simpl in H. apply bind_Ok in H as (w1 & row & Hrow & H).
    apply bind_Ok in H as (w2 & us & Hus & H). apply ret_Ok in H as [_ ->].
    unfold draw_uniform in Hrow. injection Hrow as <- <-.
    destruct b as [|b].
    + unfold at2 in Hq. simpl in Hq. rewrite list_lookup_fmap in Hq.
      destruct (seq 0 (length r) !! i) as [j|]; [|discriminate].
      injection Hq as <-. eauto.
    + destruct (IH _ _ _ Hus b i q Hq) as (j & ->). simpl. eauto.
Qed.

(** With the exact ceilings it is [get_mask_subset_with_prob]. *)
Lemma get_mask_subset_with_prob_ceilings mask prob :
  get_mask_subset_with_prob mask prob
  = get_mask_subset_with_ceilings
      (Qceiling (prob * inject_Z (Z.of_nat (seq_len_of mask))))
      (fun n => Qceiling (inject_Z n * prob)) mask.
Proof. reflexivity. Qed.

(** The batch function is the row function mapped over the rows and their
    draws. *)
Lemma get_mask_subset_with_ceilings_rows k cutoff mask w w' r :
  get_mask_subset_with_ceilings k cutoff mask w = (w', Ok r) ->
  exists u,
    shape u = shape mask /\
    (forall b i q, at2 u b i = Some q -> exists j, q = rng w j) /\
    (forall b mrow urow, mask !! b = Some mrow -> u !! b = Some urow ->
       0 <= k <= Z.of_nat (length mrow)) /\
    r = zip_with (fun mrow urow =>
                    subset_row (seq_len_of mask) k (cutoff (count_true mrow))
                               mrow urow) mask u.
Proof.
  unfold get_mask_subset_with_ceilings. intros H.
  apply bind_Ok in H as (w1 & u & Hu & H).
  pose proof (uniform_like_values _ _ _ _ Hu) as Hval.
  assert (Hs : shape u = shape mask).
  { destruct (uniform_like_spec mask w) as (w1' & u' & Hu' & Hs & _).
    rewrite Hu in Hu'. injection Hu' as _ <-. exact Hs. }
  apply bind_Ok in H as (w2 & idxs & Hidx & H).
  apply lift_Ok in Hidx as [-> Hidx]. apply ret_Ok in H as [-> ->].
  apply rows_result_Ok in Hidx.
  exists u. split; [exact Hs|]. split; [exact Hval|]. split.
  - intros b mrow urow Hm Hub.
    assert (Hrb : zip2d (fun x (m : bool) => if m then x else (-(1000000000#1))%Q)
                    u mask !! b
                  = Some (zip_with (fun x (m : bool) =>
                            if m then x else (-(1000000000#1))%Q) urow mrow)).
    { unfold zip2d. rewrite lookup_zip_with, Hub, Hm. reflexivity. }
    destruct (Forall2_lookup_l _ _ _ _ _ Hidx Hrb) as (idx & _ & Htop).
    apply topk_Ok in Htop as [Hk _].
    rewrite length_zip_with, (shape_row_length _ _ _ _ _ Hs Hub Hm), Nat.min_id in Hk.
    exact Hk.
  - apply list_eq. intros b.
    unfold map2d. rewrite !list_lookup_fmap, !lookup_zip_with, list_lookup_fmap.
    destruct (mask !! b) as [mrow|] eqn:Hm; simpl; [|reflexivity].
    destruct (u !! b) as [urow|] eqn:Hub; simpl.
    + assert (Hrb : zip2d (fun x (m : bool) => if m then x else (-(1000000000#1))%Q)
                      u mask !! b
                    = Some (zip_with (fun x (m : bool) =>
                              if m then x else (-(1000000000#1))%Q) urow mrow)).
      { unfold zip2d. rewrite lookup_zip_with, Hub, Hm. reflexivity. }
      destruct (Forall2_lookup_l _ _ _ _ _ Hidx Hrb) as (idx & Hib & Htop).
      apply topk_Ok in Htop as [_ ->].
      unfold zip2d. repeat (rewrite ?list_lookup_fmap, ?lookup_zip_with).
      rewrite Hib, Hm. simpl. reflexivity.
    + exfalso. apply lookup_ge_None in Hub. apply lookup_lt_Some in Hm.
      rewrite (shape_length _ _ Hs) in Hub. lia.
Qed.

End RowForm.

Section SortedTopk.

Lemma insert_desc_sorted p l :
  StronglySorted desc l -> StronglySorted desc (insert_desc p l).
Proof.
  induction 1 as [|q l Hs IH Hq]; simpl.
  - constructor; constructor.
  - unfold Qgeb. destruct (Qlt_le_dec p.1 q.1) as [Hlt|Hle].
    + constructor; [exact IH|].
      rewrite insert_desc_perm. constructor; [|exact Hq].
      unfold desc. apply Qlt_le_weak, Hlt.
    + constructor; [constructor; assumption|].
      constructor; [exact Hle|].
      eapply Forall_impl; [exact Hq|]. intros r Hr. unfold desc in *.
      eapply Qle_trans; eassumption.
Qed.

Lemma sort_desc_sorted l : StronglySorted desc (sort_desc l).
Proof.
  induction l as [|p l IH]; simpl; [constructor|].
  apply insert_desc_sorted, IH.
Qed.

Lemma above_fill_desc p q :
  desc p q -> above_fill q = true -> above_fill p = true.
Proof.
  unfold desc, above_fill. intros H.
  destruct (Qlt_le_dec (-(1000000000#1)) q.1) as [Hq|]; [|discriminate].
  intros _. destruct (Qlt_le_dec (-(1000000000#1)) p.1) as [|Hp]; [reflexivity|].
  exfalso. apply (Qlt_not_le _ _ Hq). eapply Qle_trans; eassumption.
Qed.

(** In a list sorted by descending priority the entries above the fill
    value come first. *)
Lemma sorted_above_fill_first l j p :
  StronglySorted desc l ->
  l !! j = Some p ->
  (j < length (List.filter above_fill l))%nat ->
  above_fill p = true.
Proof.
  intros Hs. revert j. induction Hs as [|q l Hs IH Hq]; intros j Hj Hlt.
  - discriminate.
  - simpl in Hlt. destruct (above_fill q) eqn:Eq.
    + destruct j as [|j]; [injection Hj as <-; exact Eq|].
      apply (IH j Hj). simpl in Hlt. lia.
    + assert (Hnil : List.filter above_fill l = []).
      { clear -Hq Eq. induction Hq as [|r l Hr _ IH]; [reflexivity|].
        simpl. destruct (above_fill r) eqn:Er; [|exact IH].
        rewrite (above_fill_desc _ _ Hr Er) in Eq. discriminate. }
      rewrite Hnil in Hlt. simpl in Hlt. lia.
Qed.

Lemma filter_above_fill_perm l1 l2 :
  l1 ≡ₚ l2 ->
  length (List.filter above_fill l1) = length (List.filter above_fill l2).
Proof.
  induction 1 as [|x l1 l2 _ IH|x y l|l1 l2 l3 _ IH1 _ IH2]; simpl.
  - reflexivity.
  - destruct (above_fill x); simpl; lia.
  - destruct (above_fill x), (above_fill y); reflexivity.
  - lia.
Qed.

(** With every draw above the fill value, the priorities above it are
    those of the eligible positions. *)
Lemma filter_above_fill_rand (urow : list Q) (mrow : list bool) k :
  length urow = length mrow ->
  Forall (fun q => (-(1000000000#1) < q)%Q) urow ->
  Z.of_nat
    (length (List.filter above_fill
       (zip (zip_with (fun x (m : bool) => if m then x else (-(1000000000#1))%Q)
                      urow mrow)
            (seq k (length mrow)))))
  = count_true mrow.
Proof.
  revert mrow k. induction urow as [|q urow IH]; intros [|m mrow] k Hl Hq;
    try discriminate; [reflexivity|].
  injection Hl as Hl. apply Forall_cons in Hq as [Hq Hqs].
  specialize (IH mrow (S k) Hl Hqs). cbn [length seq zip_with zip count_true].
  cbn [List.filter]. unfold above_fill at 1. cbn [fst].
  destruct m.
  - destruct (Qlt_le_dec (-(1000000000#1)) q) as [_|Hle];
      [|exfalso; exact (Qlt_not_le _ _ Hq Hle)].
    rewrite length_cons, Nat2Z.inj_succ, IH. lia.
  - destruct (Qlt_le_dec (-(1000000000#1)) (-(1000000000#1))) as [Hlt|_];
      [exfalso; exact (Qlt_irrefl _ Hlt)|].
    rewrite IH. lia.
Qed.

Lemma zip_seq_lookup {A} (l : list A) j p :
  zip l (seq 0 (length l)) !! j = Some p -> l !! p.2 = Some p.1.
Proof.
  intros H. apply lookup_zip_with_Some in H as (x & i & -> & Hx & Hi).
  apply lookup_seq in Hi as [-> _]. exact Hx.
Qed.

(** The first entries of [topk], as many as there are eligible positions,
    are eligible positions. *)
Lemma topk_indices_eligible (urow : list Q) (mrow : list bool) k j i :
  length urow = length mrow ->
  Forall (fun q => (-(1000000000#1) < q)%Q) urow ->
  topk_indices k
    (zip_with (fun x (m : bool) => if m then x else (-(1000000000#1))%Q)
              urow mrow) !! j = Some i ->
  Z.of_nat j < count_true mrow ->
  mrow !! i = Some true.
Proof.
  intros Hl Hq Hj Hlt. unfold topk_indices in Hj.
  set (rand := zip_with _ urow mrow) in *.
  assert (Hlr : length rand = length mrow).
  { unfold rand. rewrite length_zip_with. lia. }
  rewrite list_lookup_fmap in Hj.
  destruct (take k (sort_desc (zip rand (seq 0 (length rand)))) !! j)
    as [p|] eqn:Hp; [|discriminate].
  injection Hj as <-.
  apply lookup_take_Some in Hp as [Hp _].
  assert (Hgood : above_fill p = true).
  { eapply sorted_above_fill_first; [apply sort_desc_sorted|exact Hp|].
    rewrite (filter_above_fill_perm _ _ (sort_desc_perm _)).
    pose proof (filter_above_fill_rand urow mrow 0 Hl Hq) as Hc.
    fold rand in Hc. rewrite Hlr. lia. }
  assert (Hin : p ∈ zip rand (seq 0 (length rand))).
  { rewrite <- (sort_desc_perm _). eapply list_elem_of_lookup_2, Hp. }
  apply list_elem_of_lookup in Hin as (j' & Hj').
  apply zip_seq_lookup in Hj'.
  unfold rand in Hj'. apply lookup_zip_with_Some in Hj' as (x & m & Hv & _ & Hm).
  destruct m; [exact Hm|].
  unfold above_fill in Hgood. rewrite Hv in Hgood.
  destruct (Qlt_le_dec (-(1000000000#1)) (-(1000000000#1))) as [Hlt'|_];
    [exfalso; exact (Qlt_irrefl _ Hlt')|discriminate].
Qed.

End SortedTopk.

Section KeptEntries.

Lemma cumsum_from_sorted acc m :
  StronglySorted Z.le (cumsum_from acc m)
  /\ Forall (fun c => acc <= c) (cumsum_from acc m).
Proof.
  revert acc. induction m as [|b m IH]; intros acc; simpl.
  - split; constructor.
  - destruct (IH (acc + (if b then 1 else 0))) as [Hs Hf]. split.
    + constructor; [exact Hs|]. exact Hf.
    + constructor; [destruct b; lia|].
      eapply Forall_impl; [exact Hf|]. intros c Hc. simpl in Hc.
      destruct b; lia.
Qed.

Lemma StronglySorted_take {A} (R : A -> A -> Prop) l k :
  StronglySorted R l -> StronglySorted R (take k l).
Proof.
  intros H. revert k. induction H as [|x l Hs IH Hx]; intros [|k]; simpl;
    try constructor.
  - apply IH.
  - apply Forall_take, Hx.
Qed.

(** On a non-decreasing list the excess flags are a run of [false]
    followed by a run of [true]. *)
Lemma excess_flags_sorted (c : Z) (l : list Z) :
  StronglySorted Z.le l ->
  (fun x => c <? x) <$> l
  = replicate (length (List.filter (fun x => negb (c <? x)) l)) false
    ++ replicate (length l - length (List.filter (fun x => negb (c <? x)) l))
                 true.
Proof.
  induction 1 as [|x l Hs IH Hx]; [reflexivity|].
  rewrite fmap_cons. cbn [List.filter].
  destruct (c <? x) eqn:E; cbn [negb].
  - assert (Hall : Forall (fun y => (c <? y) = true) l).
    { eapply Forall_impl; [exact Hx|]. intros y Hy. simpl in Hy.
      apply Z.ltb_lt in E. apply Z.ltb_lt. lia. }
    assert (Hnil : List.filter (fun y => negb (c <? y)) l = []).
    { clear -Hall. induction Hall as [|y l Hy _ IH]; [reflexivity|].
      simpl. rewrite Hy. exact IH. }
    rewrite Hnil. cbn [length replicate app]. rewrite Nat.sub_0_r.
    cbn [replicate]. f_equal.
    clear -Hall. induction Hall as [|y l Hy _ IH]; [reflexivity|].
    rewrite fmap_cons, Hy. cbn [length replicate]. f_equal. exact IH.
  - cbn [length replicate app]. rewrite IH at 1. reflexivity.
Qed.

Lemma length_filter_le {A} (f : A -> bool) l :
  (length (List.filter f l) <= length l)%nat.
Proof.
  induction l as [|x l IH]; simpl; [lia|]. destruct (f x); simpl; lia.
Qed.

Lemma zip_with_excess_flags (idx : list nat) a b :
  length idx = (a + b)%nat ->
  zip_with (fun i (e : bool) => if e then 0%nat else S i) idx
           (replicate a false ++ replicate b true)
  = (S <$> take a idx) ++ replicate b 0%nat.
Proof.
  revert idx. induction a as [|a IH]; intros idx Hl.
  - simpl. revert idx Hl. induction b as [|b IHb]; intros [|i idx] Hl;
      try discriminate; [reflexivity|].
    simpl. f_equal. apply IHb. simpl in Hl. lia.
  - destruct idx as [|i idx]; [discriminate|]. simpl. f_equal.
    apply IH. simpl in Hl. lia.
Qed.

Lemma scatter_ones_app base l1 l2 :
  scatter_ones base (l1 ++ l2) = scatter_ones (scatter_ones base l1) l2.
Proof. unfold scatter_ones. apply foldl_app. Qed.

Lemma drop1_scatter_zeros base b :
  drop 1 (scatter_ones base (replicate b 0%nat)) = drop 1 base.
Proof.
  revert base. induction b as [|b IH]; intros base; [reflexivity|].
  change (scatter_ones base (replicate (S b) 0%nat))
    with (scatter_ones (<[0%nat := 1%Q]> base) (replicate b 0%nat)).
  rewrite IH. destruct base; reflexivity.
Qed.

Lemma selected_lookup (T : nat) (idx : list nat) i :
  (to_bool <$> drop 1 (scatter_ones (replicate (S T) 0%Q) (S <$> idx))) !! i
  = Some true ->
  i ∈ idx.
Proof.
  intros H. rewrite list_lookup_fmap, lookup_drop in H.
  change (1 + i)%nat with (S i) in H.
  destruct (decide (i ∈ idx)) as [Hin|Hnin]; [exact Hin|].
  rewrite scatter_ones_notin in H.
  - destruct (replicate (S T) 0%Q !! S i) as [q|] eqn:Hq; [|discriminate].
    apply lookup_replicate in Hq as [-> _]. discriminate.
  - intros Hin. apply list_elem_of_fmap in Hin as (j & Hj & Hin).
    injection Hj as <-. contradiction.
Qed.

Lemma count_true_insert_fresh (base : list Q) i :
  base !! i = Some 0%Q ->
  count_true (to_bool <$> <[i := 1%Q]> base)
  = count_true (to_bool <$> base) + 1.
Proof.
  revert i. induction base as [|x base IHb]; intros [|i] Hb;
    try discriminate.
  - injection Hb as ->.
    change (<[0%nat := 1%Q]> (0%Q :: base)) with (1%Q :: base).
    rewrite !fmap_cons. cbn [count_true].
    change (to_bool 1%Q) with true. change (to_bool 0%Q) with false.
    cbv iota. lia.
  - change (<[S i := 1%Q]> (x :: base)) with (x :: <[i := 1%Q]> base).
    rewrite !fmap_cons. cbn [count_true]. rewrite (IHb i Hb). lia.
Qed.

Lemma count_true_scatter_fresh base idx :
  NoDup idx ->
  (forall j, j ∈ idx -> base !! j = Some 0%Q) ->
  count_true (to_bool <$> scatter_ones base idx)
  = count_true (to_bool <$> base) + Z.of_nat (length idx).
Proof.
  unfold scatter_ones. intros Hnd. revert base.
  induction Hnd as [|i idx Hi Hnd IH]; intros base Hz; simpl; [lia|].
  rewrite IH.
  - rewrite count_true_insert_fresh by (apply Hz, elem_of_cons; auto). lia.
  - intros j Hj. rewrite list_lookup_insert_ne.
    + apply Hz, elem_of_cons. auto.
    + intros ->. contradiction.
Qed.

Lemma count_selected (T : nat) (idx : list nat) :
  NoDup idx -> (forall i, i ∈ idx -> (i < T)%nat) ->
  count_true (to_bool <$> drop 1 (scatter_ones (replicate (S T) 0%Q) (S <$> idx)))
  = Z.of_nat (length idx).
Proof.
  intros Hnd Hlt.
  pose proof (count_true_scatter_fresh (replicate (S T) 0%Q) (S <$> idx)) as H.
  rewrite count_true_zeros, length_fmap, Z.add_0_l in H.
  rewrite <- H.
  - assert (H0 : scatter_ones (replicate (S T) 0%Q) (S <$> idx) !! 0%nat
                 = Some 0%Q).
    { rewrite scatter_ones_notin; [reflexivity|].
      intros Hin. apply list_elem_of_fmap in Hin as (j & Hj & _). discriminate. }
    destruct (scatter_ones (replicate (S T) 0%Q) (S <$> idx)) as [|x l];
      [discriminate|].
    injection H0 as ->. cbn. rewrite drop_0. reflexivity.
  - apply (NoDup_fmap_2 S), Hnd.
  - intros j Hj. apply list_elem_of_fmap in Hj as (i & -> & Hi).
    apply lookup_replicate. split; [reflexivity|]. specialize (Hlt i Hi). lia.
Qed.

Lemma topk_indices_NoDup k row : NoDup (topk_indices k row).
Proof.
  unfold topk_indices. rewrite fmap_take.
  eapply sublist_NoDup; [|apply sublist_take].
  rewrite sort_desc_perm, snd_zip_seq. apply NoDup_seq.
Qed.

End KeptEntries.

(** A row of the mask is the scatter of the first [kept_entries] entries
    of [topk]. *)
Lemma subset_row_kept (T : nat) (k : Z) (c : Z) mrow urow :
  length urow = length mrow -> length mrow = T -> 0 <= k <= Z.of_nat T ->
  subset_row T k c mrow urow
  = to_bool <$> drop 1
      (scatter_ones (replicate (S T) 0%Q)
         (S <$> take
            (length (List.filter (fun x => negb (c <? x))
                                 (take (Z.to_nat k) (cumsum mrow))))
            (topk_indices (Z.to_nat k)
               (zip_with (fun x (m : bool) =>
                            if m then x else (-(1000000000#1))%Q) urow mrow)))).
Proof.
  intros Hlu Hlm Hk. unfold subset_row.
  set (rand := zip_with _ urow mrow).
  set (k' := Z.to_nat k).
  assert (Hk' : (k' <= T)%nat) by (unfold k'; lia).
  assert (Hlc : length (take k' (cumsum mrow)) = k').
  { rewrite length_take. unfold cumsum. rewrite length_cumsum_from. lia. }
  assert (Hli : length (topk_indices k' rand) = k').
  { apply length_topk_indices. unfold rand. rewrite length_zip_with. lia. }
  rewrite <- fmap_take.
  rewrite (excess_flags_sorted c (take k' (cumsum mrow)))
    by (apply StronglySorted_take, cumsum_from_sorted).
  set (a := length (List.filter (fun x => negb (c <? x)) (take k' (cumsum mrow)))).
  assert (Ha : (a <= k')%nat).
  { unfold a. rewrite <- Hlc at 2. apply length_filter_le. }
  rewrite Hlc.
  rewrite zip_with_excess_flags by (rewrite Hli; lia).
  rewrite scatter_ones_app, drop1_scatter_zeros. reflexivity.
Qed.

Lemma selection_of_kept_entries k cutoff mask w r b mrow row :
  (forall j, (-(1000000000#1) < rng w j)%Q) ->
  Forall (fun row => length row = seq_len_of mask) mask ->
  run (get_mask_subset_with_ceilings k cutoff mask) w = Ok r ->
  mask !! b = Some mrow ->
  r !! b = Some row ->
  kept_entries k (cutoff (count_true mrow)) mrow <= count_true mrow ->
  0 <= k <= Z.of_nat (seq_len_of mask)
  /\ (forall i, row !! i = Some true -> mrow !! i = Some true)
  /\ count_true row = kept_entries k (cutoff (count_true mrow)) mrow.
Proof.
  intros Hrng Hrect H Hm Hr Hkept.
  apply run_Ok in H as (w' & H).
  apply get_mask_subset_with_ceilings_rows in H as (u & Hs & Hval & Hk & ->).
  apply lookup_zip_with_Some in Hr as (mrow' & urow & -> & Hm' & Hu).
  rewrite Hm in Hm'. injection Hm' as <-.
  assert (Hlm : length mrow = seq_len_of mask).
  { rewrite Forall_lookup in Hrect. apply (Hrect _ _ Hm). }
  assert (Hlu : length urow = length mrow)
    by apply (shape_row_length _ _ _ _ _ Hs Hu Hm).
  assert (Hq : Forall (fun q => (-(1000000000#1) < q)%Q) urow).
  { apply Forall_lookup. intros i q Hi.
    destruct (Hval b i q) as (j & ->); [apply at2_Some; eauto|]. apply Hrng. }
  specialize (Hk b mrow urow Hm Hu). rewrite Hlm in Hk.
  split; [exact Hk|].
  rewrite (subset_row_kept _ _ _ _ _ Hlu Hlm Hk).
  unfold kept_entries in *.
  set (a := length (List.filter _ _)) in *.
  set (idx := topk_indices _ _).
  split.
  - intros i Hi. apply selected_lookup in Hi.
    apply list_elem_of_lookup in Hi as (j & Hj).
    apply lookup_take_Some in Hj as [Hj Hja].
    eapply (topk_indices_eligible urow mrow); [exact Hlu|exact Hq|exact Hj|lia].
  - rewrite count_selected.
    + rewrite length_take.
      assert (Hli : length idx = Z.to_nat k).
      { apply length_topk_indices. rewrite length_zip_with. lia. }
      assert (Ha : (a <= length (take (Z.to_nat k) (cumsum mrow)))%nat)
        by apply length_filter_le.
      rewrite length_take in Ha. lia.
    + eapply sublist_NoDup; [|apply sublist_take]. apply topk_indices_NoDup.
    + intros i Hi. apply elem_of_take in Hi as (j & Hj & _).
      apply list_elem_of_lookup_2, topk_indices_lt in Hj.
      rewrite length_zip_with in Hj. lia.
Qed.

(** X11.  Whatever the values of the two floating-point ceilings, with
    random priorities above the fill value [-1e9] (those of [torch.rand]
    are in [0, 1)), a row of a [B,T] batch in which [mask_excess] leaves
    no more entries of [topk] than the row has eligible positions is
    masked within its eligible positions only, and the number of masked
    positions is the number of entries left. *)
Theorem X11_selection_within_eligibility max_masked cutoff mask w r b mrow row :
  (forall j, (-(1000000000#1) < rng w j)%Q) ->
  Forall (fun row => length row = seq_len_of mask) mask ->
  run (get_mask_subset_with_ceilings max_masked cutoff mask) w = Ok r ->
  mask !! b = Some mrow ->
  r !! b = Some row ->
  kept_entries max_masked (cutoff (count_true mrow)) mrow <= count_true mrow ->
  (forall i, row !! i = Some true -> mrow !! i = Some true)
  /\ count_true row
     = kept_entries max_masked (cutoff (count_true mrow)) mrow.
Proof.
  intros Hrng Hrect H Hm Hr Hkept.
  apply (selection_of_kept_entries _ _ _ _ _ _ _ _ Hrng Hrect H Hm Hr Hkept).
Qed.

Lemma X11_witness :
  (forall i,
     (replicate 16 true ++ replicate 24 false) !! i = Some true ->
     text_25_pad_15 !! i = Some true)
  /\ count_true (replicate 16 true ++ replicate 24 false)
     = kept_entries 24 16 text_25_pad_15.
Proof.
  apply (X11_selection_within_eligibility
           24 (fun _ => 16) [text_25_pad_15] quarter
           [replicate 16 true ++ replicate 24 false] 0%nat).
  - intros j. reflexivity.
  - repeat constructor.
  - vm_compute. reflexivity.
  - reflexivity.
  - reflexivity.
  - vm_compute. discriminate.
Defined.

Section TextThenPadding.

Lemma cumsum_from_lookup acc m j x :
  cumsum_from acc m !! j = Some x -> x = acc + count_true (take (S j) m).
Proof.
  revert acc j. induction m as [|b m IH]; intros acc j H; [discriminate|].
  simpl in H. destruct j as [|j].
  - injection H as <-. cbn. rewrite take_0. cbn. lia.
  - apply IH in H. rewrite H.
    change (take (S (S j)) (b :: m)) with (b :: take (S j) m).
    cbn [count_true]. lia.
Qed.

Lemma count_true_app l1 l2 :
  count_true (l1 ++ l2) = count_true l1 + count_true l2.
Proof. induction l1 as [|b l1 IH]; simpl; [reflexivity|]. rewrite IH. lia. Qed.

Lemma count_true_replicate n (b : bool) :
  count_true (replicate n b) = if b then Z.of_nat n else 0.
Proof.
  induction n as [|n IH]; [destruct b; reflexivity|].
  cbn [replicate count_true]. rewrite IH. destruct b; lia.
Qed.

Lemma count_true_take_prefix n m j :
  count_true (take j (replicate n true ++ replicate m false))
  = Z.of_nat (Nat.min j n).
Proof.
  rewrite take_app, take_replicate, length_replicate, take_replicate.
  rewrite count_true_app, !count_true_replicate. lia.
Qed.

Lemma filter_all {A} (f : A -> bool) l :
  Forall (fun x => f x = true) l -> List.filter f l = l.
Proof.
  induction 1 as [|x l Hx _ IH]; [reflexivity|]. simpl. rewrite Hx, IH.
  reflexivity.
Qed.

Lemma filter_none {A} (f : A -> bool) l :
  Forall (fun x => f x = false) l -> List.filter f l = [].
Proof.
  induction 1 as [|x l Hx _ IH]; [reflexivity|]. simpl. rewrite Hx. exact IH.
Qed.

(** The entries left in a row whose eligible positions are its first [n],
    when the cut-off is below [n]. *)
Lemma kept_entries_prefix k c n m :
  0 <= k <= Z.of_nat (n + m) ->
  0 <= c < Z.of_nat n ->
  kept_entries k c (replicate n true ++ replicate m false) = Z.min c k.
Proof.
  intros Hk Hc. unfold kept_entries.
  set (mrow := replicate n true ++ replicate m false).
  set (k' := Z.to_nat k).
  set (c' := Z.to_nat (Z.min c k)).
  assert (Hlen : length (cumsum mrow) = (n + m)%nat).
  { unfold cumsum, mrow. rewrite length_cumsum_from, length_app, !length_replicate.
    reflexivity. }
  assert (Hsplit : take k' (cumsum mrow)
                   = take c' (cumsum mrow) ++ drop c' (take k' (cumsum mrow))).
  { rewrite <- (take_drop c' (take k' (cumsum mrow))) at 1.
    rewrite take_take. f_equal. f_equal. unfold c', k'. lia. }
  rewrite Hsplit, List.filter_app, length_app.
  rewrite filter_all, filter_none.
  - rewrite length_take, Hlen. simpl. unfold c'. lia.
  - apply Forall_lookup. intros j x Hj.
    rewrite lookup_drop in Hj. apply lookup_take_Some in Hj as [Hj Hjk].
    apply cumsum_from_lookup in Hj. unfold mrow in Hj.
    rewrite count_true_take_prefix in Hj.
    apply negb_false_iff, Z.ltb_lt. unfold c', k' in *. lia.
  - apply Forall_lookup. intros j x Hj.
    apply lookup_take_Some in Hj as [Hj Hjc].
    apply cumsum_from_lookup in Hj. unfold mrow in Hj.
    rewrite count_true_take_prefix in Hj.
    apply negb_true_iff, Z.ltb_ge. unfold c' in *. lia.
Qed.

End TextThenPadding.

(** X12.  Text followed by padding.  Whatever the values of the two
    floating-point ceilings, with random priorities above the fill value,
    a row of a [B,T] batch whose eligible positions are its first [n], and
    whose cut-off [(num_tokens * prob).ceil()] is [c] with [0 <= c < n],
    is masked at exactly [min(c, max_masked)] positions, all of them among
    the first [n]. *)
Theorem X12_text_then_padding max_masked cutoff mask w r b n m row :
  (forall j, (-(1000000000#1) < rng w j)%Q) ->
  Forall (fun row => length row = seq_len_of mask) mask ->
  run (get_mask_subset_with_ceilings max_masked cutoff mask) w = Ok r ->
  mask !! b = Some (replicate n true ++ replicate m false) ->
  r !! b = Some row ->
  0 <= cutoff (Z.of_nat n) < Z.of_nat n ->
  (forall i, row !! i = Some true -> (i < n)%nat)
  /\ count_true row = Z.min (cutoff (Z.of_nat n)) max_masked.
Proof.
  intros Hrng Hrect H Hm Hr Hc.
  assert (HT : seq_len_of mask = (n + m)%nat).
  { rewrite Forall_lookup in Hrect. rewrite <- (Hrect _ _ Hm).
    rewrite length_app, !length_replicate. reflexivity. }
  assert (Hn : count_true (replicate n true ++ replicate m false)
               = Z.of_nat n).
  { rewrite count_true_app, !count_true_replicate. lia. }
  assert (Hk : 0 <= max_masked <= Z.of_nat (n + m)).
  { pose proof H as H'. apply run_Ok in H' as (w' & H').
    apply get_mask_subset_with_ceilings_rows in H' as (u & Hs & _ & Hk & _).
    destruct (u !! b) as [urow|] eqn:Hu.
    - specialize (Hk b _ urow Hm Hu).
      rewrite length_app, !length_replicate in Hk. exact Hk.
    - exfalso. apply lookup_ge_None in Hu. apply lookup_lt_Some in Hm.
      rewrite (shape_length _ _ Hs) in Hu. lia. }
  pose proof (kept_entries_prefix max_masked _ n m Hk Hc) as Hkept.
  destruct (selection_of_kept_entries
              max_masked cutoff mask w r b _ row Hrng Hrect H Hm Hr)
    as (_ & Hsub & Hcount).
  - rewrite Hn, Hkept. lia.
  - rewrite Hn in Hcount. split; [|rewrite Hcount; exact Hkept].
    intros i Hi. apply Hsub in Hi.
    destruct (decide (i < n)%nat) as [Hlt|Hge]; [exact Hlt|].
    rewrite lookup_app_r in Hi by (rewrite length_replicate; lia).
    apply lookup_replicate in Hi as [Hi _]. discriminate.
Qed.

Lemma X12_witness :
  (forall i,
     [true; false; false; false; false; false; false; false; false; false] !! i
     = Some true -> (i < 6)%nat)
  /\ count_true [true; false; false; false; false; false; false; false; false;
                 false]
     = Z.min 1 2.
Proof.
  apply (X12_text_then_padding
           2 (fun _ => 1)
           [[true; true; true; true; true; true; false; false; false; false]]
           quarter
           [[true; false; false; false; false; false; false; false; false; false]]
           0%nat 6 4).
  - intros j. reflexivity.
  - repeat constructor.
  - vm_compute. reflexivity.
  - reflexivity.
  - reflexivity.
  - lia.
Defined.

(** ** The hidden-layer extractor *)

Section ExtractorFacts.
Context {X Y : Type}.
Implicit Types (net : Net X Y) (s : Extractor.t Y).

Lemma fire_no_hook (h : option Y) (calls : list (LayerId * Y)) :
  foldl (fun h (c : LayerId * Y) =>
           if bool_decide (c.1 ∈ @nil LayerId) then Some c.2 else h) h calls
  = h.
Proof.
  revert h. induction calls as [|c calls IH]; intros h; [reflexivity|].
  cbn [foldl]. rewrite bool_decide_eq_false_2 by apply not_elem_of_nil. apply IH.
Qed.

Lemma fire_one_hook (l : LayerId) (h : option Y) (calls : list (LayerId * Y)) :
  foldl (fun h (c : LayerId * Y) =>
           if bool_decide (c.1 ∈ [l]) then Some c.2 else h) h calls
  = match last_output l calls with Some y => Some y | None => h end.
Proof.
  unfold last_output.
  induction calls as [|c calls IH] using rev_ind; [reflexivity|].
  rewrite foldl_app, List.filter_app. cbn [foldl List.filter]. rewrite IH.
  destruct (Nat.eqb_spec c.1 l) as [He|Hne].
  - rewrite bool_decide_eq_true_2 by (apply list_elem_of_singleton; exact He).
    rewrite last_snoc. reflexivity.
  - rewrite bool_decide_eq_false_2, app_nil_r; [reflexivity|].
    intros Hin. apply list_elem_of_singleton in Hin. contradiction.
Qed.

Lemma find_layer_layer net s1 s2 :
  Extractor.layer s1 = Extractor.layer s2 ->
  Extractor._find_layer net s1 = Extractor._find_layer net s2.
Proof. unfold Extractor._find_layer. intros ->. reflexivity. Qed.

Lemma extractor_inv_init net l : extractor_inv net (Extractor.init l).
Proof. split; reflexivity. Qed.

(** One call, from a state between calls. *)
Lemma forward_step net s x :
  extractor_inv net s ->
  Extractor.layer (Extractor.forward net s x).1 = Extractor.layer s
  /\ extractor_inv net (Extractor.forward net s x).1
  /\ if Extractor.is_final (Extractor.layer s) then
       (Extractor.forward net s x).2 = (call net x).2
       /\ Extractor.hidden (Extractor.forward net s x).1 = None
     else
       match Extractor._find_layer net s with
       | inl e =>
           (Extractor.forward net s x).2 = inl e
           /\ Extractor.hidden (Extractor.forward net s x).1 = None
       | inr None =>
           (Extractor.forward net s x).2
           = inl (PyAssertionError
                    ("hidden layer (" ++ layer_str (Extractor.layer s)
                     ++ ") not found"))
           /\ Extractor.hidden (Extractor.forward net s x).1 = None
       | inr (Some l) =>
           (Extractor.forward net s x).2
           = extracted net (Extractor.layer s) l (Extractor.hidden s) x
           /\ Extractor.hidden (Extractor.forward net s x).1
              = captured net l (Extractor.hidden s) x
       end.
Proof.
  intros Hinv. destruct s as [lay hid reg hks].
  unfold extractor_inv in Hinv.
  cbn [Extractor.layer Extractor.hook_registered Extractor.hooks
       Extractor.hidden] in Hinv.
  unfold Extractor.forward, extracted, captured.
  cbn [Extractor.layer Extractor.hook_registered Extractor.hidden].
  destruct (Extractor.is_final lay) eqn:Hf.
  - unfold Extractor.run_net. destruct (call net x) as [calls out].
    cbn [fst snd Extractor.layer Extractor.hidden Extractor.hooks
         Extractor.hook_registered].
    destruct reg.
    + destruct Hinv as [Hk _]. congruence.
    + destruct Hinv as [-> ->]. rewrite fire_no_hook.
      unfold extractor_inv. cbn. repeat split.
  - destruct reg; cbn [negb].
    + destruct Hinv as (_ & l & Hl & ->). rewrite Hl.
      unfold Extractor.run_net. destruct (call net x) as [calls [e|out]];
        cbn [fst snd Extractor.layer Extractor.hidden Extractor.hooks
             Extractor.hook_registered];
        rewrite fire_one_hook.
      * split; [reflexivity|]. split; [|split; reflexivity].
        unfold extractor_inv. cbn. split; [exact Hf|].
        exists l. split; [exact Hl|reflexivity].
      * destruct (last_output l calls) as [y|]; [|destruct hid as [y|]];
          (split; [reflexivity|]; split; [|split; reflexivity];
           unfold extractor_inv; cbn; split; [exact Hf|];
           exists l; split; [exact Hl|reflexivity]).
    + destruct Hinv as [-> ->]. unfold Extractor._register_hook.
      destruct (Extractor._find_layer net (Extractor.mk lay None false []))
        as [e|[l|]] eqn:Hl;
        cbn [Extractor.layer Extractor.hidden Extractor.hooks
             Extractor.hook_registered app].
      * unfold extractor_inv. cbn. repeat split.
      * unfold Extractor.run_net. destruct (call net x) as [calls [e|out]];
          cbn [fst snd Extractor.layer Extractor.hidden Extractor.hooks
               Extractor.hook_registered];
          rewrite fire_one_hook.
        -- split; [reflexivity|]. split; [|split; reflexivity].
           unfold extractor_inv. cbn. split; [exact Hf|].
           exists l. split; [exact Hl|reflexivity].
        -- destruct (last_output l calls) as [y|];
             (split; [reflexivity|]; split; [|split; reflexivity];
              unfold extractor_inv; cbn; split; [exact Hf|];
              exists l; split; [exact Hl|reflexivity]).
      * unfold extractor_inv. cbn. repeat split.
Qed.

Lemma after_inv net s xs :
  extractor_inv net s ->
  Extractor.layer (Extractor.after net s xs) = Extractor.layer s
  /\ extractor_inv net (Extractor.after net s xs).
Proof.
  unfold Extractor.after. revert s.
  induction xs as [|x xs IH]; intros s Hs; [split; [reflexivity|exact Hs]|].
  simpl. destruct (forward_step net s x Hs) as (Hl & Hinv & _).
  destruct (IH _ Hinv) as [Hl' Hinv']. split; [congruence|exact Hinv'].
Qed.

Lemma after_snoc net s xs x :
  Extractor.after net s (xs ++ [x])
  = (Extractor.forward net (Extractor.after net s xs) x).1.
Proof. unfold Extractor.after. rewrite foldl_app. reflexivity. Qed.

Lemma captured_returns net l h x :
  net_returns net x -> captured net l h x = None.
Proof.
  unfold net_returns, captured. destruct (call net x).2; [contradiction|].
  reflexivity.
Qed.

Lemma stale_output_returns net l xs :
  Forall (net_returns net) xs -> stale_output net l xs = None.
Proof.
  unfold stale_output. induction 1 as [|x xs Hx _ IH]; [reflexivity|].
  cbn [foldl]. rewrite (captured_returns _ _ _ _ Hx). exact IH.
Qed.

(** No output is left when every call of the network returned. *)
Lemma after_hidden_returns net l xs :
  Forall (net_returns net) xs ->
  Extractor.hidden (Extractor.after net (Extractor.init l) xs) = None.
Proof.
  induction xs as [|x xs IH] using rev_ind; intros H; [reflexivity|].
  apply Forall_app in H as [Hxs Hx]. apply Forall_inv in Hx.
  rewrite after_snoc.
  destruct (after_inv net (Extractor.init l) xs (extractor_inv_init net l))
    as [_ Hinv].
  destruct (forward_step net _ x Hinv) as (_ & _ & Hres).
  destruct (Extractor.is_final _); [apply Hres|].
  destruct (Extractor._find_layer net _) as [e|[i|]]; try apply Hres.
  destruct Hres as [_ ->]. apply captured_returns, Hx.
Qed.

(** The output left by the calls [xs], for a layer that is found. *)
Lemma after_hidden_found net l i xs :
  Extractor.is_final l = false ->
  Extractor._find_layer net (Extractor.init l) = inr (Some i) ->
  Extractor.hidden (Extractor.after net (Extractor.init l) xs)
  = stale_output net i xs.
Proof.
  intros Hf Hi. induction xs as [|x xs IH] using rev_ind; [reflexivity|].
  rewrite after_snoc. unfold stale_output. rewrite foldl_app. cbn [foldl].
  fold (stale_output net i xs). rewrite <- IH.
  destruct (after_inv net (Extractor.init l) xs (extractor_inv_init net l))
    as [Hl Hinv].
  destruct (forward_step net _ x Hinv) as (_ & _ & Hres).
  rewrite Hl in Hres. cbn [Extractor.layer Extractor.init] in Hres.
  rewrite Hf in Hres.
  rewrite (find_layer_layer net _ (Extractor.init l)) in Hres by exact Hl.
  rewrite Hi in Hres. apply Hres.
Qed.

(** A call for a layer that is found, after the calls [xs]. *)
Lemma forward_found net l i xs x :
  Extractor.is_final l = false ->
  Extractor._find_layer net (Extractor.init l) = inr (Some i) ->
  (Extractor.forward net (Extractor.after net (Extractor.init l) xs) x).2
  = extracted net l i (stale_output net i xs) x.
Proof.
  intros Hf Hi.
  destruct (after_inv net (Extractor.init l) xs (extractor_inv_init net l))
    as [Hl Hinv].
  destruct (forward_step net _ x Hinv) as (_ & _ & Hres).
  rewrite Hl in Hres. cbn [Extractor.layer Extractor.init] in Hres.
  rewrite Hf in Hres.
  rewrite (find_layer_layer net _ (Extractor.init l)) in Hres by exact Hl.
  rewrite Hi in Hres.
  rewrite (after_hidden_found net l i xs Hf Hi) in Hres. apply Hres.
Qed.

End ExtractorFacts.

(** X13.  Whatever calls of [forward] were made, and whether they returned
    or raised, the network carries no hook of the extractor, or exactly
    one, on the layer [_find_layer] finds: the hook is registered at most
    once.  When every call of the network returned, [self.hidden] is
    [None] between calls; a call in which the network raises can leave a
    captured output behind. *)
Theorem X13_extractor_between_calls {X Y} (net : Net X Y) l (xs : list X) :
  extractor_inv net (Extractor.after net (Extractor.init l) xs)
  /\ (length (Extractor.hooks (Extractor.after net (Extractor.init l) xs))
      <= 1)%nat
  /\ (Forall (net_returns net) xs ->
      Extractor.hidden (Extractor.after net (Extractor.init l) xs) = None).
Proof.
  destruct (after_inv net (Extractor.init l) xs (extractor_inv_init net l))
    as [_ Hinv].
  split; [exact Hinv|]. split; [|apply after_hidden_returns].
  unfold extractor_inv in Hinv.
  destruct (Extractor.hook_registered _).
  - destruct Hinv as (_ & i & _ & ->). simpl. lia.
  - destruct Hinv as [-> _]. simpl. lia.
Qed.

(** X14.  For a layer other than [-1] that [_find_layer] finds, a call of
    [forward] after the calls [xs] raises what the network raises, and
    otherwise returns the output of the last call of that layer made
    during this [net(x)].  When the layer was not called, it returns the
    output an earlier call left in [self.hidden] (one in which the
    network raised after the layer ran), and raises the assertion "never
    emitted an output" only when nothing was left; nothing is left when
    every earlier call of the network returned. *)
Theorem X14_extractor_returns_last_output {X Y} (net : Net X Y) l i xs x :
  Extractor.is_final l = false ->
  Extractor._find_layer net (Extractor.init l) = inr (Some i) ->
  (Extractor.forward net (Extractor.after net (Extractor.init l) xs) x).2
  = extracted net l i (stale_output net i xs) x
  /\ (Forall (net_returns net) xs -> stale_output net i xs = None).
Proof.
  intros Hf Hi. split; [apply forward_found; assumption|].
  apply stale_output_returns.
Qed.

Lemma X14_witness :
  (Extractor.forward three_layers
     (Extractor.after three_layers (Extractor.init (LayerIndex (-2))) [5; 6])
     7).2 = inr 10
  /\ (Extractor.forward three_layers
        (Extractor.after three_layers (Extractor.init (LayerIndex (-2))) [-1])
        0).2 = inr 1.
Proof.
  split.
  - apply (X14_extractor_returns_last_output three_layers (LayerIndex (-2))
             2%nat [5; 6] 7); reflexivity.
  - apply (X14_extractor_returns_last_output three_layers (LayerIndex (-2))
             2%nat [-1] 0); reflexivity.
Defined.

Section PyLookup.
Context {A : Type}.

Lemma py_index_out_of_range (l : list A) (z : Z) :
  z < - Z.of_nat (length l) \/ Z.of_nat (length l) <= z ->
  py_index l z = inl IndexError.
Proof.
  intros Hz. unfold py_index.
  destruct (l !! Z.to_nat _) as [a|] eqn:Ha; [|reflexivity].
  destruct (Z.ltb_spec z (- Z.of_nat (length l))) as [|Hge]; [reflexivity|].
  exfalso. apply lookup_lt_Some in Ha.
  destruct (Z.ltb_spec z 0) as [Hneg|Hpos]; lia.
Qed.

Lemma py_index_in_range (l : list A) (z : Z) :
  - Z.of_nat (length l) <= z < Z.of_nat (length l) ->
  exists a, py_index l z = inr a
            /\ l !! Z.to_nat (z mod Z.of_nat (length l)) = Some a.
Proof.
  intros Hz. unfold py_index.
  assert (Hi : (if z <? 0 then Z.of_nat (length l) + z else z)
               = z mod Z.of_nat (length l)).
  { destruct (Z.ltb_spec z 0) as [Hneg|Hpos].
    - apply Z.mod_unique with (q := -1); lia.
    - symmetry. apply Z.mod_small. lia. }
  rewrite Hi.
  assert (Hlt : (Z.to_nat (z mod Z.of_nat (length l)) < length l)%nat).
  { pose proof (Z.mod_pos_bound z (Z.of_nat (length l))). lia. }
  destruct (lookup_lt_is_Some_2 _ _ Hlt) as [a Ha]. rewrite Ha.
  exists a. split; [|reflexivity].
  destruct (Z.ltb_spec z (- Z.of_nat (length l))); [lia|reflexivity].
Qed.

Lemma py_dict_foldl_lookup (pairs : list (string * A)) (m : gmap string A) name :
  name ∉ pairs.*1 ->
  foldl (fun m (p : string * A) => <[p.1 := p.2]> m) m pairs !! name
  = m !! name.
Proof.
  revert m. induction pairs as [|p pairs IH]; intros m Hn; [reflexivity|].
  cbn [foldl]. rewrite fmap_cons in Hn. apply not_elem_of_cons in Hn as [Hne Hn].
  rewrite IH by exact Hn. apply lookup_insert_ne. congruence.
Qed.

Lemma py_dict_missing (pairs : list (string * A)) name :
  name ∉ pairs.*1 -> py_dict pairs !! name = None.
Proof.
  intros Hn. unfold py_dict. rewrite py_dict_foldl_lookup by exact Hn.
  apply lookup_empty.
Qed.

End PyLookup.

(** X15.  An integer layer other than [-1] that is not an index of
    [children()] makes every call of [forward] raise [IndexError] (the
    list lookup of [_find_layer]), not the assertion "not found", and no
    hook is ever registered. *)
Theorem X15_layer_index_out_of_range {X Y} (net : Net X Y) z (xs : list X) x :
  z <> -1 ->
  z < - Z.of_nat (length (children net))
  \/ Z.of_nat (length (children net)) <= z ->
  (Extractor.forward net
     (Extractor.after net (Extractor.init (LayerIndex z)) xs) x).2
  = inl IndexError
  /\ Extractor.hooks
       (Extractor.after net (Extractor.init (LayerIndex z)) (xs ++ [x])) = [].
Proof.
  intros Hz Hr.
  assert (Hfind : forall s : Extractor.t Y,
            Extractor.layer s = LayerIndex z ->
            Extractor._find_layer net s = inl IndexError).
  { intros s Hs. unfold Extractor._find_layer. rewrite Hs.
    rewrite py_index_out_of_range by exact Hr. reflexivity. }
  assert (Hfin : Extractor.is_final (LayerIndex z) = false).
  { simpl. apply Z.eqb_neq. exact Hz. }
  assert (Hall : forall ys,
            Extractor.hooks
              (Extractor.after net (Extractor.init (LayerIndex z)) ys) = []).
  { intros ys.
    destruct (after_inv net (Extractor.init (LayerIndex z)) ys
                (extractor_inv_init net _)) as [Hl Hk].
    unfold extractor_inv in Hk.
    destruct (Extractor.hook_registered _); [|apply Hk].
    destruct Hk as (_ & i & Hi & _). rewrite Hfind in Hi by exact Hl.
    discriminate. }
  split; [|apply Hall].
  destruct (after_inv net (Extractor.init (LayerIndex z)) xs
              (extractor_inv_init net _)) as [Hl Hinv].
  destruct (forward_step net _ x Hinv) as (_ & _ & Hres).
  rewrite Hl in Hres. cbn [Extractor.layer Extractor.init] in Hres.
  rewrite Hfin, Hfind in Hres by exact Hl. apply Hres.
Qed.

Lemma X15_witness :
  (Extractor.forward three_layers
     (Extractor.after three_layers (Extractor.init (LayerIndex 3)) [5]) 7).2
  = inl IndexError
  /\ Extractor.hooks
       (Extractor.after three_layers (Extractor.init (LayerIndex 3))
          ([5] ++ [7])) = [].
Proof.
  apply (X15_layer_index_out_of_range three_layers 3 [5] 7);
    [discriminate | right; simpl; lia].
Defined.

(** X16.  An integer layer in range selects the child Python's indexing
    gives, counting from the end when negative; the default [-2] is the
    last child but one.  A call then raises what the network raises, and
    otherwise returns the output of the last call of that child, or,
    when the child was not called, the output an earlier raising call
    left behind; with nothing left it raises "never emitted an output". *)
Theorem X16_layer_index_in_range {X Y} (net : Net X Y) z (xs : list X) x :
  z <> -1 ->
  - Z.of_nat (length (children net)) <= z < Z.of_nat (length (children net)) ->
  exists i,
    children net !! Z.to_nat (z mod Z.of_nat (length (children net))) = Some i
    /\ (Extractor.forward net
          (Extractor.after net (Extractor.init (LayerIndex z)) xs) x).2
       = extracted net (LayerIndex z) i (stale_output net i xs) x
    /\ (Forall (net_returns net) xs -> stale_output net i xs = None).
Proof.
  intros Hz Hr. destruct (py_index_in_range (children net) z Hr) as (i & Hi & Hc).
  exists i. split; [exact Hc|]. split; [|apply stale_output_returns].
  apply forward_found.
  - simpl. apply Z.eqb_neq. exact Hz.
  - unfold Extractor._find_layer. cbn [Extractor.layer Extractor.init].
    rewrite Hi. reflexivity.
Qed.

Lemma X16_witness :
  exists i,
    children three_layers
      !! Z.to_nat (-2 mod Z.of_nat (length (children three_layers))) = Some i
    /\ (Extractor.forward three_layers
          (Extractor.after three_layers (Extractor.init (LayerIndex (-2))) [5])
          7).2
       = extracted three_layers (LayerIndex (-2)) i
                   (stale_output three_layers i [5]) 7
    /\ (Forall (net_returns three_layers) [5] ->
        stale_output three_layers i [5] = None).
Proof.
  apply (X16_layer_index_in_range three_layers (-2) [5] 7);
    [discriminate | simpl; lia].
Defined.

(** X17.  A layer given by a name that [named_modules()] does not list
    makes every call of [forward] raise the assertion
    "hidden layer (name) not found". *)
Theorem X17_layer_name_not_found {X Y} (net : Net X Y) name (xs : list X) x :
  name ∉ (named_modules net).*1 ->
  (Extractor.forward net
     (Extractor.after net (Extractor.init (LayerName name)) xs) x).2
  = inl (PyAssertionError ("hidden layer (" ++ name ++ ") not found")).
Proof.
  intros Hn.
  destruct (after_inv net (Extractor.init (LayerName name)) xs
              (extractor_inv_init net _)) as [Hl Hinv].
  destruct (forward_step net _ x Hinv) as (_ & _ & Hres).
  rewrite Hl in Hres.
  cbn [Extractor.layer Extractor.init Extractor.is_final] in Hres.
  unfold Extractor._find_layer in Hres. rewrite Hl in Hres.
  cbn [Extractor.layer Extractor.init] in Hres.
  rewrite py_dict_missing in Hres by exact Hn. apply Hres.
Qed.

Lemma X17_witness :
  (Extractor.forward three_layers
     (Extractor.after three_layers (Extractor.init (LayerName "decoder")) [5])
     7).2
  = inl (PyAssertionError ("hidden layer (" ++ "decoder" ++ ") not found")).
Proof.
  apply (X17_layer_name_not_found three_layers "decoder" [5] 7).
  vm_compute. intros H. repeat (apply elem_of_cons in H as [H|H]; [discriminate|]).
  apply elem_of_nil in H. exact H.
Defined.

(** X18.  With layer [-1] the extractor is transparent: every call of
    [forward] returns the output of the network itself (or raises what it
    raises), whatever its children (none at all included), and no hook is
    ever registered. *)
Theorem X18_final_layer_is_transparent {X Y} (net : Net X Y) (xs : list X) x :
  (Extractor.forward net
     (Extractor.after net (Extractor.init (LayerIndex (-1))) xs) x).2
  = (call net x).2
  /\ Extractor.hooks
       (Extractor.after net (Extractor.init (LayerIndex (-1))) (xs ++ [x]))
     = [].
Proof.
  assert (Hall : forall ys,
            Extractor.hooks
              (Extractor.after net (Extractor.init (LayerIndex (-1))) ys) = []).
  { intros ys.
    destruct (after_inv net (Extractor.init (LayerIndex (-1))) ys
                (extractor_inv_init net _)) as [Hl Hk].
    unfold extractor_inv in Hk.
    destruct (Extractor.hook_registered _); [|apply Hk].
    destruct Hk as (Hf & _). rewrite Hl in Hf. discriminate. }
  split; [|apply Hall].
  destruct (after_inv net (Extractor.init (LayerIndex (-1))) xs
              (extractor_inv_init net _)) as [Hl Hinv].
  destruct (forward_step net _ x Hinv) as (_ & _ & Hres).
  rewrite Hl in Hres. apply Hres.
Qed.

(** ** The span-extraction head *)

Lemma clamp_range T x : 0 <= T -> 0 <= clamp 0 T x <= T.
Proof. unfold clamp. lia. Qed.

Lemma span_terms_cons T r (rows : list (list R)) p (ps : list Z) :
  span_terms T (r :: rows) (p :: ps)
  = if Z.max 0 p <? T
    then (ln (Rsum (exp <$> r)) - nth (Z.to_nat (Z.max 0 p)) r 0)%R
         :: span_terms T rows ps
    else span_terms T rows ps.
Proof.
  unfold span_terms. cbn. destruct (Z.max 0 p <? T); reflexivity.
Qed.

Lemma span_rows_result T (rows : list (list R)) (ps : list Z) :
  Forall (fun r => Z.of_nat (length r) = T) rows ->
  rows_result (fun p : list R * Z => nll p.1 p.2)
    (zip (select_row rows ((fun c => negb (c =? T)) <$> (clamp 0 T <$> ps)))
         (select_row (clamp 0 T <$> ps)
                     ((fun c => negb (c =? T)) <$> (clamp 0 T <$> ps))))
  = Ok (span_terms T rows ps).
Proof.
  intros Hrows. revert ps.
  induction Hrows as [|r rows Hr _ IH]; intros ps.
  - rewrite select_row_nil_l. reflexivity.
  - destruct ps as [|p ps].
    + rewrite !select_row_nil_r. reflexivity.
    + rewrite !fmap_cons, !select_row_cons, span_terms_cons.
      assert (HT : 0 <= T) by lia.
      destruct (Z.ltb_spec (Z.max 0 p) T) as [Hlt|Hge].
      * assert (Hc : clamp 0 T p = Z.max 0 p) by (unfold clamp; lia).
        rewrite Hc.
        replace (Z.max 0 p =? T) with false by (symmetry; apply Z.eqb_neq; lia).
        cbn [negb zip zip_with rows_result fst snd]. unfold nll at 1.
        replace ((Z.max 0 p <? 0) || (Z.of_nat (length r) <=? Z.max 0 p))
          with false.
        2:{ symmetry. apply orb_false_iff. split;
              [apply Z.ltb_ge | apply Z.leb_gt]; lia. }
        rewrite IH. reflexivity.
      * assert (Hc : clamp 0 T p = T) by (unfold clamp; lia).
        rewrite Hc, Z.eqb_refl. cbn [negb]. apply IH.
Qed.

Lemma span_cross_entropy (rows : list (list R)) (ps : list Z) T :
  Forall (fun r => Z.of_nat (length r) = T) rows ->
  length ps = length rows ->
  cross_entropy [rows] [clamp 0 T <$> ps] T = Ok (mean (span_terms T rows ps)).
Proof.
  intros Hrows Hl. unfold cross_entropy, same_shape.
  rewrite bool_decide_eq_true_2
    by (cbn; rewrite length_fmap, Hl; reflexivity).
  unfold map2d, masked_select. cbn [fmap list_fmap zip_with concat].
  rewrite !app_nil_r.
  change (list_fmap Z bool (fun c => negb (c =? T)))
    with (fmap (M := list) (fun c => negb (c =? T))).
  rewrite span_rows_result by exact Hrows. reflexivity.
Qed.

Lemma split_squeeze_rows k (logits : list (list (list R))) :
  Forall (fun row => length row = seq_len_of logits) logits ->
  Forall (fun r => Z.of_nat (length r)
                   = Z.of_nat (seq_len_of (split_squeeze k logits)))
         (split_squeeze k logits).
Proof.
  intros H.
  assert (Hs : seq_len_of (split_squeeze k logits) = seq_len_of logits).
  { destruct logits; [reflexivity|]. cbn. apply length_fmap. }
  rewrite Hs. unfold split_squeeze, map2d. apply Forall_fmap.
  eapply Forall_impl; [exact H|]. intros row Hr. cbn.
  rewrite length_fmap, Hr. reflexivity.
Qed.

Lemma seq_len_split_squeeze k (logits : list (list (list R))) :
  seq_len_of (split_squeeze k logits) = seq_len_of logits.
Proof. destruct logits; [reflexivity|]. cbn. apply length_fmap. Qed.

Lemma mrc_forward_closed_form (logits : list (list (list R))) (sp ep : list Z) :
  Forall (fun row => length row = seq_len_of logits) logits ->
  length sp = length logits ->
  length ep = length logits ->
  returned (DiscriminatorMRCModel_forward 2 logits (Some sp) (Some ep))
  = inr (TotalLoss
           (halve (plus (mean (span_terms (Z.of_nat (seq_len_of logits))
                                 (split_squeeze 0 logits) sp))
                        (mean (span_terms (Z.of_nat (seq_len_of logits))
                                 (split_squeeze 1 logits) ep))))).
Proof.
  intros Hrect Hs He. unfold DiscriminatorMRCModel_forward.
  cbn [Nat.eqb negb returned].
  rewrite span_cross_entropy.
  2:{ apply split_squeeze_rows, Hrect. }
  2:{ unfold split_squeeze, map2d. rewrite length_fmap. exact Hs. }
  rewrite <- (seq_len_split_squeeze 1 logits) at 1.
  rewrite (seq_len_split_squeeze 0 logits).
  rewrite <- (seq_len_split_squeeze 1 logits).
  rewrite span_cross_entropy.
  2:{ apply split_squeeze_rows, Hrect. }
  2:{ unfold split_squeeze, map2d. rewrite length_fmap. exact He. }
  reflexivity.
Qed.


(** X19.  Given both position tensors, [DiscriminatorMRCModel.forward]
    never raises on target positions, whatever they are: it returns
    half the sum of two span losses, each the mean over the examples
    whose position is below the sequence length [T] of
    [-log_softmax(logits)[position]].  Positions at or beyond [T] are
    left out of the mean; a negative position is not left out but
    scored as position [0]. *)
Theorem X19_mrc_loss_closed_form (logits : list (list (list R)))
    (sp ep : list Z) :
  Forall (fun row => length row = seq_len_of logits) logits ->
  length sp = length logits ->
  length ep = length logits ->
  returned (DiscriminatorMRCModel_forward 2 logits (Some sp) (Some ep))
  = inr (TotalLoss
           (halve (plus (mean (span_terms (Z.of_nat (seq_len_of logits))
                                 (split_squeeze 0 logits) sp))
                        (mean (span_terms (Z.of_nat (seq_len_of logits))
                                 (split_squeeze 1 logits) ep))))).
Proof. apply mrc_forward_closed_form. Qed.

Lemma X19_witness :
  returned (DiscriminatorMRCModel_forward 2 mrc_logits
              (Some [-3; 7]) (Some [1; 2]))
  = inr (TotalLoss
           (halve (plus (mean (span_terms (Z.of_nat (seq_len_of mrc_logits))
                                 (split_squeeze 0 mrc_logits) [-3; 7]))
                        (mean (span_terms (Z.of_nat (seq_len_of mrc_logits))
                                 (split_squeeze 1 mrc_logits) [1; 2]))))).
Proof.
  apply (X19_mrc_loss_closed_form mrc_logits [-3; 7] [1; 2]);
    [repeat constructor | reflexivity | reflexivity].
Defined.

Lemma span_terms_outside T (rows : list (list R)) (ps : list Z) :
  Forall (fun p => T <= p) ps -> span_terms T rows ps = [].
Proof.
  intros Hps. revert rows.
  induction Hps as [|p ps Hp _ IH]; intros [|r rows]; try reflexivity.
  rewrite span_terms_cons.
  destruct (Z.ltb_spec (Z.max 0 p) T); [lia|apply IH].
Qed.

Lemma plus_None_r (x : option R) : plus x None = None.
Proof. destruct x; reflexivity. Qed.

(** X20.  When every start position, or every end position, of the batch
    lies at or beyond the sequence length, the loss returned is NaN,
    whatever the other positions are: the mean of that span loss is
    over no example at all. *)
Theorem X20_mrc_all_outside_gives_nan (logits : list (list (list R)))
    (sp ep : list Z) :
  Forall (fun row => length row = seq_len_of logits) logits ->
  length sp = length logits ->
  length ep = length logits ->
  Forall (fun p => Z.of_nat (seq_len_of logits) <= p) sp
  \/ Forall (fun p => Z.of_nat (seq_len_of logits) <= p) ep ->
  returned (DiscriminatorMRCModel_forward 2 logits (Some sp) (Some ep))
  = inr (TotalLoss None).
Proof.
  intros Hrect Hs He Hout.
  rewrite mrc_forward_closed_form by assumption.
  destruct Hout as [Hout|Hout]; rewrite (span_terms_outside _ _ _ Hout).
  - reflexivity.
  - cbn [mean]. rewrite plus_None_r. reflexivity.
Qed.

Lemma X20_witness :
  returned (DiscriminatorMRCModel_forward 2 mrc_logits
              (Some [0; 1]) (Some [3; 5]))
  = inr (TotalLoss None).
Proof.
  apply (X20_mrc_all_outside_gives_nan mrc_logits [0; 1] [3; 5]);
    [repeat constructor | reflexivity | reflexivity
    | right; repeat constructor; simpl; lia].
Defined.

(** ** Evaluation *)

Lemma Rsum_app (a b : list R) : Rsum (a ++ b) = (Rsum a + Rsum b)%R.
Proof.
  induction a as [|x a IH].
  - change (Rsum b = 0 + Rsum b)%R. lra.
  - change (x + Rsum (a ++ b) = x + Rsum a + Rsum b)%R. rewrite IH. lra.
Qed.

Section Evaluation.
Variables (files : Trainer.Files) (a : Trainer.Args).

Lemma evaluate_from_spec (batches : list R) :
  Trainer.writable files (Trainer.eval_results_path a) = true ->
  forall (pre : list R) (s : Trainer.eval_state),
    Trainer.eval_loss s = Rsum pre ->
    Trainer.perplexity s = Rsum (exp <$> pre) ->
    Trainer.eval_steps s = Z.of_nat (length pre) ->
    exists s',
      Trainer.evaluate_from files a s (Z.of_nat (length pre)) batches = inr s'
      /\ Trainer.logged s'
         = Trainer.logged s
           ++ (eval_line (pre ++ batches)
                 <$> seq (length pre) (length batches)).
Proof.
  intros Hw.
  induction batches as [|l batches IH]; intros pre s Hl Hp Hs.
  - exists s. split; [reflexivity|]. cbn. rewrite app_nil_r. reflexivity.
  - cbn [Trainer.evaluate_from]. unfold Trainer.evaluate_batch.
    rewrite Hs, Hl, Hp, Hw.
    replace (Z.of_nat (length pre) + 1 =? 0) with false
      by (symmetry; apply Z.eqb_neq; lia).
    cbv zeta.
    assert (Hstep : Z.of_nat (length (pre ++ [l])) = Z.of_nat (length pre) + 1)
      by (rewrite length_app; cbn; lia).
    destruct (IH (pre ++ [l])
                (Trainer.mk_eval
                   (Rsum pre + l) (Rsum (exp <$> pre) + exp l)
                   (Z.of_nat (length pre) + 1)
                   (Trainer.logged s
                    ++ [(Z.of_nat (length pre),
                         ((Rsum pre + l) / IZR (Z.of_nat (length pre) + 1))%R,
                         ((Rsum (exp <$> pre) + exp l)
                          / IZR (Z.of_nat (length pre) + 1))%R)])))
      as (s' & Hs' & Hlog).
    + cbn [Trainer.eval_loss]. rewrite Rsum_app.
      change (Rsum [l]) with (l + 0)%R. lra.
    + cbn [Trainer.perplexity]. rewrite fmap_app, Rsum_app.
      change (Rsum (exp <$> [l])) with (exp l + 0)%R. lra.
    + cbn [Trainer.eval_steps]. rewrite length_app. cbn. lia.
    + rewrite Hstep in Hs'. exists s'. split; [exact Hs'|]. rewrite Hlog.
      cbn [Trainer.logged]. rewrite <- app_assoc. f_equal.
      cbn [length seq fmap list_fmap app].
      rewrite length_app, Nat.add_1_r, <- app_assoc. cbn [app].
      f_equal. unfold eval_line.
      replace (take (S (length pre)) (pre ++ l :: batches))
        with (pre ++ [l]).
      2:{ symmetry. rewrite (cons_middle l pre batches), app_assoc.
          apply take_app_length'. rewrite length_app. cbn. lia. }
      rewrite fmap_app, !Rsum_app.
      change (Rsum [l]) with (l + 0)%R.
      change (Rsum (exp <$> [l])) with (exp l + 0)%R.
      rewrite !Rplus_0_r. reflexivity.
Qed.

Lemma evaluate_writable (batches : list R) :
  Trainer.writable files (Trainer.eval_results_path a) = true ->
  Trainer.evaluate files a batches
  = inr (eval_line batches <$> seq 0 (length batches)).
Proof.
  intros Hw. unfold Trainer.evaluate.
  destruct (evaluate_from_spec batches Hw [] (Trainer.mk_eval 0 0 0 []))
    as (s' & Hs' & Hlog); try reflexivity.
  change (Z.of_nat (length (@nil R))) with 0 in Hs'. rewrite Hs', Hlog.
  reflexivity.
Qed.

Lemma evaluate_not_writable (l : R) (batches : list R) :
  Trainer.writable files (Trainer.eval_results_path a) = false ->
  Trainer.evaluate files a (l :: batches)
  = inl (FileError (Trainer.eval_results_path a)).
Proof.
  intros Hw. unfold Trainer.evaluate. cbn [Trainer.evaluate_from].
  unfold Trainer.evaluate_batch. cbn [Trainer.eval_steps].
  rewrite Hw. reflexivity.
Qed.

End Evaluation.

(** X24.  For scalar losses, [evaluate] raises only when the results file
    cannot be written, at the first batch.  Otherwise it logs one line
    per batch: at step [i], the mean of the losses of the batches
    [0 .. i] and the mean of their exponentials, so that the perplexity
    it reports is a mean of per-batch perplexities, not the exponential
    of the reported loss.  The divisions are by a positive count. *)
Theorem X24_evaluate_running_means (files : Trainer.Files) (a : Trainer.Args)
    (batches : list R) :
  Trainer.evaluate files a batches
  = if Trainer.writable files (Trainer.eval_results_path a)
    then inr (eval_line batches <$> seq 0 (length batches))
    else match batches with
         | [] => inr []
         | _ :: _ => inl (FileError (Trainer.eval_results_path a))
         end.
Proof.
  destruct (Trainer.writable files (Trainer.eval_results_path a)) eqn:Hw.
  - apply evaluate_writable, Hw.
  - destruct batches as [|l batches]; [reflexivity|].
    apply evaluate_not_writable, Hw.
Qed.

(** ** The training loop *)

Lemma succ_div_mod d a :
  0 < d -> 0 <= a ->
  ((a + 1) mod d =? 0) = true /\ (a + 1) / d = a / d + 1
  /\ a mod d + 1 = d /\ (a + 1) mod d = 0
  \/ ((a + 1) mod d =? 0) = false /\ (a + 1) / d = a / d
     /\ (a + 1) mod d = a mod d + 1.
Proof.
  intros Hd Ha.
  pose proof (Z.div_mod a d ltac:(lia)) as E.
  pose proof (Z.mod_pos_bound a d Hd) as B.
  destruct (Z.eq_dec (a mod d + 1) d) as [He|Hne].
  - left.
    assert (M : (a + 1) mod d = 0)
      by (symmetry; apply Z.mod_unique with (q := a / d + 1); lia).
    assert (D : (a + 1) / d = a / d + 1)
      by (symmetry; apply Z.div_unique with (r := 0); lia).
    repeat split; try assumption. apply Z.eqb_eq. exact M.
  - right.
    assert (M : (a + 1) mod d = a mod d + 1)
      by (symmetry; apply Z.mod_unique with (q := a / d); lia).
    assert (D : (a + 1) / d = a / d)
      by (symmetry; apply Z.div_unique with (r := a mod d + 1); lia).
    repeat split; try assumption. apply Z.eqb_neq. lia.
Qed.

Lemma window_succ (all : list R) (n : nat) (loc : Z) (l : R) :
  0 <= loc <= Z.of_nat n ->
  all !! n = Some l ->
  Rsum (window (loc + 1) (Z.of_nat n + 1) all)
  = (Rsum (window loc (Z.of_nat n) all) + l)%R.
Proof.
  intros Hloc Hl. unfold window.
  replace (Z.to_nat (loc + 1)) with (S (Z.to_nat loc)) by lia.
  replace (Z.of_nat n + 1 - (loc + 1)) with (Z.of_nat n - loc) by lia.
  rewrite (take_S_r _ _ l).
  - rewrite Rsum_app. change (Rsum [l]) with (l + 0)%R. lra.
  - rewrite lookup_drop.
    replace (Z.to_nat (Z.of_nat n - loc) + Z.to_nat loc)%nat with n by lia.
    exact Hl.
Qed.

Lemma occurrences_app kind (a b : list Trainer.Event) :
  occurrences kind (a ++ b) = occurrences kind a + occurrences kind b.
Proof.
  unfold occurrences. rewrite List.filter_app, length_app. lia.
Qed.

(** The part of the invariant on the logged losses, after one batch:
    [Hold] for the trace before it, [Htail] for an event that is not a
    log, [fact] for the log of this batch. *)
Ltac train_logs_peel Hold Htail fact :=
  first
    [ exact Hold
    | apply Htail; [train_logs_peel Hold Htail fact|reflexivity]
    | apply Forall_app; split;
      [train_logs_peel Hold Htail fact
      |constructor; [fact|constructor]] ].

Ltac train_logs_step Hold Htail Hcount fact :=
  unfold train_logs_inv;
  cbn [Trainer.global_steps Trainer.trace];
  split; [lia|];
  split;
  [rewrite !occurrences_app, Hcount;
   unfold occurrences; simpl List.filter; simpl length; lia
  |train_logs_peel Hold Htail fact].

Section TrainLoop.
Variables (files : Trainer.Files) (a : Trainer.Args) (all : list R).
Hypothesis Hlog : 0 < Trainer.log_steps a.
Hypothesis Hckpt : 0 < Trainer.ckpt_steps a.
Hypothesis Hgas : 0 < Trainer.gradient_accumulation_steps a.

Lemma train_batch_step n m (s : Trainer.state) (l : R) :
  train_inv a all n m s ->
  all !! n = Some l ->
  train_logs_inv a all (Trainer.train_batch files a s l).1
  /\ ((Trainer.train_batch files a s l).2 = None ->
      train_inv a all (S n) m (Trainer.train_batch files a s l).1)
  /\ (files_writable files a -> (Trainer.train_batch files a s l).2 = None).
Proof.
  intros (Hg & Hloc & Hsl & Hd & Ho & Hc & He & (Hgb & Hlg & Hlogs)) Hl.
  pose proof (lookup_lt_Some _ _ _ Hl) as Hn.
  pose proof (Z.mod_pos_bound (Z.of_nat n) _ Hlog) as Hb.
  pose proof (Z.mod_le (Z.of_nat n) _ ltac:(lia) Hlog) as Hle.
  assert (Hw : (Trainer.step_loss s + l)%R
               = Rsum (window (Trainer.local_steps s + 1)
                              (Z.of_nat n + 1) all)).
  { rewrite (window_succ all n _ l) by (try exact Hl; lia).
    rewrite <- Hsl. reflexivity. }
  rewrite Hg in Hlg, Hlogs.
  assert (Hold : Forall (fun e =>
                   match e with
                   | Trainer.TrainLog v g =>
                       0 < g <= Z.of_nat n + 1
                       /\ g mod Trainer.log_steps a = 0
                       /\ v = (Rsum (window (Trainer.log_steps a) g all)
                               / IZR (Trainer.log_steps a))%R
                   | _ => True
                   end) (Trainer.trace s)).
  { eapply Forall_impl; [exact Hlogs|].
    intros [| |v g| | | |]; try exact (fun H => H).
    intros (Hg1 & Hg2 & Hg3); repeat split; try assumption; lia. }
  unfold Trainer.train_batch, Trainer.save_checkpoint, Trainer.emit.
  cbn [Trainer.losses Trainer.global_steps Trainer.local_steps
       Trainer.step_loss Trainer.trace].
  rewrite Hg.
  replace (Trainer.gradient_accumulation_steps a =? 0) with false
    by (symmetry; apply Z.eqb_neq; lia).
  replace (Trainer.log_steps a =? 0) with false
    by (symmetry; apply Z.eqb_neq; lia).
  replace (Trainer.ckpt_steps a =? 0) with false
    by (symmetry; apply Z.eqb_neq; lia).
  assert (Hlogs' : forall tr tail,
            Forall (fun e =>
                      match e with
                      | Trainer.TrainLog v g =>
                          0 < g <= Z.of_nat n + 1
                          /\ g mod Trainer.log_steps a = 0
                          /\ v = (Rsum (window (Trainer.log_steps a) g all)
                                  / IZR (Trainer.log_steps a))%R
                      | _ => True
                      end) tr ->
            is_train_log tail = false ->
            Forall (fun e =>
                      match e with
                      | Trainer.TrainLog v g =>
                          0 < g <= Z.of_nat n + 1
                          /\ g mod Trainer.log_steps a = 0
                          /\ v = (Rsum (window (Trainer.log_steps a) g all)
                                  / IZR (Trainer.log_steps a))%R
                      | _ => True
                      end) (tr ++ [tail])).
  { intros tr tail Htr Ht. apply Forall_app. split; [exact Htr|].
    constructor; [|constructor]. destruct tail; try exact I. discriminate. }
  destruct (succ_div_mod _ (Z.of_nat n) Hgas ltac:(lia))
    as [(-> & Dg & _ & _)|(-> & Dg & _)];
  cbn [Trainer.losses Trainer.global_steps Trainer.local_steps
       Trainer.step_loss Trainer.trace];
  (destruct (succ_div_mod _ (Z.of_nat n) Hlog ltac:(lia))
     as [(-> & Dl & Hl1 & Hm)|(-> & Dl & Hm)];
   [replace (Trainer.local_steps s + 1 =? 0) with false
      by (symmetry; apply Z.eqb_neq; lia);
    destruct (Trainer.writable files (Trainer.train_results_path a)) eqn:Wj
   |]);
  cbn [Trainer.losses Trainer.global_steps Trainer.local_steps
       Trainer.step_loss Trainer.trace];
  try (destruct (succ_div_mod _ (Z.of_nat n) Hckpt ltac:(lia))
         as [(-> & Dc & _ & _)|(-> & Dc & _)];
       [destruct (Trainer.writable files (Trainer.model_path a)) eqn:Wm;
        [destruct (Trainer.writable files (Trainer.optimizer_path a)) eqn:Wo|]
       |]);
  cbn [fst snd Trainer.losses Trainer.global_steps Trainer.local_steps
       Trainer.step_loss Trainer.trace];
  (split; [|split];
   [train_logs_step Hold Hlogs' Hlg
      ltac:(split;
            [lia|split; [exact Hm|rewrite Hw, Hloc, Hl1; reflexivity]])
   |intros HE; try discriminate HE;
    unfold train_inv;
    cbn [Trainer.losses Trainer.global_steps Trainer.local_steps
         Trainer.step_loss Trainer.trace];
    rewrite Nat2Z.inj_succ, <- Z.add_1_r;
    (split; [reflexivity|]);
    (split; [lia|]);
    (split; [try reflexivity; exact Hw|]);
    (split;
     [intros k; destruct (Z.eq_dec k (Z.of_nat n)) as [->|Hk];
      [rewrite lookup_insert_eq, Nat2Z.id, Hl;
       replace (0 <=? Z.of_nat n) with true
         by (symmetry; apply Z.leb_le; lia);
       replace (Z.of_nat n <? Z.of_nat n + 1) with true
         by (symmetry; apply Z.ltb_lt; lia);
       reflexivity
      |rewrite lookup_insert_ne, Hd by congruence;
       destruct (0 <=? k); [|reflexivity]; cbn [andb];
       destruct (Z.ltb_spec k (Z.of_nat n)), (Z.ltb_spec k (Z.of_nat n + 1));
       try reflexivity; lia]
     |]);
    rewrite !occurrences_app, Ho, Hc, He;
    (split; [unfold occurrences; simpl List.filter; simpl length; lia|]);
    (split; [unfold occurrences; simpl List.filter; simpl length; lia|]);
    (split; [unfold occurrences; simpl List.filter; simpl length; lia|]);
    train_logs_step Hold Hlogs' Hlg
      ltac:(split;
            [lia|split; [exact Hm|rewrite Hw, Hloc, Hl1; reflexivity]])
   |intros (W1 & W2 & W3 & W4); try reflexivity; congruence]).
Qed.


Lemma train_batches_step m (ls rest : list R) :
  forall n (s : Trainer.state),
    train_inv a all n m s ->
    drop n all = ls ++ rest ->
    train_logs_inv a all (Trainer.train_batches files a s ls).1
    /\ ((Trainer.train_batches files a s ls).2 = None ->
        train_inv a all (n + length ls) m
                  (Trainer.train_batches files a s ls).1)
    /\ (files_writable files a ->
        (Trainer.train_batches files a s ls).2 = None).
Proof.
  induction ls as [|l ls IH]; intros n s Hinv Hdrop.
  - cbn [Trainer.train_batches fst snd length]. rewrite Nat.add_0_r.
    split; [apply Hinv|]. split; [intros _; exact Hinv|reflexivity].
  - assert (Hl : all !! n = Some l).
    { rewrite <- (Nat.add_0_r n), <- lookup_drop, Hdrop. reflexivity. }
    destruct (train_batch_step n m s l Hinv Hl) as (Hw1 & Hi1 & Hf1).
    cbn [Trainer.train_batches].
    destruct (Trainer.train_batch files a s l) as [s1 [e|]].
    + cbn [fst snd] in *. split; [exact Hw1|].
      split; [discriminate|exact Hf1].
    + cbn [fst snd] in Hi1. specialize (Hi1 eq_refl).
      destruct (IH (S n) s1 Hi1) as (Hw2 & Hi2 & Hf2).
      { rewrite (drop_S _ _ _ Hl) in Hdrop. injection Hdrop as Hdrop.
        exact Hdrop. }
      split; [exact Hw2|]. split; [|exact Hf2].
      intros HE. cbn [length]. rewrite <- Nat.add_succ_comm. apply Hi2, HE.
Qed.

Lemma train_inv_evaluate n m (s : Trainer.state) lines :
  train_inv a all n m s ->
  train_inv a all n (m + 1) (Trainer.emit (Trainer.Evaluate lines) s).
Proof.
  intros (Hg & Hloc & Hsl & Hd & Ho & Hc & He & (Hgb & Hlg & Hlogs)).
  unfold train_inv, train_logs_inv, Trainer.emit.
  cbn [Trainer.losses Trainer.global_steps Trainer.local_steps
       Trainer.step_loss Trainer.trace].
  rewrite !occurrences_app, Ho, Hc, Hlg, He.
  unfold occurrences. simpl List.filter. simpl length.
  repeat split; try assumption; try lia.
  apply Forall_app. split; [exact Hlogs|repeat constructor].
Qed.

Lemma train_logs_inv_emit (s : Trainer.state) (e : Trainer.Event) :
  is_train_log e = false ->
  train_logs_inv a all s -> train_logs_inv a all (Trainer.emit e s).
Proof.
  intros Hel (Hgb & Hlg & Hlogs). unfold train_logs_inv, Trainer.emit.
  cbn [Trainer.global_steps Trainer.trace].
  rewrite occurrences_app, Hlg. unfold occurrences. cbn [List.filter].
  rewrite Hel. cbn [length].
  split; [exact Hgb|]. split; [lia|].
  apply Forall_app. split; [exact Hlogs|].
  constructor; [|constructor]. destruct e; try exact I. discriminate.
Qed.

Lemma train_epochs_step (epochs : list (list R * list R)) :
  forall n m (s : Trainer.state),
    train_inv a all n m s ->
    drop n all = concat (fst <$> epochs) ->
    train_logs_inv a all (Trainer.train_epochs files a s epochs).1
    /\ ((Trainer.train_epochs files a s epochs).2 = None ->
        train_inv a all (n + length (concat (fst <$> epochs)))
                  (m + Z.of_nat (length epochs))
                  (Trainer.train_epochs files a s epochs).1)
    /\ (files_writable files a ->
        (Trainer.train_epochs files a s epochs).2 = None).
Proof.
  induction epochs as [|[batches eval_batches] epochs IH];
    intros n m s Hinv Hdrop.
  - cbn [Trainer.train_epochs fst snd fmap list_fmap concat length].
    rewrite Nat.add_0_r, Z.add_0_r.
    split; [apply Hinv|]. split; [intros _; exact Hinv|reflexivity].
  - rewrite fmap_cons in Hdrop. cbn [fst concat] in Hdrop.
    destruct (train_batches_step m batches _ n s Hinv Hdrop)
      as (Hw1 & Hi1 & Hf1).
    cbn [Trainer.train_epochs].
    destruct (Trainer.train_batches files a s batches) as [s1 [e|]].
    + cbn [fst snd] in *. split; [exact Hw1|].
      split; [discriminate|exact Hf1].
    + cbn [fst snd] in Hi1, Hw1. specialize (Hi1 eq_refl).
      destruct (Trainer.evaluate files a eval_batches) as [e|lines] eqn:Hev.
      * cbn [fst snd]. split; [exact Hw1|]. split; [discriminate|].
        intros (_ & W2 & _). rewrite evaluate_writable in Hev by exact W2.
        discriminate.
      * pose proof (train_inv_evaluate _ _ s1 lines Hi1) as Hi1'.
        destruct (IH _ _ _ Hi1') as (Hw2 & Hi2 & Hf2).
        { rewrite <- drop_drop, Hdrop. apply drop_app_length. }
        split; [exact Hw2|]. split; [|exact Hf2].
        intros HE. specialize (Hi2 HE).
        rewrite fmap_cons. cbn [fst concat length]. rewrite length_app.
        replace (n + (length batches + length (concat (fst <$> epochs))))%nat
          with (n + length batches + length (concat (fst <$> epochs)))%nat
          by lia.
        replace (m + Z.of_nat (S (length epochs)))
          with (m + 1 + Z.of_nat (length epochs)) by lia.
        exact Hi2.
Qed.

Lemma train_inv_init : train_inv a all 0 0 Trainer.init.
Proof.
  unfold train_inv, train_logs_inv, Trainer.init.
  cbn [Trainer.losses Trainer.global_steps Trainer.local_steps
       Trainer.step_loss Trainer.trace].
  change (Z.of_nat 0) with 0. rewrite Z.mod_0_l, !Z.div_0_l by lia.
  repeat split; try reflexivity; try lia;
    [intros k; rewrite lookup_empty;
     destruct (Z.leb_spec 0 k); [|reflexivity];
     destruct (Z.ltb_spec k 0); [lia|reflexivity]
    |constructor].
Qed.

Lemma save_checkpoint_step (s : Trainer.state) :
  train_logs_inv a all s ->
  train_logs_inv a all (Trainer.save_checkpoint files a s).1
  /\ ((Trainer.save_checkpoint files a s).2 = None ->
      (Trainer.save_checkpoint files a s).1
      = Trainer.emit (Trainer.SaveOptimizer (Trainer.optimizer_path a))
          (Trainer.emit (Trainer.SaveModel (Trainer.model_path a)) s))
  /\ (files_writable files a -> (Trainer.save_checkpoint files a s).2 = None).
Proof.
  intros Hinv. unfold Trainer.save_checkpoint.
  pose proof (train_logs_inv_emit s (Trainer.SaveModel (Trainer.model_path a))
                eq_refl Hinv) as H1.
  pose proof (train_logs_inv_emit _
                (Trainer.SaveOptimizer (Trainer.optimizer_path a))
                eq_refl H1) as H2.
  destruct (Trainer.writable files (Trainer.model_path a)) eqn:Wm;
    [destruct (Trainer.writable files (Trainer.optimizer_path a)) eqn:Wo|];
    cbn [fst snd].
  - split; [exact H2|]. split; reflexivity.
  - split; [exact H1|]. split; [discriminate|].
    intros (_ & _ & _ & W4). congruence.
  - split; [exact Hinv|]. split; [discriminate|].
    intros (_ & _ & W3 & _). congruence.
Qed.

End TrainLoop.

(** The whole of [train], when the three step counts are positive. *)
Lemma train_run (files : Trainer.Files) (a : Trainer.Args) (epochs : Z)
    (train_dataloader eval_dataloader : nat -> list R) :
  0 < Trainer.log_steps a -> 0 < Trainer.ckpt_steps a ->
  0 < Trainer.gradient_accumulation_steps a ->
  let all := all_losses epochs train_dataloader in
  let r := Trainer.train files a epochs train_dataloader eval_dataloader in
  train_logs_inv a all r.1
  /\ (r.2 = None ->
      exists s,
        r.1 = Trainer.emit (Trainer.SaveOptimizer (Trainer.optimizer_path a))
                (Trainer.emit (Trainer.SaveModel (Trainer.model_path a)) s)
        /\ train_inv a all (length all) (Z.max 0 epochs) s)
  /\ (ckpt_dir_ok files a -> files_writable files a -> r.2 = None).
Proof.
  intros Hlog Hckpt Hgas all r. subst r. unfold Trainer.train, ckpt_dir_ok.
  pose proof (train_inv_init a all Hlog Hckpt Hgas) as H0.
  destruct (match Trainer.ckpt_dir a with
            | Some d => Trainer.isdir files d
            | None => true
            end) eqn:Hdir.
  2:{ cbn [fst snd]. split; [apply H0|]. split; [discriminate|].
      intros Hok. destruct (Trainer.ckpt_dir a); [congruence|discriminate]. }
  destruct (train_epochs_step files a all Hlog Hckpt Hgas
              ((fun e => (train_dataloader e, eval_dataloader e))
                 <$> seq 0 (Z.to_nat epochs)) 0%nat 0 Trainer.init H0)
    as (Hw & Hi & Hf).
  { unfold all, all_losses. rewrite <- list_fmap_compose. reflexivity. }
  destruct (Trainer.train_epochs files a Trainer.init _) as [s [e|]].
  - cbn [fst snd] in *. split; [exact Hw|]. split; [discriminate|].
    intros _. exact Hf.
  - cbn [fst snd] in Hi, Hw. specialize (Hi eq_refl).
    rewrite <- list_fmap_compose in Hi.
    change (concat ((fst ∘ (fun e => (train_dataloader e, eval_dataloader e)))
                      <$> seq 0 (Z.to_nat epochs))) with all in Hi.
    rewrite length_fmap, length_seq in Hi.
    replace (0 + Z.of_nat (Z.to_nat epochs)) with (Z.max 0 epochs) in Hi
      by lia.
    cbn [Nat.add] in Hi.
    destruct (save_checkpoint_step files a all s Hw) as (Hw2 & Hi2 & Hf2).
    split; [exact Hw2|]. split; [|intros _; exact Hf2].
    intros HE. exists s. split; [apply Hi2, HE|exact Hi].
Qed.

(** X21.  With positive [log_steps], [ckpt_steps] and
    [gradient_accumulation_steps], a [ckpt_dir] that is [None] or a
    directory, and files that can be written, [train] does not raise, and
    after a run over [n] batches in all: [global_steps] is [n]; [losses]
    maps every step [0 .. n-1] to the loss of its batch and nothing else;
    the optimizer has stepped [n / gradient_accumulation_steps] times; the
    model state was saved [n / ckpt_steps] times and once more at the
    end; and every epoch was followed by one evaluation. *)
Theorem X21_train_counters (files : Trainer.Files) (a : Trainer.Args)
    (epochs : Z) (train_dataloader eval_dataloader : nat -> list R) :
  0 < Trainer.log_steps a -> 0 < Trainer.ckpt_steps a ->
  0 < Trainer.gradient_accumulation_steps a ->
  ckpt_dir_ok files a ->
  files_writable files a ->
  let all := all_losses epochs train_dataloader in
  let n := Z.of_nat (length all) in
  let r := Trainer.train files a epochs train_dataloader eval_dataloader in
  r.2 = None
  /\ Trainer.global_steps r.1 = n
  /\ (forall k : Z,
        Trainer.losses r.1 !! k
        = if (0 <=? k) && (k <? n) then all !! Z.to_nat k else None)
  /\ occurrences is_optimizer_step (Trainer.trace r.1)
     = n / Trainer.gradient_accumulation_steps a
  /\ occurrences is_checkpoint (Trainer.trace r.1)
     = n / Trainer.ckpt_steps a + 1
  /\ occurrences is_evaluate (Trainer.trace r.1) = Z.max 0 epochs.
Proof.
  intros Hlog Hckpt Hgas Hdir Hfiles all n r.
  destruct (train_run files a epochs train_dataloader eval_dataloader
              Hlog Hckpt Hgas) as (_ & Hi & Hf).
  specialize (Hf Hdir Hfiles). fold r in Hf, Hi. fold all in Hi.
  destruct (Hi Hf) as (s & Hs & Hg & _ & _ & Hd & Ho & Hc & He & _).
  split; [exact Hf|]. rewrite Hs. unfold Trainer.emit.
  cbn [Trainer.losses Trainer.global_steps Trainer.trace].
  rewrite !occurrences_app, Ho, Hc, He.
  unfold occurrences. simpl List.filter. simpl length.
  subst n. repeat split; try assumption; lia.
Qed.

Lemma X21_witness :
  let all := all_losses 2 two_epochs in
  let n := Z.of_nat (length all) in
  let r := Trainer.train some_files (args 2 4 3) 2 two_epochs one_eval in
  r.2 = None
  /\ Trainer.global_steps r.1 = n
  /\ (forall k : Z,
        Trainer.losses r.1 !! k
        = if (0 <=? k) && (k <? n) then all !! Z.to_nat k else None)
  /\ occurrences is_optimizer_step (Trainer.trace r.1) = n / 3
  /\ occurrences is_checkpoint (Trainer.trace r.1) = n / 4 + 1
  /\ occurrences is_evaluate (Trainer.trace r.1) = Z.max 0 2.
Proof.
  apply (X21_train_counters some_files (args 2 4 3) 2 two_epochs one_eval);
    [simpl; lia | simpl; lia | simpl; lia | reflexivity
    | repeat split; reflexivity].
Defined.

(** X22.  With positive step counts, at whatever point a run ends, the
    training loss has been logged once every [log_steps] batches,
    [global_steps / log_steps] times, which is [n / log_steps] for a run
    that returns; and each value logged, at step [g], is the mean of the
    losses of the [log_steps] batches before [g]: the division by
    [local_steps] is never by zero. *)
Theorem X22_logged_train_loss (files : Trainer.Files) (a : Trainer.Args)
    (epochs : Z) (train_dataloader eval_dataloader : nat -> list R) :
  0 < Trainer.log_steps a -> 0 < Trainer.ckpt_steps a ->
  0 < Trainer.gradient_accumulation_steps a ->
  let all := all_losses epochs train_dataloader in
  let n := Z.of_nat (length all) in
  let r := Trainer.train files a epochs train_dataloader eval_dataloader in
  occurrences is_train_log (Trainer.trace r.1)
  = Trainer.global_steps r.1 / Trainer.log_steps a
  /\ (r.2 = None ->
      occurrences is_train_log (Trainer.trace r.1) = n / Trainer.log_steps a)
  /\ forall v g,
       Trainer.TrainLog v g ∈ Trainer.trace r.1 ->
       0 < g <= n /\ g mod Trainer.log_steps a = 0
       /\ v = (Rsum (window (Trainer.log_steps a) g all)
               / IZR (Trainer.log_steps a))%R.
Proof.
  intros Hlog Hckpt Hgas all n r.
  destruct (train_run files a epochs train_dataloader eval_dataloader
              Hlog Hckpt Hgas) as ((Hgb & Hlg & Hlogs) & Hi & _).
  fold all in Hgb, Hlg, Hlogs, Hi. fold r in Hgb, Hlg, Hlogs, Hi.
  split; [exact Hlg|]. split.
  - intros HE. destruct (Hi HE) as (s & Hs & Hg & _).
    rewrite Hlg, Hs. unfold Trainer.emit. cbn [Trainer.global_steps].
    rewrite Hg. reflexivity.
  - intros v g Hin. rewrite Forall_forall in Hlogs.
    destruct (Hlogs _ Hin) as (H1 & H2 & H3).
    split; [subst n; lia|]. split; assumption.
Qed.

Lemma X22_witness :
  let all := all_losses 2 two_epochs in
  let n := Z.of_nat (length all) in
  let r := Trainer.train some_files (args 2 4 3) 2 two_epochs one_eval in
  occurrences is_train_log (Trainer.trace r.1)
  = Trainer.global_steps r.1 / 2
  /\ (r.2 = None -> occurrences is_train_log (Trainer.trace r.1) = n / 2)
  /\ forall v g,
       Trainer.TrainLog v g ∈ Trainer.trace r.1 ->
       0 < g <= n /\ g mod 2 = 0
       /\ v = (Rsum (window 2 g all) / IZR 2)%R.
Proof.
  apply (X22_logged_train_loss some_files (args 2 4 3) 2 two_epochs one_eval);
    simpl; lia.
Defined.

Section TrainErrors.
Variables (files : Trainer.Files) (a : Trainer.Args).

Lemma train_batch_ok (s : Trainer.state) (l : R) :
  files_writable files a ->
  Trainer.gradient_accumulation_steps a <> 0 ->
  Trainer.log_steps a <> 0 -> Trainer.ckpt_steps a <> 0 ->
  0 <= Trainer.local_steps s ->
  exists s',
    Trainer.train_batch files a s l = (s', None)
    /\ 0 <= Trainer.local_steps s'.
Proof.
  intros (W1 & W2 & W3 & W4) Hg Hl Hc Hloc.
  unfold Trainer.train_batch, Trainer.save_checkpoint, Trainer.emit.
  cbn [Trainer.losses Trainer.global_steps Trainer.local_steps
       Trainer.step_loss Trainer.trace].
  rewrite W1, W3, W4.
  rewrite (proj2 (Z.eqb_neq _ _) Hg), (proj2 (Z.eqb_neq _ _) Hl),
          (proj2 (Z.eqb_neq _ _) Hc).
  destruct (_ mod Trainer.gradient_accumulation_steps a =? 0);
    cbn [Trainer.losses Trainer.global_steps Trainer.local_steps
         Trainer.step_loss Trainer.trace];
    (destruct (_ mod Trainer.log_steps a =? 0);
     [replace (Trainer.local_steps s + 1 =? 0) with false
        by (symmetry; apply Z.eqb_neq; lia)|]);
    cbn [Trainer.losses Trainer.global_steps Trainer.local_steps
         Trainer.step_loss Trainer.trace];
    destruct (_ mod Trainer.ckpt_steps a =? 0);
    cbn [Trainer.losses Trainer.global_steps Trainer.local_steps
         Trainer.step_loss Trainer.trace];
    (eexists; split; [reflexivity|]; cbn [Trainer.local_steps]; lia).
Qed.

Lemma train_batches_ok (ls : list R) :
  files_writable files a ->
  Trainer.gradient_accumulation_steps a <> 0 ->
  Trainer.log_steps a <> 0 -> Trainer.ckpt_steps a <> 0 ->
  forall s : Trainer.state,
    0 <= Trainer.local_steps s ->
    exists s',
      Trainer.train_batches files a s ls = (s', None)
      /\ 0 <= Trainer.local_steps s'.
Proof.
  intros Hw Hg Hl Hc. induction ls as [|l ls IH]; intros s Hs.
  - exists s. split; [reflexivity|exact Hs].
  - cbn [Trainer.train_batches].
    destruct (train_batch_ok s l Hw Hg Hl Hc Hs) as (s1 & -> & Hs1).
    apply IH, Hs1.
Qed.

Lemma train_epochs_ok (epochs : list (list R * list R)) :
  files_writable files a ->
  concat (fst <$> epochs) = []
  \/ (Trainer.gradient_accumulation_steps a <> 0
      /\ Trainer.log_steps a <> 0 /\ Trainer.ckpt_steps a <> 0) ->
  forall s : Trainer.state,
    0 <= Trainer.local_steps s ->
    exists s', Trainer.train_epochs files a s epochs = (s', None).
Proof.
  intros Hw. induction epochs as [|[batches eval_batches] epochs IH];
    intros Hok s Hs.
  - exists s. reflexivity.
  - cbn [Trainer.train_epochs].
    assert (Hb : exists s1,
               Trainer.train_batches files a s batches = (s1, None)
               /\ 0 <= Trainer.local_steps s1).
    { destruct Hok as [Hnil|(Hg & Hl & Hc)].
      - rewrite fmap_cons in Hnil. cbn [fst concat] in Hnil.
        apply app_eq_nil in Hnil as [-> _].
        exists s. split; [reflexivity|exact Hs].
      - apply train_batches_ok; assumption. }
    destruct Hb as (s1 & -> & Hs1).
    rewrite evaluate_writable by apply Hw.
    apply IH; [|exact Hs1].
    destruct Hok as [Hnil|Hnz]; [left|right; exact Hnz].
    rewrite fmap_cons in Hnil. cbn [fst concat] in Hnil.
    apply app_eq_nil in Hnil as [_ Hnil]. exact Hnil.
Qed.

Lemma train_batch_zero (s : Trainer.state) (l : R) :
  Trainer.log_steps a = 0 \/ Trainer.ckpt_steps a = 0
  \/ Trainer.gradient_accumulation_steps a = 0 ->
  Trainer.writable files (Trainer.train_results_path a) = true ->
  exists s',
    Trainer.train_batch files a s l = (s', Some ZeroDivisionError)
    /\ Trainer.global_steps s' = Trainer.global_steps s + 1
    /\ occurrences is_checkpoint (Trainer.trace s')
       = occurrences is_checkpoint (Trainer.trace s).
Proof.
  intros Hz W1. unfold Trainer.train_batch, Trainer.emit.
  cbn [Trainer.losses Trainer.global_steps Trainer.local_steps
       Trainer.step_loss Trainer.trace].
  rewrite W1.
  assert (Hocc : forall tr e,
            is_checkpoint e = false ->
            occurrences is_checkpoint tr
            = occurrences is_checkpoint (Trainer.trace s) ->
            occurrences is_checkpoint (tr ++ [e])
            = occurrences is_checkpoint (Trainer.trace s)).
  { intros tr e He Htr. rewrite occurrences_app, Htr. unfold occurrences.
    cbn [List.filter]. rewrite He. cbn. lia. }
  destruct (Z.eqb_spec (Trainer.gradient_accumulation_steps a) 0) as [Hg|Hg].
  { eexists. split; [reflexivity|].
    cbn [Trainer.global_steps Trainer.trace]. split; [reflexivity|].
    apply Hocc; reflexivity. }
  destruct (_ mod Trainer.gradient_accumulation_steps a =? 0);
    cbn [Trainer.losses Trainer.global_steps Trainer.local_steps
         Trainer.step_loss Trainer.trace];
    (destruct (Z.eqb_spec (Trainer.log_steps a) 0) as [Hl|Hl];
     [eexists; split; [reflexivity|];
      cbn [Trainer.global_steps Trainer.trace]; split; [reflexivity|];
      repeat (apply Hocc; [reflexivity|]); reflexivity|]);
    (destruct (_ mod Trainer.log_steps a =? 0);
     [destruct (Trainer.local_steps s + 1 =? 0)|]);
    cbn [Trainer.losses Trainer.global_steps Trainer.local_steps
         Trainer.step_loss Trainer.trace];
    try (eexists; split; [reflexivity|];
         cbn [Trainer.global_steps Trainer.trace]; split; [reflexivity|];
         repeat (apply Hocc; [reflexivity|]); reflexivity);
    (destruct (Z.eqb_spec (Trainer.ckpt_steps a) 0) as [Hc|Hc]; [|lia]);
    (eexists; split; [reflexivity|];
     cbn [Trainer.global_steps Trainer.trace]; split; [reflexivity|];
     repeat (apply Hocc; [reflexivity|]); reflexivity).
Qed.

Lemma train_epochs_zero (epochs : list (list R * list R)) :
  Trainer.log_steps a = 0 \/ Trainer.ckpt_steps a = 0
  \/ Trainer.gradient_accumulation_steps a = 0 ->
  Trainer.writable files (Trainer.train_results_path a) = true ->
  Trainer.writable files (Trainer.eval_results_path a) = true ->
  concat (fst <$> epochs) <> [] ->
  forall s : Trainer.state,
    Trainer.global_steps s = 0 ->
    occurrences is_checkpoint (Trainer.trace s) = 0 ->
    exists s',
      Trainer.train_epochs files a s epochs = (s', Some ZeroDivisionError)
      /\ Trainer.global_steps s' = 1
      /\ occurrences is_checkpoint (Trainer.trace s') = 0.
Proof.
  intros Hz W1 W2.
  induction epochs as [|[batches eval_batches] epochs IH]; intros Hne s Hg Hc.
  - contradiction.
  - cbn [Trainer.train_epochs]. destruct batches as [|l ls].
    + cbn [Trainer.train_batches]. rewrite evaluate_writable by exact W2.
      apply IH.
      * exact Hne.
      * exact Hg.
      * unfold Trainer.emit. cbn [Trainer.trace].
        rewrite occurrences_app, Hc. reflexivity.
    + cbn [Trainer.train_batches].
      destruct (train_batch_zero s l Hz W1) as (s1 & -> & Hg1 & Hc1).
      exists s1. split; [reflexivity|]. split; [lia|]. rewrite Hc1. exact Hc.
Qed.

End TrainErrors.

(** X23.  Given a [ckpt_dir] that is [None] or a directory, and files
    that can be written, [train] raises exactly when there is a batch and
    one of [log_steps], [ckpt_steps] and [gradient_accumulation_steps] is
    zero.  It then raises [ZeroDivisionError] in the first batch, after
    its backward pass: [global_steps] is 1 and nothing has been saved. *)
Theorem X23_train_zero_division (files : Trainer.Files) (a : Trainer.Args)
    (epochs : Z) (train_dataloader eval_dataloader : nat -> list R) :
  ckpt_dir_ok files a ->
  let r := Trainer.train files a epochs train_dataloader eval_dataloader in
  (files_writable files a ->
   all_losses epochs train_dataloader = []
   \/ (Trainer.gradient_accumulation_steps a <> 0
       /\ Trainer.log_steps a <> 0 /\ Trainer.ckpt_steps a <> 0) ->
   r.2 = None)
  /\ (Trainer.writable files (Trainer.train_results_path a) = true ->
      Trainer.writable files (Trainer.eval_results_path a) = true ->
      all_losses epochs train_dataloader <> [] ->
      Trainer.log_steps a = 0 \/ Trainer.ckpt_steps a = 0
      \/ Trainer.gradient_accumulation_steps a = 0 ->
      r.2 = Some ZeroDivisionError
      /\ Trainer.global_steps r.1 = 1
      /\ occurrences is_checkpoint (Trainer.trace r.1) = 0).
Proof.
  intros Hdir r. subst r. unfold Trainer.train.
  assert (Hd : match Trainer.ckpt_dir a with
               | Some d => Trainer.isdir files d
               | None => true
               end = true).
  { unfold ckpt_dir_ok in Hdir. destruct (Trainer.ckpt_dir a); [exact Hdir|].
    reflexivity. }
  rewrite Hd.
  assert (Hall : concat (fst <$> ((fun e => (train_dataloader e,
                                             eval_dataloader e))
                                    <$> seq 0 (Z.to_nat epochs)))
                 = all_losses epochs train_dataloader).
  { unfold all_losses. rewrite <- list_fmap_compose. reflexivity. }
  split.
  - intros Hw Hok. rewrite <- Hall in Hok.
    destruct (train_epochs_ok files a _ Hw Hok Trainer.init) as (s & ->);
      [reflexivity|].
    unfold Trainer.save_checkpoint.
    destruct Hw as (_ & _ & -> & ->). reflexivity.
  - intros W1 W2 Hne Hz. rewrite <- Hall in Hne.
    destruct (train_epochs_zero files a _ Hz W1 W2 Hne Trainer.init)
      as (s & -> & Hg & Hc); [reflexivity|reflexivity|].
    repeat split; assumption.
Qed.

Lemma X23_witness :
  (Trainer.train some_files (args 2 0 1) 2 two_epochs one_eval).2
  = Some ZeroDivisionError
  /\ Trainer.global_steps
       (Trainer.train some_files (args 2 0 1) 2 two_epochs one_eval).1 = 1
  /\ occurrences is_checkpoint
       (Trainer.trace
          (Trainer.train some_files (args 2 0 1) 2 two_epochs one_eval).1)
     = 0.
Proof.
  apply (X23_train_zero_division some_files (args 2 0 1) 2
           two_epochs one_eval).
  - reflexivity.
  - reflexivity.
  - reflexivity.
  - discriminate.
  - right. left. reflexivity.
Defined.

(** X25.  A [ckpt_dir] that is given and is not a directory makes [train]
    raise the assertion of line 85 before anything else.  The default
    [None] passes the check, and the state dicts are then saved under a
    directory called [None]; when the model state cannot be written,
    whatever [ckpt_dir] is, no run of [train] returns: it raises at the
    latest at the save after the last epoch. *)
Theorem X25_train_checkpoint_directory (files : Trainer.Files)
    (a : Trainer.Args) (epochs : Z)
    (train_dataloader eval_dataloader : nat -> list R) :
  let r := Trainer.train files a epochs train_dataloader eval_dataloader in
  (forall d, Trainer.ckpt_dir a = Some d -> Trainer.isdir files d = false ->
             r = (Trainer.init, Some (PyAssertionError "")))
  /\ (Trainer.ckpt_dir a = None ->
      Trainer.model_path a = "None/electra_model_state_dict.pt")
  /\ (Trainer.writable files (Trainer.model_path a) = false ->
      exists e, r.2 = Some e).
Proof.
  intros r. subst r. unfold Trainer.train. split; [|split].
  - intros d Hd Hn. rewrite Hd, Hn. reflexivity.
  - intros Hd. unfold Trainer.model_path. rewrite Hd. reflexivity.
  - intros Hw.
    destruct (match Trainer.ckpt_dir a with
              | Some d => Trainer.isdir files d
              | None => true
              end); [|eexists; reflexivity].
    destruct (Trainer.train_epochs files a Trainer.init _) as [s [e|]];
      [eexists; reflexivity|].
    unfold Trainer.save_checkpoint. rewrite Hw. eexists. reflexivity.
Qed.
